(** * Diamond exchange core: matching, exposure accounting, market lifecycle, settlement

    A shallow embedding of the order-placement controller, the price-time
    matching engine, the settlement service, the admin market endpoints,
    the order book and the wallet endpoints, with the properties of their
    specification stated over it.

    Modelling conventions.
    - [Prisma.Decimal] values are arbitrary-precision decimals; they are
      modelled by exact rationals [Q], with [plus], [minus], [mul], [neg]
      as [+], [-], [*], [-] and the comparisons [lt], [lte], [gt] as the
      boolean tests of module [Dec].  Statements about amounts use the
      equality [==] of [Q].  The scale of the stored columns (two
      fractional digits) is not modelled: amounts are kept as computed.
    - The database is a record of tables.  Tables with a unique key that the
      code addresses by that key (wallets by user, markets by id, market
      exposures by (user, market)) are finite maps; the other tables are
      lists in insertion order.  Columns that no modelled code reads (notes,
      names of users, update stamps) are left out.
    - Code that runs against the transaction client is a state-and-exception
      computation [Tx]; [transaction] discards the writes of a body that
      throws, as [prisma.$transaction] does.
    - Keys generated by the database (orders, trades) are natural numbers,
      never reused; keys that arrive from outside are strings.
    - A single transaction runs at a time, so [FOR UPDATE SKIP LOCKED] never
      skips a row. *)

From Stdlib Require Import QArith Qminmax Lqa Lia List Sorted Permutation Ascii String.
From stdpp Require Import base option gmap strings.

Local Open Scope Q_scope.

(** ** Decimal comparisons *)

Module Dec.

Definition lt (a b : Q) : bool := negb (Qle_bool b a).
Definition lte (a b : Q) : bool := Qle_bool a b.
Definition gt (a b : Q) : bool := lt b a.

Lemma lte_true a b : lte a b = true <-> a <= b.
Proof. apply Qle_bool_iff. Qed.

Lemma lte_false a b : lte a b = false <-> b < a.
Proof.
  unfold lte. split; intros H.
  - apply Qnot_le_lt. intros Hle. apply Qle_bool_iff in Hle. congruence.
  - destruct (Qle_bool a b) eqn:E; [|reflexivity].
    apply Qle_bool_iff in E. lra.
Qed.

Lemma lt_true a b : lt a b = true <-> a < b.
Proof.
  unfold lt. rewrite negb_true_iff. apply lte_false.
Qed.

Lemma lt_false a b : lt a b = false <-> b <= a.
Proof.
  unfold lt. rewrite negb_false_iff. apply lte_true.
Qed.

End Dec.

(** ** Data model (prisma schema) *)

Inductive OrderSide := BACK | LAY.
Inductive OrderStatus := OPEN | PARTIAL | MATCHED | CANCELLED.
Inductive MarketStatus := MOPEN | SUSPENDED | CLOSED | SETTLED.
Inductive MatchStatus := UPCOMING | LIVE | COMPLETED | MCANCELLED.
Inductive LedgerType :=
  | CREDIT | DEBIT | TRANSFER_IN | TRANSFER_OUT | BET_PLACE | BET_SETTLE
  | BET_REFUND | ORDER_PLACE | ORDER_CANCEL | ORDER_SETTLE
  | EXPOSURE_LOCK | EXPOSURE_RELEASE.

#[global] Instance OrderSide_eq_dec : EqDecision OrderSide.
Proof. solve_decision. Defined.
#[global] Instance OrderStatus_eq_dec : EqDecision OrderStatus.
Proof. solve_decision. Defined.
#[global] Instance MarketStatus_eq_dec : EqDecision MarketStatus.
Proof. solve_decision. Defined.
#[global] Instance LedgerType_eq_dec : EqDecision LedgerType.
Proof. solve_decision. Defined.

Record Wallet := mkWallet { balance : Q; exposure : Q }.

Record Ledger := mkLedger {
  l_userId : string;
  l_amount : Q;
  l_type : LedgerType;
  l_balance : Q
}.

Record Market := mkMarket { m_matchId : string; m_status : MarketStatus }.

Record Runner := mkRunner {
  r_id : string;
  r_marketId : string;
  r_name : string;
  r_isWinner : option bool
}.

Record Order := mkOrder {
  o_id : nat;
  o_userId : string;
  o_marketId : string;
  o_selectionId : string;
  o_side : OrderSide;
  o_price : Q;
  o_stake : Q;
  o_matchedStake : Q;
  o_remainingStake : Q;
  o_status : OrderStatus;
  o_lockedExposure : Q;
  o_createdAt : nat
}.

Record Trade := mkTrade {
  t_id : nat;
  t_backOrderId : nat;
  t_layOrderId : nat;
  t_selectionId : string;
  t_price : Q;
  t_stake : Q;
  t_settled : bool;
  t_settledAt : option nat
}.

Record DB := mkDB {
  wallets : gmap string Wallet;
  ledger : list Ledger;
  matches : gmap string MatchStatus;
  markets : gmap string Market;
  runners : list Runner;
  orders : list Order;
  trades : list Trade;
  marketExposures : gmap (string * string) Q
}.

Definition set_wallets (f : gmap string Wallet -> gmap string Wallet) (db : DB) : DB :=
  mkDB (f (wallets db)) (ledger db) (matches db) (markets db) (runners db)
       (orders db) (trades db) (marketExposures db).
Definition set_ledger (f : list Ledger -> list Ledger) (db : DB) : DB :=
  mkDB (wallets db) (f (ledger db)) (matches db) (markets db) (runners db)
       (orders db) (trades db) (marketExposures db).
Definition set_matches (f : gmap string MatchStatus -> gmap string MatchStatus) (db : DB) : DB :=
  mkDB (wallets db) (ledger db) (f (matches db)) (markets db) (runners db)
       (orders db) (trades db) (marketExposures db).
Definition set_markets (f : gmap string Market -> gmap string Market) (db : DB) : DB :=
  mkDB (wallets db) (ledger db) (matches db) (f (markets db)) (runners db)
       (orders db) (trades db) (marketExposures db).
Definition set_runners (f : list Runner -> list Runner) (db : DB) : DB :=
  mkDB (wallets db) (ledger db) (matches db) (markets db) (f (runners db))
       (orders db) (trades db) (marketExposures db).
Definition set_orders (f : list Order -> list Order) (db : DB) : DB :=
  mkDB (wallets db) (ledger db) (matches db) (markets db) (runners db)
       (f (orders db)) (trades db) (marketExposures db).
Definition set_trades (f : list Trade -> list Trade) (db : DB) : DB :=
  mkDB (wallets db) (ledger db) (matches db) (markets db) (runners db)
       (orders db) (f (trades db)) (marketExposures db).
Definition set_marketExposures
    (f : gmap (string * string) Q -> gmap (string * string) Q) (db : DB) : DB :=
  mkDB (wallets db) (ledger db) (matches db) (markets db) (runners db)
       (orders db) (trades db) (f (marketExposures db)).

(** ** Errors and transactions *)

Inductive Message :=
  | StakeMustBePositive | PriceMustBeGreaterThanOne
  | MarketNotFound | MarketIs (s : MarketStatus)
  | RunnerNotFound | WalletNotFound
  | InsufficientBalance (required available : Q)
  | OrderNotFound | CannotCancel (s : OrderStatus)
  | MarketAlreadySettled | StatusMustBeOpenSuspendedClosed.

Inductive Error :=
  | ApiError (statusCode : nat) (message : Message)
  | RecordNotFound.   (* raised by [update] and [findUniqueOrThrow] *)

Inductive Result (A : Type) := Ok (a : A) | Throw (e : Error).
Arguments Ok {A} a.
Arguments Throw {A} e.

Definition Tx (A : Type) : Type := DB -> Result A * DB.

Definition ret {A} (a : A) : Tx A := fun db => (Ok a, db).
Definition throw {A} (e : Error) : Tx A := fun db => (Throw e, db).
Definition bind {A B} (m : Tx A) (k : A -> Tx B) : Tx B :=
  fun db =>
    match m db with
    | (Ok a, db') => k a db'
    | (Throw e, db') => (Throw e, db')
    end.

Notation "x <- m ;; k" := (bind m (fun x => k))
  (at level 100, m at next level, right associativity).
Notation "m ;;; k" := (bind m (fun _ => k))
  (at level 100, right associativity).

(** [prisma.$transaction]: commit on success, roll back on a throw. *)
Definition transaction {A} (body : Tx A) : Tx A :=
  fun db =>
    match body db with
    | (Ok a, db') => (Ok a, db')
    | (Throw e, _) => (Throw e, db)
    end.

Definition get {A} (f : DB -> A) : Tx A := fun db => (Ok (f db), db).
Definition modify (f : DB -> DB) : Tx unit := fun db => (Ok tt, f db).

(** [for (const x of l) body] *)
Fixpoint forEach {A} (l : list A) (body : A -> Tx unit) : Tx unit :=
  match l with
  | [] => ret tt
  | x :: rest => body x ;;; forEach rest body
  end.

(** ** Table primitives (the prisma client calls the code makes) *)

Definition fresh_id (ids : list nat) : nat := S (list_max ids).

Definition wallet_findUnique (userId : string) : Tx (option Wallet) :=
  get (fun db => wallets db !! userId).

Definition wallet_findUniqueOrThrow (userId : string) : Tx Wallet :=
  w <- wallet_findUnique userId ;;
  match w with Some w => ret w | None => throw RecordNotFound end.

(** [tx.wallet.update({ where: { userId }, data })] returns the updated row. *)
Definition wallet_update (userId : string) (data : Wallet -> Wallet) : Tx Wallet :=
  w <- wallet_findUnique userId ;;
  match w with
  | Some w =>
      modify (set_wallets (fun ws => <[userId := data w]> ws)) ;;;
      ret (data w)
  | None => throw RecordNotFound
  end.

Definition ledger_create (entry : Ledger) : Tx unit :=
  modify (set_ledger (fun l => l ++ [entry])).

Definition order_findMany (where_ : Order -> bool) : Tx (list Order) :=
  get (fun db => List.filter where_ (orders db)).

Definition order_findFirst (where_ : Order -> bool) : Tx (option Order) :=
  get (fun db => find where_ (orders db)).

Definition order_findUniqueOrThrow (id : nat) : Tx Order :=
  o <- order_findFirst (fun o => Nat.eqb (o_id o) id) ;;
  match o with Some o => ret o | None => throw RecordNotFound end.

Definition update_order (id : nat) (data : Order -> Order) (os : list Order) : list Order :=
  map (fun o' => if Nat.eqb (o_id o') id then data o' else o') os.

Definition order_update (id : nat) (data : Order -> Order) : Tx Order :=
  o <- order_findUniqueOrThrow id ;;
  modify (set_orders (update_order id data)) ;;;
  ret (data o).

(** [tx.order.create]: the key is generated, [matchedStake] takes its
    column default 0 and [createdAt] the current time. *)
Definition order_create (now : nat) (userId marketId selectionId : string)
    (side : OrderSide) (price stake remainingStake lockedExposure : Q)
    (status : OrderStatus) : Tx Order :=
  ids <- get (fun db => map o_id (orders db)) ;;
  let o := mkOrder (fresh_id ids) userId marketId selectionId side price stake 0
                   remainingStake status lockedExposure now in
  modify (set_orders (fun os => os ++ [o])) ;;;
  ret o.

(** [tx.trade.create]: [settled] defaults to false, [settledAt] to null. *)
Definition trade_create (backOrderId layOrderId : nat) (selectionId : string)
    (price stake : Q) : Tx Trade :=
  ids <- get (fun db => map t_id (trades db)) ;;
  let t := mkTrade (fresh_id ids) backOrderId layOrderId selectionId price stake
                   false None in
  modify (set_trades (fun ts => ts ++ [t])) ;;;
  ret t.

Definition update_trade (id : nat) (data : Trade -> Trade) (ts : list Trade) : list Trade :=
  map (fun t' => if Nat.eqb (t_id t') id then data t' else t') ts.

Definition trade_update (id : nat) (data : Trade -> Trade) : Tx unit :=
  t <- get (fun db => find (fun t => Nat.eqb (t_id t) id) (trades db)) ;;
  match t with
  | Some _ => modify (set_trades (update_trade id data))
  | None => throw RecordNotFound
  end.

Definition market_findUnique (id : string) : Tx (option Market) :=
  get (fun db => markets db !! id).

Definition market_update (id : string) (data : Market -> Market) : Tx Market :=
  m <- market_findUnique id ;;
  match m with
  | Some m =>
      modify (set_markets (fun ms => <[id := data m]> ms)) ;;;
      ret (data m)
  | None => throw RecordNotFound
  end.

Definition runner_findMany (where_ : Runner -> bool) : Tx (list Runner) :=
  get (fun db => List.filter where_ (runners db)).

Definition runner_findFirst (where_ : Runner -> bool) : Tx (option Runner) :=
  get (fun db => find where_ (runners db)).

Definition update_runner (id : string) (data : Runner -> Runner) (rs : list Runner)
    : list Runner :=
  map (fun r' => if String.eqb (r_id r') id then data r' else r') rs.

Definition runner_update (id : string) (data : Runner -> Runner) : Tx unit :=
  r <- runner_findFirst (fun r => String.eqb (r_id r) id) ;;
  match r with
  | Some _ => modify (set_runners (update_runner id data))
  | None => throw RecordNotFound
  end.

Definition match_update (id : string) (status : MatchStatus) : Tx unit :=
  m <- get (fun db => matches db !! id) ;;
  match m with
  | Some _ => modify (set_matches (fun ms => <[id := status]> ms))
  | None => throw RecordNotFound
  end.

(** [tx.marketExposure.upsert({ where, create, update: { increment } })] *)
Definition upsert_exposure (userId marketId : string) (create increment : Q)
    (es : gmap (string * string) Q) : gmap (string * string) Q :=
  match es !! (userId, marketId) with
  | Some e => <[(userId, marketId) := e + increment]> es
  | None => <[(userId, marketId) := create]> es
  end.

Definition marketExposure_upsert (userId marketId : string) (create increment : Q) : Tx unit :=
  modify (set_marketExposures (upsert_exposure userId marketId create increment)).

(** [tx.marketExposure.updateMany({ where: { userId, marketId },
    data: { exposureAmount: { decrement } } })]: no row, no change. *)
Definition decrement_exposure_row (userId marketId : string) (decrement : Q)
    (es : gmap (string * string) Q) : gmap (string * string) Q :=
  match es !! (userId, marketId) with
  | Some e => <[(userId, marketId) := e - decrement]> es
  | None => es
  end.

Definition marketExposure_updateMany (userId marketId : string) (decrement : Q) : Tx unit :=
  modify (set_marketExposures (decrement_exposure_row userId marketId decrement)).

(** ** Matching engine (services/matching-engine.service.ts) *)

Record TradeInfo := mkTradeInfo { ti_tradeId : nat; ti_price : Q; ti_stake : Q }.

Record MatchResult := mkMatchResult {
  mr_matchedStake : Q;
  mr_remainingStake : Q;
  mr_trades : list TradeInfo
}.

(** The columns the candidate query selects. *)
Record Candidate := mkCandidate {
  c_id : nat;
  c_price : Q;
  c_remainingStake : Q;
  c_userId : string
}.

Definition candidate_of (o : Order) : Candidate :=
  mkCandidate (o_id o) (o_price o) (o_remainingStake o) (o_userId o).

Fixpoint insert_by {A} (leb : A -> A -> bool) (x : A) (l : list A) : list A :=
  match l with
  | [] => [x]
  | y :: l' => if leb x y then x :: l else y :: insert_by leb x l'
  end.

(** [ORDER BY]: a stable sort of the selected rows. *)
Definition order_by {A} (leb : A -> A -> bool) (l : list A) : list A :=
  fold_right (insert_by leb) [] l.

Definition is_open_or_partial (s : OrderStatus) : bool :=
  match s with OPEN | PARTIAL => true | _ => false end.

(** [WHERE selectionId = .. AND side = 'LAY' AND status IN ('OPEN','PARTIAL')
    AND price <= backPrice] *)
Definition lay_candidate (selectionId : string) (backPrice : Q) (o : Order) : bool :=
  String.eqb (o_selectionId o) selectionId
  && bool_decide (o_side o = LAY)
  && is_open_or_partial (o_status o)
  && Dec.lte (o_price o) backPrice.

(** [WHERE .. side = 'BACK' .. AND price >= layPrice] *)
Definition back_candidate (selectionId : string) (layPrice : Q) (o : Order) : bool :=
  String.eqb (o_selectionId o) selectionId
  && bool_decide (o_side o = BACK)
  && is_open_or_partial (o_status o)
  && Dec.lte layPrice (o_price o).

(** [ORDER BY price ASC, createdAt ASC] *)
Definition price_asc_oldest (a b : Order) : bool :=
  Dec.lt (o_price a) (o_price b)
  || (Qeq_bool (o_price a) (o_price b) && Nat.leb (o_createdAt a) (o_createdAt b)).

(** [ORDER BY price DESC, createdAt ASC] *)
Definition price_desc_oldest (a b : Order) : bool :=
  Dec.lt (o_price b) (o_price a)
  || (Qeq_bool (o_price a) (o_price b) && Nat.leb (o_createdAt a) (o_createdAt b)).

Definition lay_rows (selectionId : string) (backPrice : Q) (os : list Order) : list Order :=
  order_by price_asc_oldest (List.filter (lay_candidate selectionId backPrice) os).

Definition back_rows (selectionId : string) (layPrice : Q) (os : list Order) : list Order :=
  order_by price_desc_oldest (List.filter (back_candidate selectionId layPrice) os).

Definition query_lay_candidates (selectionId : string) (backPrice : Q) : Tx (list Candidate) :=
  get (fun db => map candidate_of (lay_rows selectionId backPrice (orders db))).

Definition query_back_candidates (selectionId : string) (layPrice : Q) : Tx (list Candidate) :=
  get (fun db => map candidate_of (back_rows selectionId layPrice (orders db))).

(** Adjust the exposure record of a user and market: a positive delta
    locks more, a negative one releases. *)
Definition adjustExposure (userId marketId : string) (delta : Q) : Tx unit :=
  marketExposure_upsert userId marketId (if Dec.lt delta 0 then 0 else delta) delta.

Definition fill_candidate (tradeStake newCandidateMatched newCandidateRemaining : Q)
    (newCandidateStatus : OrderStatus) (o : Order) : Order :=
  mkOrder (o_id o) (o_userId o) (o_marketId o) (o_selectionId o) (o_side o)
          (o_price o) (o_stake o) newCandidateMatched newCandidateRemaining
          newCandidateStatus (o_lockedExposure o) (o_createdAt o).

(** Body of the candidate loop of [matchBackOrder]; returns the trade
    pushed to the result and the stake filled. *)
Definition matchBackStep (incomingOrderId : nat) (selectionId : string)
    (candidate : Candidate) (remaining : Q) : Tx (TradeInfo * Q) :=
  let candidateRemaining := c_remainingStake candidate in
  let candidatePrice := c_price candidate in
  let tradeStake :=
    if Dec.lt remaining candidateRemaining then remaining else candidateRemaining in
  trade <- trade_create incomingOrderId (c_id candidate) selectionId candidatePrice tradeStake ;;
  let newCandidateRemaining := candidateRemaining - tradeStake in
  o <- order_findUniqueOrThrow (c_id candidate) ;;
  let newCandidateMatched := o_matchedStake o + tradeStake in
  let newCandidateStatus := if Dec.lte newCandidateRemaining 0 then MATCHED else PARTIAL in
  order_update (c_id candidate)
    (fill_candidate tradeStake newCandidateMatched newCandidateRemaining newCandidateStatus) ;;;
  let layExposureReleased := (candidatePrice - 1) * tradeStake in
  o' <- order_findUniqueOrThrow (c_id candidate) ;;
  adjustExposure (c_userId candidate) (o_marketId o') (- layExposureReleased) ;;;
  ret (mkTradeInfo (t_id trade) candidatePrice tradeStake, tradeStake).

Fixpoint matchBackLoop (incomingOrderId : nat) (selectionId : string)
    (candidates : list Candidate) (remaining : Q) (trades : list TradeInfo)
    : Tx (Q * list TradeInfo) :=
  match candidates with
  | [] => ret (remaining, trades)
  | candidate :: rest =>
      if Dec.lte remaining 0 then ret (remaining, trades)
      else
        r <- matchBackStep incomingOrderId selectionId candidate remaining ;;
        matchBackLoop incomingOrderId selectionId rest (remaining - snd r)
                      (trades ++ [fst r])
  end.

Definition matchBackOrder (incomingOrderId : nat) (selectionId : string)
    (backPrice stakeToMatch : Q) : Tx MatchResult :=
  candidates <- query_lay_candidates selectionId backPrice ;;
  r <- matchBackLoop incomingOrderId selectionId candidates stakeToMatch [] ;;
  let remaining := fst r in
  let matchedStake := stakeToMatch - remaining in
  ret (mkMatchResult matchedStake remaining (snd r)).

Definition matchLayStep (incomingOrderId : nat) (selectionId : string)
    (candidate : Candidate) (remaining : Q) : Tx (TradeInfo * Q) :=
  let candidateRemaining := c_remainingStake candidate in
  let candidatePrice := c_price candidate in
  let tradeStake :=
    if Dec.lt remaining candidateRemaining then remaining else candidateRemaining in
  trade <- trade_create (c_id candidate) incomingOrderId selectionId candidatePrice tradeStake ;;
  let newCandidateRemaining := candidateRemaining - tradeStake in
  o <- order_findUniqueOrThrow (c_id candidate) ;;
  let newCandidateMatched := o_matchedStake o + tradeStake in
  let newCandidateStatus := if Dec.lte newCandidateRemaining 0 then MATCHED else PARTIAL in
  order_update (c_id candidate)
    (fill_candidate tradeStake newCandidateMatched newCandidateRemaining newCandidateStatus) ;;;
  o' <- order_findUniqueOrThrow (c_id candidate) ;;
  adjustExposure (c_userId candidate) (o_marketId o') (- tradeStake) ;;;
  ret (mkTradeInfo (t_id trade) candidatePrice tradeStake, tradeStake).

Fixpoint matchLayLoop (incomingOrderId : nat) (selectionId : string)
    (candidates : list Candidate) (remaining : Q) (trades : list TradeInfo)
    : Tx (Q * list TradeInfo) :=
  match candidates with
  | [] => ret (remaining, trades)
  | candidate :: rest =>
      if Dec.lte remaining 0 then ret (remaining, trades)
      else
        r <- matchLayStep incomingOrderId selectionId candidate remaining ;;
        matchLayLoop incomingOrderId selectionId rest (remaining - snd r)
                     (trades ++ [fst r])
  end.

Definition matchLayOrder (incomingOrderId : nat) (selectionId : string)
    (layPrice stakeToMatch : Q) : Tx MatchResult :=
  candidates <- query_back_candidates selectionId layPrice ;;
  r <- matchLayLoop incomingOrderId selectionId candidates stakeToMatch [] ;;
  let remaining := fst r in
  let matchedStake := stakeToMatch - remaining in
  ret (mkMatchResult matchedStake remaining (snd r)).

(** ** Order lifecycle controller: [placeOrder] and [cancelOrder] *)

Record PlaceResult := mkPlaceResult {
  pr_order : Order;
  pr_trades : list TradeInfo;
  pr_matchedStake : Q;
  pr_remainingStake : Q;
  pr_status : OrderStatus
}.

Definition set_fill (matchedStake remainingStake : Q) (status : OrderStatus)
    (o : Order) : Order :=
  mkOrder (o_id o) (o_userId o) (o_marketId o) (o_selectionId o) (o_side o)
          (o_price o) (o_stake o) matchedStake remainingStake status
          (o_lockedExposure o) (o_createdAt o).

Definition set_status (status : OrderStatus) (o : Order) : Order :=
  set_fill (o_matchedStake o) (o_remainingStake o) status o.

Definition set_exposure (e : Q) (w : Wallet) : Wallet := mkWallet (balance w) e.
Definition increment_balance (a : Q) (w : Wallet) : Wallet :=
  mkWallet (balance w + a) (exposure w).
Definition decrement_exposure (a : Q) (w : Wallet) : Wallet :=
  mkWallet (balance w) (exposure w - a).

(** The body handed to [prisma.$transaction] by [placeOrder]. *)
Definition placeOrderTx (now : nat) (userId marketId selectionId : string)
    (side : OrderSide) (orderPrice orderStake : Q) : Tx PlaceResult :=
  (* 1. Validate market is open *)
  market <- market_findUnique marketId ;;
  match market with
  | None => throw (ApiError 404 MarketNotFound)
  | Some market =>
  if negb (bool_decide (m_status market = MOPEN))
  then throw (ApiError 400 (MarketIs (m_status market)))
  else
  (* 2. Validate runner exists in this market *)
  runner <- runner_findFirst (fun r =>
              String.eqb (r_id r) selectionId && String.eqb (r_marketId r) marketId) ;;
  match runner with
  | None => throw (ApiError 404 RunnerNotFound)
  | Some _ =>
  (* 3. Calculate required exposure *)
  let liability :=
    match side with
    | BACK => orderStake
    | LAY => (orderPrice - 1) * orderStake
    end in
  (* 4. Lock exposure in wallet *)
  wallet <- wallet_findUnique userId ;;
  match wallet with
  | None => throw (ApiError 404 WalletNotFound)
  | Some wallet =>
  let availableBalance := balance wallet - exposure wallet in
  if Dec.lt availableBalance liability
  then throw (ApiError 400 (InsufficientBalance liability availableBalance))
  else
  let newWalletExposure := exposure wallet + liability in
  wallet_update userId (set_exposure newWalletExposure) ;;;
  (* 5. Create order record *)
  order <- order_create now userId marketId selectionId side orderPrice orderStake
             orderStake liability OPEN ;;
  ledger_create (mkLedger userId (- liability) EXPOSURE_LOCK (balance wallet)) ;;;
  (* 6. Run matching engine *)
  matchResult <-
    match side with
    | BACK => matchBackOrder (o_id order) selectionId orderPrice orderStake
    | LAY => matchLayOrder (o_id order) selectionId orderPrice orderStake
    end ;;
  (* 7. Update the new order based on match result *)
  let finalStatus :=
    if Dec.lte (mr_remainingStake matchResult) 0 then MATCHED
    else if Dec.gt (mr_matchedStake matchResult) 0 then PARTIAL
    else OPEN in
  updatedOrder <- order_update (o_id order)
    (set_fill (mr_matchedStake matchResult) (mr_remainingStake matchResult) finalStatus) ;;
  ret (mkPlaceResult updatedOrder (mr_trades matchResult)
         (mr_matchedStake matchResult) (mr_remainingStake matchResult) finalStatus)
  end end end.

(** [placeOrder] for an authenticated user and a complete request body. *)
Definition placeOrder (now : nat) (userId marketId selectionId : string)
    (side : OrderSide) (price stake : Q) : Tx PlaceResult :=
  let orderPrice := price in
  let orderStake := stake in
  if Dec.lte orderStake 0 then throw (ApiError 400 StakeMustBePositive)
  else if Dec.lte orderPrice 1 then throw (ApiError 400 PriceMustBeGreaterThanOne)
  else transaction (placeOrderTx now userId marketId selectionId side orderPrice orderStake).

Record CancelResult := mkCancelResult {
  cr_orderId : nat;
  cr_releasedExposure : Q;
  cr_newExposure : Q;
  cr_availableBalance : Q
}.

Definition order_exposureToRelease (order : Order) : Q :=
  match o_side order with
  | BACK => o_remainingStake order
  | LAY => (o_price order - 1) * o_remainingStake order
  end.

Definition cancelOrderTx (userId : string) (orderId : nat) : Tx CancelResult :=
  order <- order_findFirst (fun o =>
             Nat.eqb (o_id o) orderId && String.eqb (o_userId o) userId) ;;
  match order with
  | None => throw (ApiError 404 OrderNotFound)
  | Some order =>
  if negb (is_open_or_partial (o_status order))
  then throw (ApiError 400 (CannotCancel (o_status order)))
  else
  (* Release exposure for remaining (unmatched) stake only *)
  let exposureToRelease := order_exposureToRelease order in
  order_update (o_id order) (set_status CANCELLED) ;;;
  wallet <- wallet_update userId (decrement_exposure exposureToRelease) ;;
  ledger_create (mkLedger userId exposureToRelease EXPOSURE_RELEASE (balance wallet)) ;;;
  ret (mkCancelResult (o_id order) exposureToRelease (exposure wallet)
         (balance wallet - exposure wallet))
  end.

Definition cancelOrder (userId : string) (orderId : nat) : Tx CancelResult :=
  transaction (cancelOrderTx userId orderId).

(** ** Settlement service (services/settlement.service.ts) *)

(** A trade row with its [backOrder], [layOrder] and [selection] included.
    The three relations are required foreign keys; a trade whose related
    rows are absent is not returned. *)
Record TradeJoined := mkTradeJoined {
  tj_trade : Trade;
  tj_backOrder : Order;
  tj_layOrder : Order;
  tj_selection : Runner
}.

Definition join_trade (db : DB) (t : Trade) : option TradeJoined :=
  match find (fun o => Nat.eqb (o_id o) (t_backOrderId t)) (orders db),
        find (fun o => Nat.eqb (o_id o) (t_layOrderId t)) (orders db),
        find (fun r => String.eqb (r_id r) (t_selectionId t)) (runners db) with
  | Some b, Some l, Some s => Some (mkTradeJoined t b l s)
  | _, _, _ => None
  end.

Definition mem_string (x : string) (l : list string) : bool :=
  existsb (String.eqb x) l.

(** [tx.trade.findMany({ where: { selectionId: { in }, settled: false },
    include: { backOrder, layOrder, selection } })] *)
Definition unsettled_trades (selectionIds : list string) (db : DB) : list TradeJoined :=
  omap (join_trade db)
       (List.filter (fun t => mem_string (t_selectionId t) selectionIds && negb (t_settled t))
                    (trades db)).

Definition trade_findMany_unsettled (selectionIds : list string) : Tx (list TradeJoined) :=
  get (unsettled_trades selectionIds).

Definition mark_settled (now : nat) (t : Trade) : Trade :=
  mkTrade (t_id t) (t_backOrderId t) (t_layOrderId t) (t_selectionId t)
          (t_price t) (t_stake t) true (Some now).

Definition creditWallet (userId : string) (amount : Q) (marketId : string) : Tx unit :=
  wallet <- wallet_update userId (increment_balance amount) ;;
  ledger_create (mkLedger userId amount ORDER_SETTLE (balance wallet)).

Definition releaseExposure (userId marketId : string) (amount : Q) : Tx unit :=
  (* Decrement global wallet exposure *)
  wallet_update userId (decrement_exposure amount) ;;;
  (* Decrement per-market exposure record *)
  marketExposure_updateMany userId marketId amount.

Inductive Outcome := BACK_WINS | LAY_WINS.

Definition settleTrade (now : nat) (trade : TradeJoined) (outcome : Outcome) : Tx unit :=
  let price := t_price (tj_trade trade) in
  let stake := t_stake (tj_trade trade) in
  let profit := (price - 1) * stake in
  let backUserId := o_userId (tj_backOrder trade) in
  let layUserId := o_userId (tj_layOrder trade) in
  let marketId := o_marketId (tj_backOrder trade) in
  match outcome with
  | BACK_WINS =>
      (* BACK receives: stake (returned) + profit *)
      let backPayout := stake + profit in
      creditWallet backUserId backPayout marketId ;;;
      (* LAY loses their liability: release it and don't return *)
      releaseExposure layUserId marketId profit
  | LAY_WINS =>
      (* LAY wins: receives the back staker's stake *)
      creditWallet layUserId stake marketId ;;;
      (* BACK loses stake *)
      releaseExposure backUserId marketId stake
  end ;;;
  trade_update (t_id (tj_trade trade)) (mark_settled now).

Definition refundTrade (now : nat) (trade : TradeJoined) : Tx unit :=
  let price := t_price (tj_trade trade) in
  let stake := t_stake (tj_trade trade) in
  let marketId := o_marketId (tj_backOrder trade) in
  (* Refund BACK stake *)
  creditWallet (o_userId (tj_backOrder trade)) stake marketId ;;;
  (* Refund LAY liability *)
  let layLiability := (price - 1) * stake in
  creditWallet (o_userId (tj_layOrder trade)) layLiability marketId ;;;
  trade_update (t_id (tj_trade trade)) (mark_settled now).

(** Body of the loop over unsettled trades in [settleMatch]. *)
Definition settleUnsettledTrade (now : nat) (trade : TradeJoined) : Tx unit :=
  match r_isWinner (tj_selection trade) with
  | None => refundTrade now trade
  | Some true => settleTrade now trade BACK_WINS
  | Some false => settleTrade now trade LAY_WINS
  end.

Definition cancelOpenOrder (marketId : string) (order : Order) : Tx unit :=
  order_update (o_id order) (set_status CANCELLED) ;;;
  (* Release the exposure for remaining unmatched stake *)
  let exposureToRelease := order_exposureToRelease order in
  wallet_update (o_userId order) (decrement_exposure exposureToRelease) ;;;
  marketExposure_updateMany (o_userId order) marketId exposureToRelease ;;;
  wallet <- wallet_findUniqueOrThrow (o_userId order) ;;
  ledger_create (mkLedger (o_userId order) exposureToRelease EXPOSURE_RELEASE (balance wallet)).

Definition open_orders_of (marketId : string) (o : Order) : bool :=
  String.eqb (o_marketId o) marketId && is_open_or_partial (o_status o).

Definition cancelOpenOrders (marketId : string) : Tx unit :=
  openOrders <- order_findMany (open_orders_of marketId) ;;
  forEach openOrders (cancelOpenOrder marketId).

Definition lower_ascii (c : ascii) : ascii :=
  let n := nat_of_ascii c in
  if (Nat.leb 65 n && Nat.leb n 90)%bool then ascii_of_nat (n + 32) else c.

Fixpoint toLowerCase (s : string) : string :=
  match s with
  | EmptyString => EmptyString
  | String c s' => String (lower_ascii c) (toLowerCase s')
  end.

Definition set_isWinner (w : option bool) (r : Runner) : Runner :=
  mkRunner (r_id r) (r_marketId r) (r_name r) w.

Definition set_market_status (s : MarketStatus) (m : Market) : Market :=
  mkMarket (m_matchId m) s.

Definition settleMarket (now : nat) (winnerName : option string) (marketId : string) : Tx unit :=
  (* 3. Mark market SETTLED *)
  market_update marketId (set_market_status SETTLED) ;;;
  market_runners <- runner_findMany (fun r => String.eqb (r_marketId r) marketId) ;;
  (* 4. Determine winning runner *)
  forEach market_runners (fun runner =>
    let isWinner :=
      match winnerName with
      | Some w => String.eqb (toLowerCase (r_name runner)) (toLowerCase w)
      | None => false
      end in
    runner_update (r_id runner) (set_isWinner (Some isWinner))) ;;;
  (* 5. Settle all unsettled trades in this market *)
  unsettledTrades <- trade_findMany_unsettled (map r_id market_runners) ;;
  forEach unsettledTrades (settleUnsettledTrade now) ;;;
  (* 6. Cancel remaining OPEN/PARTIAL orders and release exposure *)
  cancelOpenOrders marketId.

(** The transaction of [settleMatch]; [winnerName] is the team with the
    higher score of the event, or none on a draw. *)
Definition settleMatch (now : nat) (matchId : string) (winnerName : option string) : Tx unit :=
  transaction (
    (* 1. Mark match COMPLETED *)
    match_update matchId COMPLETED ;;;
    (* 2. Find all open markets for this match *)
    open_markets <- get (fun db =>
      List.filter (fun im : string * Market =>
                String.eqb (m_matchId (snd im)) matchId
                && match m_status (snd im) with MOPEN | SUSPENDED => true | _ => false end)
             (map_to_list (markets db))) ;;
    forEach open_markets (fun im => settleMarket now winnerName (fst im))).

(** ** Admin controller: [forceCloseMarket] and [updateMarketStatus] *)

(** Body of the trade loop of [forceCloseMarket]. *)
Definition forceCloseTrade (now : nat) (trade : TradeJoined) : Tx unit :=
  let price := t_price (tj_trade trade) in
  let stake := t_stake (tj_trade trade) in
  let backUserId := o_userId (tj_backOrder trade) in
  let layUserId := o_userId (tj_layOrder trade) in
  match r_isWinner (tj_selection trade) with
  | None =>
      (* Refund both sides *)
      let backStake := stake in
      let layLiability := (price - 1) * stake in
      forEach [(backUserId, backStake); (layUserId, layLiability)] (fun ua =>
        wallet <- wallet_update (fst ua) (increment_balance (snd ua)) ;;
        ledger_create (mkLedger (fst ua) (snd ua) ORDER_SETTLE (balance wallet)))
  | Some true =>
      (* BACK wins *)
      let profit := (price - 1) * stake in
      let backPayout := stake + profit in
      backWallet <- wallet_update backUserId (increment_balance backPayout) ;;
      ledger_create (mkLedger backUserId backPayout ORDER_SETTLE (balance backWallet)) ;;;
      (* Release lay liability (already locked) *)
      layWallet <- wallet_update layUserId (decrement_exposure profit) ;;
      ledger_create (mkLedger layUserId (- profit) ORDER_SETTLE (balance layWallet))
  | Some false =>
      (* LAY wins, receives the back stake *)
      layWallet <- wallet_update layUserId (increment_balance stake) ;;
      ledger_create (mkLedger layUserId stake ORDER_SETTLE (balance layWallet)) ;;;
      (* Release back exposure (back stake already locked) *)
      backWallet <- wallet_update backUserId (decrement_exposure stake) ;;
      ledger_create (mkLedger backUserId (- stake) ORDER_SETTLE (balance backWallet))
  end ;;;
  trade_update (t_id (tj_trade trade)) (mark_settled now).

(** Body of the open-order loop of [forceCloseMarket]. *)
Definition forceCloseOrder (marketId : string) (order : Order) : Tx unit :=
  let exposureToRelease := order_exposureToRelease order in
  order_update (o_id order) (set_status CANCELLED) ;;;
  wallet <- wallet_update (o_userId order) (decrement_exposure exposureToRelease) ;;
  marketExposure_updateMany (o_userId order) marketId exposureToRelease ;;;
  ledger_create (mkLedger (o_userId order) exposureToRelease EXPOSURE_RELEASE (balance wallet)).

Definition forceCloseMarketTx (now : nat) (marketId : string)
    (winnerSelectionIds : list string) : Tx (nat * nat) :=
  market <- market_findUnique marketId ;;
  match market with
  | None => throw (ApiError 404 MarketNotFound)
  | Some market =>
  if bool_decide (m_status market = SETTLED)
  then throw (ApiError 400 MarketAlreadySettled)
  else
  market_runners <- runner_findMany (fun r => String.eqb (r_marketId r) marketId) ;;
  (* 1. Mark market CLOSED *)
  market_update marketId (set_market_status CLOSED) ;;;
  (* 2. Mark winning / losing runners *)
  forEach market_runners (fun sel =>
    runner_update (r_id sel)
      (set_isWinner (if Nat.ltb 0 (length winnerSelectionIds)
                     then Some (mem_string (r_id sel) winnerSelectionIds)
                     else None))) ;;;
  (* 3. Cancel all open / partial orders and release their exposure *)
  openOrders <- order_findMany (open_orders_of marketId) ;;
  forEach openOrders (forceCloseOrder marketId) ;;;
  (* 4. Settle all unsettled trades *)
  trades <- trade_findMany_unsettled (map r_id market_runners) ;;
  forEach trades (forceCloseTrade now) ;;;
  (* 5. Mark market SETTLED *)
  market_update marketId (set_market_status SETTLED) ;;;
  ret (length openOrders, length trades)
  end.

(** [forceCloseMarket] for an admin caller; an absent [winnerSelectionIds]
    is the empty list. *)
Definition forceCloseMarket (now : nat) (marketId : string)
    (winnerSelectionIds : list string) : Tx (nat * nat) :=
  transaction (forceCloseMarketTx now marketId winnerSelectionIds).

Definition market_status_of_string (s : string) : option MarketStatus :=
  if String.eqb s "OPEN" then Some MOPEN
  else if String.eqb s "SUSPENDED" then Some SUSPENDED
  else if String.eqb s "CLOSED" then Some CLOSED
  else if String.eqb s "SETTLED" then Some SETTLED
  else None.

(** [updateMarketStatus] for an admin caller; [status] is the text of the
    request body. *)
Definition updateMarketStatus (marketId : string) (status : string) : Tx Market :=
  if negb (mem_string status ["OPEN"; "SUSPENDED"; "CLOSED"])
  then throw (ApiError 400 StatusMustBeOpenSuspendedClosed)
  else
    match market_status_of_string status with
    | Some s => market_update marketId (set_market_status s)
    | None => throw (ApiError 400 StatusMustBeOpenSuspendedClosed)
    end.

(** ** Order book ([getOrderBook] of the sport controller) *)

(** One row of [order.groupBy({ by: ["price"], _sum: { remainingStake },
    _count: { id } })]. *)
Record Level := mkLevel {
  lv_price : Q;
  lv_sumRemainingStake : Q;
  lv_countId : nat
}.

(** [where: { marketId, selectionId, side, status: { in: ["OPEN", "PARTIAL"] } }] *)
Definition book_row (marketId selectionId : string) (side : OrderSide) (o : Order) : bool :=
  String.eqb (o_marketId o) marketId
  && String.eqb (o_selectionId o) selectionId
  && bool_decide (o_side o = side)
  && is_open_or_partial (o_status o).

(** [GROUP BY price]: a row joins the group of its price, or starts one.
    Prices are compared as numbers. *)
Fixpoint add_to_group (o : Order) (groups : list Level) : list Level :=
  match groups with
  | [] => [mkLevel (o_price o) (o_remainingStake o) 1]
  | g :: rest =>
      if Qeq_bool (lv_price g) (o_price o)
      then mkLevel (lv_price g) (lv_sumRemainingStake g + o_remainingStake o)
                   (S (lv_countId g)) :: rest
      else g :: add_to_group o rest
  end.

Definition group_by_price (rows : list Order) : list Level :=
  fold_right add_to_group [] rows.

(** [orderBy: { price: "desc" }] and [orderBy: { price: "asc" }] *)
Definition level_price_desc (a b : Level) : bool := Dec.lte (lv_price b) (lv_price a).
Definition level_price_asc (a b : Level) : bool := Dec.lte (lv_price a) (lv_price b).

Definition order_groupBy_price (where_ : Order -> bool) (orderBy : Level -> Level -> bool)
    : Tx (list Level) :=
  get (fun db => order_by orderBy (group_by_price (List.filter where_ (orders db)))).

Record OrderBook := mkOrderBook { ob_back : list Level; ob_lay : list Level }.

(** [getOrderBook] for a request that names a [selectionId]; the reference
    odds returned with the levels are a lookup in a table of display prices
    and are left out. *)
Definition getOrderBook (marketId selectionId : string) : Tx OrderBook :=
  (* Aggregate available back/lay stake at each price level *)
  backLevels <- order_groupBy_price (book_row marketId selectionId BACK)
                  level_price_desc ;;  (* best back = highest price shown first *)
  layLevels <- order_groupBy_price (book_row marketId selectionId LAY)
                 level_price_asc ;;    (* best lay = lowest price shown first *)
  ret (mkOrderBook backLevels layLevels).

(** ** Wallet controller (controllers/wallet.controller.ts) *)

(** The handlers of the wallet endpoints, as functions from the request and
    the state to the reply and the state.  Each handler checks the request,
    then runs one transaction in which every check comes before the first
    write, so a refusal leaves the state it found.  The [notes] of a ledger
    entry and the socket events sent after the transaction are left out.
    The [User] table is not part of [DB]; [transferCoins] takes it as an
    argument. *)
Module WalletController.

Inductive UserRole := SUPER_ADMIN | ADMIN | AGENT | USER.

(** [req.user], as the authentication middleware leaves it. *)
Record ReqUser := mkReqUser { ru_id : string; ru_role : UserRole }.

(** The [User] table, as far as a transfer reads it. *)
Record User := mkUser { us_parentId : option string }.

(** The [ApiError]s of the controller, with their status codes. *)
Inductive Refusal :=
  | AuthenticationRequired
  | InsufficientPermissions
  | FieldsRequired
  | AmountMustBePositive
  | WalletNotFound
  | InsufficientAvailableBalance (available : Q)
  | SenderNotFound
  | OnlyDirectChildren
  | RecipientNotFound
  | SenderWalletNotFound
  | InsufficientBalance (available : Q)
  | ReceiverWalletNotFound.

Definition statusCode (r : Refusal) : nat :=
  match r with
  | AuthenticationRequired => 401
  | InsufficientPermissions | OnlyDirectChildren => 403
  | FieldsRequired | AmountMustBePositive
  | InsufficientAvailableBalance _ | InsufficientBalance _ => 400
  | WalletNotFound | SenderNotFound | RecipientNotFound
  | SenderWalletNotFound | ReceiverWalletNotFound => 404
  end.

Inductive Reply (A : Type) := Sent (a : A) | Refused (r : Refusal).
Arguments Sent {A} a.
Arguments Refused {A} r.

(** [["SUPER_ADMIN", "ADMIN"].includes(req.user.role)] *)
Definition is_admin (r : UserRole) : bool :=
  match r with SUPER_ADMIN | ADMIN => true | _ => false end.

(** [!field] for a text field of the body (absent or empty) and for the
    amount, taken to be a JSON number (absent or zero). *)
Definition no_text (s : string) : bool := String.eqb s "".
Definition no_amount (a : Q) : bool := Qeq_bool a 0.

Definition increment_exposure (a : Q) (w : Wallet) : Wallet :=
  mkWallet (balance w) (exposure w + a).
Definition set_balance (b : Q) (w : Wallet) : Wallet := mkWallet b (exposure w).

Record ExposureResult := mkExposureResult { newExposure : Q; availableBalance : Q }.

Definition lockExposure (user : option ReqUser) (userId marketId : string) (amount : Q)
    (db : DB) : Reply ExposureResult * DB :=
  match user with
  | None => (Refused AuthenticationRequired, db)
  | Some user =>
  if negb (is_admin (ru_role user)) then (Refused InsufficientPermissions, db)
  else if no_text userId || no_text marketId || no_amount amount
  then (Refused FieldsRequired, db)
  else
  let lockAmount := amount in
  if Dec.lte lockAmount 0 then (Refused AmountMustBePositive, db)
  else
  match wallets db !! userId with
  | None => (Refused WalletNotFound, db)
  | Some wallet =>
  let available := balance wallet - exposure wallet in
  if Dec.lt available lockAmount
  then (Refused (InsufficientAvailableBalance available), db)
  else
  let updatedWallet := increment_exposure lockAmount wallet in
  let db1 := set_wallets (fun ws => <[userId := updatedWallet]> ws) db in
  let db2 := set_marketExposures
               (upsert_exposure userId marketId lockAmount lockAmount) db1 in
  let db3 := set_ledger (fun l =>
               l ++ [mkLedger userId (- lockAmount) EXPOSURE_LOCK (balance updatedWallet)])
               db2 in
  (Sent (mkExposureResult (exposure updatedWallet)
           (balance updatedWallet - exposure updatedWallet)), db3)
  end
  end.

Definition releaseExposure (user : option ReqUser) (userId marketId : string) (amount : Q)
    (db : DB) : Reply ExposureResult * DB :=
  match user with
  | None => (Refused AuthenticationRequired, db)
  | Some user =>
  if negb (is_admin (ru_role user)) then (Refused InsufficientPermissions, db)
  else if no_text userId || no_text marketId || no_amount amount
  then (Refused FieldsRequired, db)
  else
  let releaseAmount := amount in
  if Dec.lte releaseAmount 0 then (Refused AmountMustBePositive, db)
  else
  match wallets db !! userId with
  | None => (Refused WalletNotFound, db)
  | Some wallet =>
  let updatedWallet := decrement_exposure releaseAmount wallet in
  let db1 := set_wallets (fun ws => <[userId := updatedWallet]> ws) db in
  let db2 := set_marketExposures
               (decrement_exposure_row userId marketId releaseAmount) db1 in
  let db3 := set_ledger (fun l =>
               l ++ [mkLedger userId releaseAmount EXPOSURE_RELEASE (balance updatedWallet)])
               db2 in
  (Sent (mkExposureResult (exposure updatedWallet)
           (balance updatedWallet - exposure updatedWallet)), db3)
  end
  end.

Record TransferResult := mkTransferResult { fromBalance : Q; toBalance : Q }.

(** [fromUser.children.some((c) => c.id === toUserId)] *)
Definition is_child_of (users : gmap string User) (parent child : string) : bool :=
  match users !! child with
  | Some c => bool_decide (us_parentId c = Some parent)
  | None => false
  end.

Definition transferCoins (users : gmap string User) (user : option ReqUser)
    (toUserId : string) (amount : Q) (db : DB) : Reply TransferResult * DB :=
  match user with
  | None => (Refused AuthenticationRequired, db)
  | Some user =>
  let fromUserId := ru_id user in
  if no_text toUserId || no_amount amount then (Refused FieldsRequired, db)
  else
  let transferAmount := amount in
  if Dec.lte transferAmount 0 then (Refused AmountMustBePositive, db)
  else
  match users !! fromUserId with
  | None => (Refused SenderNotFound, db)
  | Some _ =>
  if negb (is_child_of users fromUserId toUserId) then (Refused OnlyDirectChildren, db)
  else
  match users !! toUserId with
  | None => (Refused RecipientNotFound, db)
  | Some _ =>
  match wallets db !! fromUserId with
  | None => (Refused SenderWalletNotFound, db)
  | Some senderWallet =>
  let available := balance senderWallet - exposure senderWallet in
  if Dec.lt available transferAmount then (Refused (InsufficientBalance available), db)
  else
  match wallets db !! toUserId with
  | None => (Refused ReceiverWalletNotFound, db)
  | Some receiverWallet =>
  let newSenderBalance := balance senderWallet - transferAmount in
  let newReceiverBalance := balance receiverWallet + transferAmount in
  let db1 := set_wallets (fun ws =>
               match ws !! fromUserId with
               | Some w => <[fromUserId := set_balance newSenderBalance w]> ws
               | None => ws
               end) db in
  let db2 := set_wallets (fun ws =>
               match ws !! toUserId with
               | Some w => <[toUserId := set_balance newReceiverBalance w]> ws
               | None => ws
               end) db1 in
  let db3 := set_ledger (fun l =>
               l ++ [mkLedger fromUserId (- transferAmount) TRANSFER_OUT newSenderBalance])
               db2 in
  let db4 := set_ledger (fun l =>
               l ++ [mkLedger toUserId transferAmount TRANSFER_IN newReceiverBalance])
               db3 in
  (Sent (mkTransferResult newSenderBalance newReceiverBalance), db4)
  end
  end
  end
  end
  end.

Record BalanceResult := mkBalanceResult {
  br_newBalance : Q; br_exposure : Q; br_availableBalance : Q; br_amount : Q
}.

Definition addBalance (user : option ReqUser) (userId : string) (amount : Q)
    (db : DB) : Reply BalanceResult * DB :=
  match user with
  | None => (Refused AuthenticationRequired, db)
  | Some user =>
  if negb (is_admin (ru_role user)) then (Refused InsufficientPermissions, db)
  else if no_text userId || no_amount amount then (Refused FieldsRequired, db)
  else
  let addAmount := amount in
  if Dec.lte addAmount 0 then (Refused AmountMustBePositive, db)
  else
  match wallets db !! userId with
  | None => (Refused WalletNotFound, db)
  | Some wallet =>
  let newBalance := balance wallet + addAmount in
  let updatedWallet := set_balance newBalance wallet in
  let db1 := set_wallets (fun ws => <[userId := updatedWallet]> ws) db in
  let db2 := set_ledger (fun l => l ++ [mkLedger userId addAmount CREDIT newBalance]) db1 in
  (Sent (mkBalanceResult newBalance (exposure updatedWallet)
           (newBalance - exposure updatedWallet) addAmount), db2)
  end
  end.

End WalletController.

(** * Properties *)

(** ** Sorting by a total preorder *)

Section OrderBy.
Context {A : Type} (leb : A -> A -> bool).
Hypothesis leb_total : forall a b, leb a b = false -> leb b a = true.
Hypothesis leb_trans : forall a b c, leb a b = true -> leb b c = true -> leb a c = true.

Lemma insert_by_perm x l : Permutation (insert_by leb x l) (x :: l).
Proof.
  induction l as [|y l IH]; simpl; [reflexivity|].
  destruct (leb x y); [reflexivity|].
  rewrite IH. apply perm_swap.
Qed.

Lemma order_by_perm l : Permutation (order_by leb l) l.
Proof.
  induction l as [|x l IH]; simpl; [constructor|].
  rewrite insert_by_perm. now constructor.
Qed.

Lemma order_by_In x l : In x (order_by leb l) <-> In x l.
Proof.
  split; apply Permutation_in; [|symmetry]; apply order_by_perm.
Qed.

Lemma insert_by_sorted x l :
  StronglySorted (fun a b => leb a b = true) l ->
  StronglySorted (fun a b => leb a b = true) (insert_by leb x l).
Proof.
  induction 1 as [|y l Hs IH Hall]; simpl.
  - repeat constructor.
  - destruct (leb x y) eqn:E.
    + constructor; [now constructor|].
      constructor; [exact E|].
      eapply List.Forall_impl; [|exact Hall]. intros z Hz. now apply leb_trans with y.
    + constructor; [exact IH|].
      apply List.Forall_forall. intros z Hz.
      apply (Permutation_in _ (insert_by_perm x l)) in Hz.
      destruct Hz as [<-|Hz]; [now apply leb_total|].
      rewrite List.Forall_forall in Hall. now apply Hall.
Qed.

Lemma order_by_sorted l : StronglySorted (fun a b => leb a b = true) (order_by leb l).
Proof.
  induction l as [|x l IH]; simpl; [constructor|]. now apply insert_by_sorted.
Qed.
End OrderBy.

(** Price-time orders, as propositions. *)
Definition lowest_price_then_oldest (a b : Order) : Prop :=
  o_price a < o_price b \/ (o_price a == o_price b /\ (o_createdAt a <= o_createdAt b)%nat).

Definition highest_price_then_oldest (a b : Order) : Prop :=
  o_price b < o_price a \/ (o_price a == o_price b /\ (o_createdAt a <= o_createdAt b)%nat).

Lemma price_asc_oldest_spec a b :
  price_asc_oldest a b = true <-> lowest_price_then_oldest a b.
Proof.
  unfold price_asc_oldest, lowest_price_then_oldest.
  rewrite orb_true_iff, andb_true_iff, Dec.lt_true, Qeq_bool_iff, Nat.leb_le.
  reflexivity.
Qed.

Lemma price_desc_oldest_spec a b :
  price_desc_oldest a b = true <-> highest_price_then_oldest a b.
Proof.
  unfold price_desc_oldest, highest_price_then_oldest.
  rewrite orb_true_iff, andb_true_iff, Dec.lt_true, Qeq_bool_iff, Nat.leb_le.
  reflexivity.
Qed.

Lemma price_asc_oldest_total a b :
  price_asc_oldest a b = false -> price_asc_oldest b a = true.
Proof.
  intros H. apply price_asc_oldest_spec.
  assert (Hn : ~ lowest_price_then_oldest a b).
  { intros Hc. apply price_asc_oldest_spec in Hc. congruence. }
  unfold lowest_price_then_oldest in *.
  destruct (Qlt_le_dec (o_price b) (o_price a)) as [Hlt|Hle]; [now left|].
  right. split.
  - apply Qle_antisym; [|exact Hle]. apply Qnot_lt_le. intros Hlt. apply Hn. now left.
  - destruct (Nat.le_gt_cases (o_createdAt b) (o_createdAt a)) as [Hc|Hc]; [exact Hc|].
    exfalso. apply Hn.
    destruct (Qlt_le_dec (o_price a) (o_price b)) as [Hlt|Hle']; [now left|].
    right. split; [now apply Qle_antisym|lia].
Qed.

Lemma price_asc_oldest_trans a b c :
  price_asc_oldest a b = true -> price_asc_oldest b c = true -> price_asc_oldest a c = true.
Proof.
  rewrite !price_asc_oldest_spec. unfold lowest_price_then_oldest.
  intros [H1|[H1 T1]] [H2|[H2 T2]].
  - left. lra.
  - left. lra.
  - left. lra.
  - right. split; [lra|lia].
Qed.

Lemma price_desc_oldest_total a b :
  price_desc_oldest a b = false -> price_desc_oldest b a = true.
Proof.
  intros H. apply price_desc_oldest_spec.
  assert (Hn : ~ highest_price_then_oldest a b).
  { intros Hc. apply price_desc_oldest_spec in Hc. congruence. }
  unfold highest_price_then_oldest in *.
  destruct (Qlt_le_dec (o_price a) (o_price b)) as [Hlt|Hle]; [now left|].
  right. split.
  - apply Qle_antisym; [exact Hle|]. apply Qnot_lt_le. intros Hlt. apply Hn. now left.
  - destruct (Nat.le_gt_cases (o_createdAt b) (o_createdAt a)) as [Hc|Hc]; [exact Hc|].
    exfalso. apply Hn.
    destruct (Qlt_le_dec (o_price b) (o_price a)) as [Hlt|Hle']; [now left|].
    right. split; [now apply Qle_antisym|lia].
Qed.

Lemma price_desc_oldest_trans a b c :
  price_desc_oldest a b = true -> price_desc_oldest b c = true -> price_desc_oldest a c = true.
Proof.
  rewrite !price_desc_oldest_spec. unfold highest_price_then_oldest.
  intros [H1|[H1 T1]] [H2|[H2 T2]].
  - left. lra.
  - left. lra.
  - left. lra.
  - right. split; [lra|lia].
Qed.

Lemma is_open_or_partial_spec s :
  is_open_or_partial s = true <-> s = OPEN \/ s = PARTIAL.
Proof. destruct s; simpl; intuition congruence. Qed.

Lemma lay_candidate_spec sel p o :
  lay_candidate sel p o = true <->
  o_selectionId o = sel /\ o_side o = LAY
  /\ (o_status o = OPEN \/ o_status o = PARTIAL) /\ o_price o <= p.
Proof.
  unfold lay_candidate.
  rewrite !andb_true_iff, String.eqb_eq, bool_decide_eq_true,
    is_open_or_partial_spec, Dec.lte_true.
  tauto.
Qed.

Lemma back_candidate_spec sel p o :
  back_candidate sel p o = true <->
  o_selectionId o = sel /\ o_side o = BACK
  /\ (o_status o = OPEN \/ o_status o = PARTIAL) /\ p <= o_price o.
Proof.
  unfold back_candidate.
  rewrite !andb_true_iff, String.eqb_eq, bool_decide_eq_true,
    is_open_or_partial_spec, Dec.lte_true.
  tauto.
Qed.

Lemma lay_rows_In sel p os o :
  In o (lay_rows sel p os) <-> In o os /\ lay_candidate sel p o = true.
Proof. unfold lay_rows. rewrite order_by_In. apply filter_In. Qed.

Lemma back_rows_In sel p os o :
  In o (back_rows sel p os) <-> In o os /\ back_candidate sel p o = true.
Proof. unfold back_rows. rewrite order_by_In. apply filter_In. Qed.

Lemma lay_rows_sorted sel p os :
  StronglySorted lowest_price_then_oldest (lay_rows sel p os).
Proof.
  unfold lay_rows.
  eapply StronglySorted_ind with
    (P := fun l => StronglySorted lowest_price_then_oldest l);
    [constructor| |apply (order_by_sorted price_asc_oldest price_asc_oldest_total
                             price_asc_oldest_trans)].
  intros a l _ IH Hall. constructor; [exact IH|].
  eapply List.Forall_impl; [|exact Hall]. intros b. apply price_asc_oldest_spec.
Qed.

Lemma back_rows_sorted sel p os :
  StronglySorted highest_price_then_oldest (back_rows sel p os).
Proof.
  unfold back_rows.
  eapply StronglySorted_ind with
    (P := fun l => StronglySorted highest_price_then_oldest l);
    [constructor| |apply (order_by_sorted price_desc_oldest price_desc_oldest_total
                             price_desc_oldest_trans)].
  intros a l _ IH Hall. constructor; [exact IH|].
  eapply List.Forall_impl; [|exact Hall]. intros b. apply price_desc_oldest_spec.
Qed.

(** ** Running a transaction body step by step *)

Lemma bind_ok {A B} (m : Tx A) (k : A -> Tx B) db a db' :
  m db = (Ok a, db') -> bind m k db = k a db'.
Proof. intros H. unfold bind. now rewrite H. Qed.

Lemma bind_throw {A B} (m : Tx A) (k : A -> Tx B) db e db' :
  m db = (Throw e, db') -> bind m k db = (Throw e, db').
Proof. intros H. unfold bind. now rewrite H. Qed.

Lemma bind_inv {A B} (m : Tx A) (k : A -> Tx B) db b db'' :
  bind m k db = (Ok b, db'') ->
  exists a db', m db = (Ok a, db') /\ k a db' = (Ok b, db'').
Proof.
  unfold bind. destruct (m db) as [[a|e] db'] eqn:E; intros H.
  - eauto.
  - discriminate.
Qed.

Lemma get_eq {A} (f : DB -> A) db : get f db = (Ok (f db), db).
Proof. reflexivity. Qed.

Lemma modify_eq f db : modify f db = (Ok tt, f db).
Proof. reflexivity. Qed.

Lemma ret_eq {A} (a : A) db : ret a db = (Ok a, db).
Proof. reflexivity. Qed.

(** Run the first action of a sequence with its equation [H]. *)
Ltac tx_step L H := erewrite bind_ok; [|eapply L; exact H].

(** ** Rows addressed by key *)

Lemma find_update_id (f : Order -> Order) id id' os :
  (forall o, o_id (f o) = o_id o) ->
  find (fun o => Nat.eqb (o_id o) id') (update_order id f os)
  = option_map (fun o' => if Nat.eqb (o_id o') id then f o' else o')
      (find (fun o => Nat.eqb (o_id o) id') os).
Proof.
  intros Hf. unfold update_order. induction os as [|o os IH]; simpl; [reflexivity|].
  destruct (Nat.eqb (o_id o) id) eqn:E1.
  - rewrite Hf. destruct (Nat.eqb (o_id o) id'); [simpl; now rewrite E1|exact IH].
  - destruct (Nat.eqb (o_id o) id'); [simpl; now rewrite E1|exact IH].
Qed.

Lemma find_id_In id os o :
  find (fun o => Nat.eqb (o_id o) id) os = Some o -> In o os /\ o_id o = id.
Proof.
  intros H. apply find_some in H. destruct H as [H1 H2].
  apply Nat.eqb_eq in H2. now split.
Qed.

Lemma In_find_id o os :
  In o os -> exists o', find (fun x => Nat.eqb (o_id x) (o_id o)) os = Some o'.
Proof.
  intros H.
  destruct (find (fun x => Nat.eqb (o_id x) (o_id o)) os) eqn:E; [eauto|].
  exfalso. apply (find_none _ _ E) in H. rewrite Nat.eqb_refl in H. discriminate.
Qed.

Lemma fresh_id_gt ids x : In x ids -> (x < fresh_id ids)%nat.
Proof.
  intros H. unfold fresh_id.
  pose proof (proj1 (list_max_le ids (list_max ids)) (Nat.le_refl _)) as Hall.
  rewrite List.Forall_forall in Hall. specialize (Hall x H). lia.
Qed.

Lemma order_findUniqueOrThrow_eq id db o :
  find (fun o => Nat.eqb (o_id o) id) (orders db) = Some o ->
  order_findUniqueOrThrow id db = (Ok o, db).
Proof.
  intros H. unfold order_findUniqueOrThrow, order_findFirst, bind, get. now rewrite H.
Qed.

Lemma order_update_eq id f db o :
  find (fun o => Nat.eqb (o_id o) id) (orders db) = Some o ->
  order_update id f db = (Ok (f o), set_orders (update_order id f) db).
Proof.
  intros H. unfold order_update.
  rewrite (bind_ok _ _ _ _ _ (order_findUniqueOrThrow_eq _ _ _ H)).
  reflexivity.
Qed.

Lemma wallet_update_eq u f db w :
  wallets db !! u = Some w ->
  wallet_update u f db = (Ok (f w), set_wallets (fun ws => <[u := f w]> ws) db).
Proof.
  intros H. unfold wallet_update, wallet_findUnique, bind, get. now rewrite H.
Qed.

Lemma wallet_update_none u f db :
  wallets db !! u = None -> wallet_update u f db = (Throw RecordNotFound, db).
Proof.
  intros H. unfold wallet_update, wallet_findUnique, bind, get. now rewrite H.
Qed.

Lemma wallet_update_inv u f db w' db' :
  wallet_update u f db = (Ok w', db') ->
  exists w, wallets db !! u = Some w /\ w' = f w
            /\ db' = set_wallets (fun ws => <[u := f w]> ws) db.
Proof.
  unfold wallet_update, wallet_findUnique, bind, get, throw.
  destruct (wallets db !! u) as [w|] eqn:E; [|discriminate].
  cbn. intros H. inversion H; subst. eauto.
Qed.

(** ** One step of the candidate loops *)

Definition tradeStake_of (remaining candidateRemaining : Q) : Q :=
  if Dec.lt remaining candidateRemaining then remaining else candidateRemaining.

Lemma tradeStake_of_min r cr : tradeStake_of r cr == Qmin r cr.
Proof.
  unfold tradeStake_of. destruct (Dec.lt r cr) eqn:E.
  - apply Dec.lt_true in E. symmetry. apply Q.min_l. lra.
  - apply Dec.lt_false in E. symmetry. now apply Q.min_r.
Qed.

(** The update of a candidate's row for a fill of [ts], [o] being the row
    as read before the update. *)
Definition filled (c : Candidate) (ts : Q) (o : Order) : Order -> Order :=
  fill_candidate ts (o_matchedStake o + ts) (c_remainingStake c - ts)
    (if Dec.lte (c_remainingStake c - ts) 0 then MATCHED else PARTIAL).

Definition new_trade (db : DB) (backOrderId layOrderId : nat) (selectionId : string)
    (price stake : Q) : Trade :=
  mkTrade (fresh_id (map t_id (trades db))) backOrderId layOrderId selectionId
          price stake false None.

(** The state after one step: one trade appended, the candidate's row
    filled, the exposure record of its user and market adjusted. *)
Definition after_step (backOrderId layOrderId : nat) (selectionId : string)
    (c : Candidate) (ts released : Q) (o : Order) (db : DB) : DB :=
  set_marketExposures
    (upsert_exposure (c_userId c) (o_marketId o)
       (if Dec.lt (- released) 0 then 0 else - released) (- released))
    (set_orders (update_order (c_id c) (filled c ts o))
       (set_trades (fun l => l ++ [new_trade db backOrderId layOrderId selectionId
                                     (c_price c) ts]) db)).

Lemma trade_create_eq b l sel p st db :
  trade_create b l sel p st db
  = (Ok (new_trade db b l sel p st),
     set_trades (fun ts => ts ++ [new_trade db b l sel p st]) db).
Proof. reflexivity. Qed.

Lemma matchBackStep_eq inc sel c r db o :
  find (fun o => Nat.eqb (o_id o) (c_id c)) (orders db) = Some o ->
  let ts := tradeStake_of r (c_remainingStake c) in
  matchBackStep inc sel c r db =
    (Ok (mkTradeInfo (fresh_id (map t_id (trades db))) (c_price c) ts, ts),
     after_step inc (c_id c) sel c ts ((c_price c - 1) * ts) o db).
Proof.
  intros Hfind ts.
  unfold matchBackStep.
  rewrite (bind_ok _ _ _ _ _ (trade_create_eq _ _ _ _ _ _)).
  cbn [t_id new_trade].
  tx_step order_findUniqueOrThrow_eq Hfind.
  tx_step order_update_eq Hfind.
  erewrite bind_ok; cycle 1.
  { apply order_findUniqueOrThrow_eq. cbn [orders set_orders].
    rewrite find_update_id by reflexivity.
    cbn [orders set_trades]. rewrite Hfind. cbn [option_map].
    apply find_id_In in Hfind. destruct Hfind as [_ ->]. rewrite Nat.eqb_refl.
    reflexivity. }
  reflexivity.
Qed.

Lemma matchLayStep_eq inc sel c r db o :
  find (fun o => Nat.eqb (o_id o) (c_id c)) (orders db) = Some o ->
  let ts := tradeStake_of r (c_remainingStake c) in
  matchLayStep inc sel c r db =
    (Ok (mkTradeInfo (fresh_id (map t_id (trades db))) (c_price c) ts, ts),
     after_step (c_id c) inc sel c ts ts o db).
Proof.
  intros Hfind ts.
  unfold matchLayStep.
  rewrite (bind_ok _ _ _ _ _ (trade_create_eq _ _ _ _ _ _)).
  cbn [t_id new_trade].
  tx_step order_findUniqueOrThrow_eq Hfind.
  tx_step order_update_eq Hfind.
  erewrite bind_ok; cycle 1.
  { apply order_findUniqueOrThrow_eq. cbn [orders set_orders].
    rewrite find_update_id by reflexivity.
    cbn [orders set_trades]. rewrite Hfind. cbn [option_map].
    apply find_id_In in Hfind. destruct Hfind as [_ ->]. rewrite Nat.eqb_refl.
    reflexivity. }
  reflexivity.
Qed.

(** ** The candidate loops *)

Definition info_of (t : Trade) : TradeInfo :=
  mkTradeInfo (t_id t) (t_price t) (t_stake t).

(** [fills side incoming sel r rows ts r']: walking the resting [rows] in
    order with [r] of the incoming stake left creates the trades [ts] and
    leaves [r'].  A walk stops only when no row is left or when nothing of
    the incoming stake is left; every trade takes the smaller of what is
    left on the two orders, at the resting row's price. *)
Inductive fills (side : OrderSide) (incoming : nat) (sel : string)
    : Q -> list Order -> list Trade -> Q -> Prop :=
  | fills_no_candidate r : fills side incoming sel r [] [] r
  | fills_exhausted r row rows : r <= 0 -> fills side incoming sel r (row :: rows) [] r
  | fills_trade r row rows t ts r' :
      0 < r ->
      t_backOrderId t = match side with BACK => incoming | LAY => o_id row end ->
      t_layOrderId t = match side with BACK => o_id row | LAY => incoming end ->
      t_selectionId t = sel ->
      t_price t = o_price row ->
      t_stake t == Qmin r (o_remainingStake row) ->
      t_settled t = false ->
      fills side incoming sel (r - t_stake t) rows ts r' ->
      fills side incoming sel r (row :: rows) (t :: ts) r'.

(** What the engine leaves alone. *)
Definition engine_frame (db db' : DB) : Prop :=
  wallets db' = wallets db /\ ledger db' = ledger db /\ matches db' = matches db
  /\ markets db' = markets db /\ runners db' = runners db.

(** The columns of an order row that are never updated. *)
Definition same_order (o o' : Order) : Prop :=
  o_id o' = o_id o /\ o_userId o' = o_userId o /\ o_marketId o' = o_marketId o
  /\ o_selectionId o' = o_selectionId o /\ o_side o' = o_side o
  /\ o_price o' = o_price o /\ o_stake o' = o_stake o.

Definition orders_kept (db db' : DB) : Prop :=
  forall id o, find (fun o => Nat.eqb (o_id o) id) (orders db) = Some o ->
    exists o', find (fun o => Nat.eqb (o_id o) id) (orders db') = Some o'
               /\ same_order o o'.

Lemma same_order_refl o : same_order o o.
Proof. now repeat split. Qed.

Lemma same_order_trans o1 o2 o3 : same_order o1 o2 -> same_order o2 o3 -> same_order o1 o3.
Proof. unfold same_order. intuition congruence. Qed.

Lemma orders_kept_refl db : orders_kept db db.
Proof. intros id o H. exists o. split; [exact H|apply same_order_refl]. Qed.

Lemma orders_kept_trans db1 db2 db3 :
  orders_kept db1 db2 -> orders_kept db2 db3 -> orders_kept db1 db3.
Proof.
  intros H1 H2 id o Ho. destruct (H1 id o Ho) as (o2 & Ho2 & Hs2).
  destruct (H2 id o2 Ho2) as (o3 & Ho3 & Hs3).
  exists o3. split; [exact Ho3|]. now apply same_order_trans with o2.
Qed.

Lemma update_order_kept id f db :
  (forall o, same_order o (f o)) ->
  orders_kept db (set_orders (update_order id f) db).
Proof.
  intros Hf id' o Ho. cbn [orders set_orders].
  rewrite find_update_id by (intros x; apply (Hf x)).
  rewrite Ho. cbn [option_map].
  destruct (Nat.eqb (o_id o) id); eexists; (split; [reflexivity|]);
    [apply Hf|apply same_order_refl].
Qed.

Lemma engine_frame_refl db : engine_frame db db.
Proof. repeat split. Qed.

Lemma engine_frame_trans db1 db2 db3 :
  engine_frame db1 db2 -> engine_frame db2 db3 -> engine_frame db1 db3.
Proof. unfold engine_frame. intuition congruence. Qed.

Lemma after_step_frame b l sel c ts rel o db :
  engine_frame db (after_step b l sel c ts rel o db).
Proof. repeat split. Qed.

Lemma after_step_orders_kept b l sel c ts rel o db :
  orders_kept db (after_step b l sel c ts rel o db).
Proof.
  intros id o' Ho'.
  apply (update_order_kept (c_id c) (filled c ts o) db); [|exact Ho'].
  intros x. now repeat split.
Qed.

Lemma after_step_trades b l sel c ts rel o db :
  trades (after_step b l sel c ts rel o db)
  = trades db ++ [new_trade db b l sel (c_price c) ts].
Proof. reflexivity. Qed.

Definition rows_present (rows : list Order) (db : DB) : Prop :=
  Forall (fun row => is_Some (find (fun o => Nat.eqb (o_id o) (o_id row)) (orders db))) rows.

Lemma rows_present_kept rows db db' :
  orders_kept db db' -> rows_present rows db -> rows_present rows db'.
Proof.
  intros Hk H. unfold rows_present in *.
  eapply List.Forall_impl; [|exact H]. intros row [o Ho].
  destruct (Hk _ _ Ho) as (o' & Ho' & _). eauto.
Qed.

Lemma rows_present_sub rows db :
  (forall o, In o rows -> In o (orders db)) -> rows_present rows db.
Proof.
  intros H. apply List.Forall_forall. intros row Hin.
  destruct (In_find_id row (orders db) (H _ Hin)) as [o' Ho']. eauto.
Qed.

Lemma matchBackLoop_fills inc sel rows :
  forall db r acc,
    rows_present rows db ->
    exists r' ts db',
      matchBackLoop inc sel (map candidate_of rows) r acc db
        = (Ok (r', acc ++ map info_of ts), db')
      /\ trades db' = trades db ++ ts
      /\ fills BACK inc sel r rows ts r'
      /\ engine_frame db db' /\ orders_kept db db'.
Proof.
  induction rows as [|row rows IH]; intros db r acc Hp.
  - exists r, [], db. cbn. rewrite !app_nil_r.
    repeat split; [constructor|apply orders_kept_refl].
  - cbn [map matchBackLoop].
    destruct (Dec.lte r 0) eqn:Er.
    + exists r, [], db. cbn. rewrite !app_nil_r.
      repeat split; [constructor; now apply Dec.lte_true|apply orders_kept_refl].
    + apply Dec.lte_false in Er.
      inversion Hp as [|? ? [o Ho] Hp']; subst.
      pose proof (matchBackStep_eq inc sel (candidate_of row) r db o Ho) as Hstep.
      cbv zeta in Hstep.
      set (ts := tradeStake_of r (c_remainingStake (candidate_of row))) in *.
      set (db1 := after_step inc (c_id (candidate_of row)) sel (candidate_of row) ts
                    ((c_price (candidate_of row) - 1) * ts) o db) in *.
      rewrite (bind_ok _ _ _ _ _ Hstep). cbn [fst snd].
      destruct (IH db1 (r - ts) (acc ++ [mkTradeInfo (fresh_id (map t_id (trades db)))
                                           (c_price (candidate_of row)) ts]))
        as (r' & tl & db' & Hrun & Htr & Hf & Hfr & Hk).
      { eapply rows_present_kept; [apply after_step_orders_kept|exact Hp']. }
      exists r', (new_trade db inc (o_id row) sel (o_price row) ts :: tl), db'.
      split; [|split; [|split; [|split]]].
      * rewrite Hrun. cbn [map]. rewrite <- app_assoc. reflexivity.
      * rewrite Htr. unfold db1. rewrite after_step_trades.
        rewrite <- app_assoc. reflexivity.
      * apply fills_trade; try reflexivity; [exact Er| |exact Hf].
        apply tradeStake_of_min.
      * eapply engine_frame_trans; [apply after_step_frame|exact Hfr].
      * eapply orders_kept_trans; [apply after_step_orders_kept|exact Hk].
Qed.

Lemma matchLayLoop_fills inc sel rows :
  forall db r acc,
    rows_present rows db ->
    exists r' ts db',
      matchLayLoop inc sel (map candidate_of rows) r acc db
        = (Ok (r', acc ++ map info_of ts), db')
      /\ trades db' = trades db ++ ts
      /\ fills LAY inc sel r rows ts r'
      /\ engine_frame db db' /\ orders_kept db db'.
Proof.
  induction rows as [|row rows IH]; intros db r acc Hp.
  - exists r, [], db. cbn. rewrite !app_nil_r.
    repeat split; [constructor|apply orders_kept_refl].
  - cbn [map matchLayLoop].
    destruct (Dec.lte r 0) eqn:Er.
    + exists r, [], db. cbn. rewrite !app_nil_r.
      repeat split; [constructor; now apply Dec.lte_true|apply orders_kept_refl].
    + apply Dec.lte_false in Er.
      inversion Hp as [|? ? [o Ho] Hp']; subst.
      pose proof (matchLayStep_eq inc sel (candidate_of row) r db o Ho) as Hstep.
      cbv zeta in Hstep.
      set (ts := tradeStake_of r (c_remainingStake (candidate_of row))) in *.
      set (db1 := after_step (c_id (candidate_of row)) inc sel (candidate_of row) ts
                    ts o db) in *.
      rewrite (bind_ok _ _ _ _ _ Hstep). cbn [fst snd].
      destruct (IH db1 (r - ts) (acc ++ [mkTradeInfo (fresh_id (map t_id (trades db)))
                                           (c_price (candidate_of row)) ts]))
        as (r' & tl & db' & Hrun & Htr & Hf & Hfr & Hk).
      { eapply rows_present_kept; [apply after_step_orders_kept|exact Hp']. }
      exists r', (new_trade db (o_id row) inc sel (o_price row) ts :: tl), db'.
      split; [|split; [|split; [|split]]].
      * rewrite Hrun. cbn [map]. rewrite <- app_assoc. reflexivity.
      * rewrite Htr. unfold db1. rewrite after_step_trades.
        rewrite <- app_assoc. reflexivity.
      * apply fills_trade; try reflexivity; [exact Er| |exact Hf].
        apply tradeStake_of_min.
      * eapply engine_frame_trans; [apply after_step_frame|exact Hfr].
      * eapply orders_kept_trans; [apply after_step_orders_kept|exact Hk].
Qed.

Lemma fills_stop side inc sel r rows ts r' :
  fills side inc sel r rows ts r' -> r' <= 0 \/ length ts = length rows.
Proof.
  induction 1 as [r|r row rows Hr|r row rows t ts r' Hr Hb Hl Hs Hp Hst Hset Hf IH].
  - now right.
  - now left.
  - destruct IH as [IH|IH]; [now left|right]. cbn. now rewrite IH.
Qed.

Lemma matchBackOrder_run inc sel price stake db :
  exists res ts db',
    matchBackOrder inc sel price stake db = (Ok res, db')
    /\ trades db' = trades db ++ ts
    /\ mr_trades res = map info_of ts
    /\ fills BACK inc sel stake (lay_rows sel price (orders db)) ts (mr_remainingStake res)
    /\ mr_matchedStake res = stake - mr_remainingStake res
    /\ engine_frame db db' /\ orders_kept db db'.
Proof.
  destruct (matchBackLoop_fills inc sel (lay_rows sel price (orders db)) db stake [])
    as (r' & ts & db' & Hrun & Htr & Hf & Hfr & Hk).
  { apply rows_present_sub. intros o Ho. now apply lay_rows_In in Ho. }
  exists (mkMatchResult (stake - r') r' (map info_of ts)), ts, db'.
  split; [|repeat (split; [first [assumption|reflexivity]|]); assumption].
  unfold matchBackOrder, query_lay_candidates.
  rewrite (bind_ok _ _ _ _ _ (get_eq _ _)).
  rewrite (bind_ok _ _ _ _ _ Hrun). reflexivity.
Qed.

Lemma matchLayOrder_run inc sel price stake db :
  exists res ts db',
    matchLayOrder inc sel price stake db = (Ok res, db')
    /\ trades db' = trades db ++ ts
    /\ mr_trades res = map info_of ts
    /\ fills LAY inc sel stake (back_rows sel price (orders db)) ts (mr_remainingStake res)
    /\ mr_matchedStake res = stake - mr_remainingStake res
    /\ engine_frame db db' /\ orders_kept db db'.
Proof.
  destruct (matchLayLoop_fills inc sel (back_rows sel price (orders db)) db stake [])
    as (r' & ts & db' & Hrun & Htr & Hf & Hfr & Hk).
  { apply rows_present_sub. intros o Ho. now apply back_rows_In in Ho. }
  exists (mkMatchResult (stake - r') r' (map info_of ts)), ts, db'.
  split; [|repeat (split; [first [assumption|reflexivity]|]); assumption].
  unfold matchLayOrder, query_back_candidates.
  rewrite (bind_ok _ _ _ _ _ (get_eq _ _)).
  rewrite (bind_ok _ _ _ _ _ Hrun). reflexivity.
Qed.

(** C3.  For an incoming order the engine's candidates are exactly the
    opposite-side OPEN/PARTIAL orders on the same selection at a compatible
    price (lay price at most the back price, resp. back price at least the
    lay price); they are walked best price first (lowest lay price, resp.
    highest back price), equal prices oldest first; every trade takes the
    smaller of the incoming remaining stake and the resting remaining stake
    at the resting order's price; and the walk stops only when the incoming
    stake is used up or no candidate is left. *)
Theorem matching_price_time_priority
    (db : DB) (incomingOrderId : nat) (selectionId : string) (price stakeToMatch : Q) :
  (let rows := lay_rows selectionId price (orders db) in
   (forall o, In o rows <->
              In o (orders db) /\ o_selectionId o = selectionId /\ o_side o = LAY
              /\ (o_status o = OPEN \/ o_status o = PARTIAL) /\ o_price o <= price)
   /\ StronglySorted lowest_price_then_oldest rows
   /\ exists res ts db',
        matchBackOrder incomingOrderId selectionId price stakeToMatch db = (Ok res, db')
        /\ trades db' = trades db ++ ts
        /\ mr_trades res = map info_of ts
        /\ fills BACK incomingOrderId selectionId stakeToMatch rows ts (mr_remainingStake res)
        /\ mr_matchedStake res = stakeToMatch - mr_remainingStake res
        /\ (mr_remainingStake res <= 0 \/ length ts = length rows))
  /\
  (let rows := back_rows selectionId price (orders db) in
   (forall o, In o rows <->
              In o (orders db) /\ o_selectionId o = selectionId /\ o_side o = BACK
              /\ (o_status o = OPEN \/ o_status o = PARTIAL) /\ price <= o_price o)
   /\ StronglySorted highest_price_then_oldest rows
   /\ exists res ts db',
        matchLayOrder incomingOrderId selectionId price stakeToMatch db = (Ok res, db')
        /\ trades db' = trades db ++ ts
        /\ mr_trades res = map info_of ts
        /\ fills LAY incomingOrderId selectionId stakeToMatch rows ts (mr_remainingStake res)
        /\ mr_matchedStake res = stakeToMatch - mr_remainingStake res
        /\ (mr_remainingStake res <= 0 \/ length ts = length rows)).
Proof.
  split; cbv zeta.
  - split; [|split].
    + intros o. rewrite lay_rows_In, lay_candidate_spec. reflexivity.
    + apply lay_rows_sorted.
    + destruct (matchBackOrder_run incomingOrderId selectionId price stakeToMatch db)
        as (res & ts & db' & Hrun & Htr & Hinfo & Hf & Hm & _).
      exists res, ts, db'. repeat (split; [assumption|]).
      eapply fills_stop, Hf.
  - split; [|split].
    + intros o. rewrite back_rows_In, back_candidate_spec. reflexivity.
    + apply back_rows_sorted.
    + destruct (matchLayOrder_run incomingOrderId selectionId price stakeToMatch db)
        as (res & ts & db' & Hrun & Htr & Hinfo & Hf & Hm & _).
      exists res, ts, db'. repeat (split; [assumption|]).
      eapply fills_stop, Hf.
Qed.

(** ** Placement *)

Definition liability_of (side : OrderSide) (price stake : Q) : Q :=
  match side with
  | BACK => stake
  | LAY => (price - 1) * stake
  end.

Definition run_engine (side : OrderSide) (incoming : nat) (sel : string)
    (price stake : Q) : Tx MatchResult :=
  match side with
  | BACK => matchBackOrder incoming sel price stake
  | LAY => matchLayOrder incoming sel price stake
  end.

Definition opposite (side : OrderSide) : OrderSide :=
  match side with BACK => LAY | LAY => BACK end.

(** The resting rows an incoming order of [side] is matched against. *)
Definition resting_rows (side : OrderSide) (sel : string) (price : Q) (os : list Order)
    : list Order :=
  match side with
  | BACK => lay_rows sel price os
  | LAY => back_rows sel price os
  end.

Definition final_status (mres : MatchResult) : OrderStatus :=
  if Dec.lte (mr_remainingStake mres) 0 then MATCHED
  else if Dec.gt (mr_matchedStake mres) 0 then PARTIAL
  else OPEN.

(** The order row [placeOrder] creates, and the state once the exposure is
    locked, the order stored and the ledger entry written. *)
Definition placed_order (now : nat) (u m sel : string) (side : OrderSide)
    (price stake : Q) (db : DB) : Order :=
  mkOrder (fresh_id (map o_id (orders db))) u m sel side price stake 0 stake OPEN
          (liability_of side price stake) now.

Definition placed (now : nat) (u m sel : string) (side : OrderSide)
    (price stake : Q) (w : Wallet) (db : DB) : DB :=
  set_ledger (fun l => l ++ [mkLedger u (- liability_of side price stake)
                               EXPOSURE_LOCK (balance w)])
    (set_orders (fun os => os ++ [placed_order now u m sel side price stake db])
       (set_wallets (fun ws => <[u := set_exposure (exposure w + liability_of side price stake) w]> ws)
          db)).

Lemma run_engine_run side inc sel price stake db :
  exists res ts db',
    run_engine side inc sel price stake db = (Ok res, db')
    /\ trades db' = trades db ++ ts
    /\ mr_trades res = map info_of ts
    /\ fills side inc sel stake (resting_rows side sel price (orders db)) ts
         (mr_remainingStake res)
    /\ mr_matchedStake res = stake - mr_remainingStake res
    /\ engine_frame db db' /\ orders_kept db db'.
Proof.
  destruct side; [apply matchBackOrder_run|apply matchLayOrder_run].
Qed.

Definition runner_in_market (sel m : string) (r : Runner) : bool :=
  String.eqb (r_id r) sel && String.eqb (r_marketId r) m.

(** The checks of the placement transaction, in the order they are made. *)
Inductive placement_rejected (u m sel : string) (side : OrderSide) (price stake : Q)
    (db : DB) : Error -> Prop :=
  | rejected_no_market :
      markets db !! m = None ->
      placement_rejected u m sel side price stake db (ApiError 404 MarketNotFound)
  | rejected_market_not_open mk :
      markets db !! m = Some mk -> m_status mk <> MOPEN ->
      placement_rejected u m sel side price stake db (ApiError 400 (MarketIs (m_status mk)))
  | rejected_no_runner mk :
      markets db !! m = Some mk -> m_status mk = MOPEN ->
      find (runner_in_market sel m) (runners db) = None ->
      placement_rejected u m sel side price stake db (ApiError 404 RunnerNotFound)
  | rejected_no_wallet mk :
      markets db !! m = Some mk -> m_status mk = MOPEN ->
      find (runner_in_market sel m) (runners db) <> None ->
      wallets db !! u = None ->
      placement_rejected u m sel side price stake db (ApiError 404 WalletNotFound)
  | rejected_insufficient mk w :
      markets db !! m = Some mk -> m_status mk = MOPEN ->
      find (runner_in_market sel m) (runners db) <> None ->
      wallets db !! u = Some w ->
      balance w - exposure w < liability_of side price stake ->
      placement_rejected u m sel side price stake db
        (ApiError 400 (InsufficientBalance (liability_of side price stake)
                         (balance w - exposure w))).

(** An accepted placement: the checks pass, the exposure is locked, the
    engine runs from there to [db2], and the new order is updated last. *)
Inductive placement_accepted (now : nat) (u m sel : string) (side : OrderSide)
    (price stake : Q) (db : DB) : PlaceResult -> DB -> Prop :=
  | accepted mk w mres ts db2 res :
      markets db !! m = Some mk -> m_status mk = MOPEN ->
      find (runner_in_market sel m) (runners db) <> None ->
      wallets db !! u = Some w ->
      liability_of side price stake <= balance w - exposure w ->
      run_engine side (fresh_id (map o_id (orders db))) sel price stake
        (placed now u m sel side price stake w db) = (Ok mres, db2) ->
      trades db2 = trades db ++ ts ->
      fills side (fresh_id (map o_id (orders db))) sel stake
        (resting_rows side sel price
           (orders db ++ [placed_order now u m sel side price stake db]))
        ts (mr_remainingStake mres) ->
      engine_frame (placed now u m sel side price stake w db) db2 ->
      orders_kept (placed now u m sel side price stake w db) db2 ->
      pr_trades res = map info_of ts ->
      pr_matchedStake res = mr_matchedStake mres ->
      pr_remainingStake res = mr_remainingStake mres ->
      pr_status res = final_status mres ->
      o_id (pr_order res) = fresh_id (map o_id (orders db)) ->
      placement_accepted now u m sel side price stake db res
        (set_orders (update_order (fresh_id (map o_id (orders db)))
                       (set_fill (mr_matchedStake mres) (mr_remainingStake mres)
                          (final_status mres))) db2).

Lemma find_app_new (id : nat) os o :
  o_id o = id -> (forall x, In x os -> o_id x <> id) ->
  find (fun x => Nat.eqb (o_id x) id) (os ++ [o]) = Some o.
Proof.
  intros Ho Hn. induction os as [|x os IH]; cbn.
  - now rewrite Ho, Nat.eqb_refl.
  - destruct (Nat.eqb (o_id x) id) eqn:E.
    + apply Nat.eqb_eq in E. exfalso. apply (Hn x); [now left|exact E].
    + apply IH. intros y Hy. apply Hn. now right.
Qed.

Lemma placed_order_found now u m sel side price stake w db :
  find (fun x => Nat.eqb (o_id x) (fresh_id (map o_id (orders db))))
       (orders (placed now u m sel side price stake w db))
  = Some (placed_order now u m sel side price stake db).
Proof.
  cbn [placed orders set_ledger set_orders set_wallets].
  apply find_app_new; [reflexivity|].
  intros x Hx Heq.
  pose proof (fresh_id_gt (map o_id (orders db)) (o_id x) (in_map o_id _ _ Hx)). lia.
Qed.

Lemma order_create_eq now u m sel side price stake rem locked status db :
  order_create now u m sel side price stake rem locked status db
  = (Ok (mkOrder (fresh_id (map o_id (orders db))) u m sel side price stake 0 rem
           status locked now),
     set_orders (fun os => os ++ [mkOrder (fresh_id (map o_id (orders db))) u m sel side
                                    price stake 0 rem status locked now]) db).
Proof. reflexivity. Qed.

(** The placement transaction either is rejected by one of its checks,
    having written nothing, or is accepted. *)
Lemma placeOrderTx_cases now u m sel side price stake db :
  (exists e, placeOrderTx now u m sel side price stake db = (Throw e, db)
             /\ placement_rejected u m sel side price stake db e)
  \/ (exists res db', placeOrderTx now u m sel side price stake db = (Ok res, db')
                      /\ placement_accepted now u m sel side price stake db res db').
Proof.
  unfold placeOrderTx.
  erewrite bind_ok; [|reflexivity].
  destruct (markets db !! m) as [mk|] eqn:Em.
  2:{ left. eexists. split; [reflexivity|now apply rejected_no_market]. }
  destruct (bool_decide (m_status mk = MOPEN)) eqn:Es; cbn [negb].
  2:{ left. eexists. split; [reflexivity|].
      apply bool_decide_eq_false in Es. now apply rejected_market_not_open. }
  apply bool_decide_eq_true in Es.
  erewrite bind_ok; [|reflexivity].
  fold (runner_in_market sel m).
  destruct (find (runner_in_market sel m) (runners db)) as [rn|] eqn:Er.
  2:{ left. eexists. split; [reflexivity|]. now apply rejected_no_runner with mk. }
  erewrite bind_ok; [|reflexivity].
  destruct (wallets db !! u) as [w|] eqn:Ew.
  2:{ left. eexists. split; [reflexivity|].
      apply rejected_no_wallet with mk; try assumption. congruence. }
  fold (liability_of side price stake).
  destruct (Dec.lt (balance w - exposure w) (liability_of side price stake)) eqn:Ef.
  { left. eexists. split; [reflexivity|].
    apply Dec.lt_true in Ef.
    apply rejected_insufficient with mk; try assumption. congruence. }
  apply Dec.lt_false in Ef.
  right.
  tx_step wallet_update_eq Ew.
  set (db1 := placed now u m sel side price stake w db).
  fold (run_engine side).
  destruct (run_engine_run side (fresh_id (map o_id (orders db))) sel price stake db1)
    as (mres & ts & db2 & Hrun & Htr & Hinfo & Hf & Hm & Hfr & Hk).
  pose proof (placed_order_found now u m sel side price stake w db) as Hnew.
  fold db1 in Hnew.
  destruct (Hk _ _ Hnew) as (o2 & Ho2 & Hsame).
  exists (mkPlaceResult
            (set_fill (mr_matchedStake mres) (mr_remainingStake mres) (final_status mres) o2)
            (mr_trades mres) (mr_matchedStake mres) (mr_remainingStake mres)
            (final_status mres)).
  exists (set_orders (update_order (fresh_id (map o_id (orders db)))
                        (set_fill (mr_matchedStake mres) (mr_remainingStake mres)
                           (final_status mres))) db2).
  split.
  - erewrite bind_ok; [|apply order_create_eq].
    erewrite bind_ok; [|reflexivity].
    cbn [o_id].
    erewrite bind_ok; [|exact Hrun].
    tx_step order_update_eq Ho2.
    reflexivity.
  - eapply accepted with (mk := mk) (w := w) (ts := ts);
      try eassumption; try reflexivity.
    + congruence.
    + cbn [pr_order set_fill o_id].
      apply find_id_In in Ho2. now destruct Ho2.
Qed.

Lemma transaction_ok {A} (body : Tx A) db a db' :
  body db = (Ok a, db') -> transaction body db = (Ok a, db').
Proof. intros H. unfold transaction. now rewrite H. Qed.

Lemma transaction_throw {A} (body : Tx A) db e db' :
  body db = (Throw e, db') -> transaction body db = (Throw e, db).
Proof. intros H. unfold transaction. now rewrite H. Qed.

Lemma placeOrder_valid now u m sel side price stake db :
  0 < stake -> 1 < price ->
  placeOrder now u m sel side price stake db
  = transaction (placeOrderTx now u m sel side price stake) db.
Proof.
  intros Hs Hp. unfold placeOrder.
  rewrite (proj2 (Dec.lte_false stake 0) Hs), (proj2 (Dec.lte_false price 1) Hp).
  reflexivity.
Qed.

(** A call of [placeOrder] either fails and commits nothing, or commits an
    accepted placement. *)
Lemma placeOrder_cases now u m sel side price stake db :
  (exists e, placeOrder now u m sel side price stake db = (Throw e, db))
  \/ (exists res db', placeOrder now u m sel side price stake db = (Ok res, db')
                      /\ 0 < stake /\ 1 < price
                      /\ placement_accepted now u m sel side price stake db res db').
Proof.
  unfold placeOrder.
  destruct (Dec.lte stake 0) eqn:Es; [left; eexists; reflexivity|].
  destruct (Dec.lte price 1) eqn:Ep; [left; eexists; reflexivity|].
  apply Dec.lte_false in Es, Ep.
  destruct (placeOrderTx_cases now u m sel side price stake db)
    as [(e & He & _)|(res & db' & Hr & Ha)].
  - left. exists e. now apply transaction_throw with db.
  - right. exists res, db'. split; [now apply transaction_ok|]. auto.
Qed.

(** C8.  A placement on a market that is not OPEN, and a placement that
    needs more exposure than the available balance (balance - exposure),
    throw the corresponding 400 error; the transaction body has written
    nothing when it throws and the state after the call is the state
    before it: no order, no ledger entry, wallet unchanged. *)
Theorem failed_placement_changes_nothing
    (now : nat) (u m sel : string) (side : OrderSide) (price stake : Q) (db : DB) :
  0 < stake -> 1 < price ->
  (forall mk,
      markets db !! m = Some mk -> m_status mk <> MOPEN ->
      placeOrderTx now u m sel side price stake db
        = (Throw (ApiError 400 (MarketIs (m_status mk))), db)
      /\ placeOrder now u m sel side price stake db
        = (Throw (ApiError 400 (MarketIs (m_status mk))), db))
  /\
  (forall mk w,
      markets db !! m = Some mk -> m_status mk = MOPEN ->
      find (runner_in_market sel m) (runners db) <> None ->
      wallets db !! u = Some w ->
      balance w - exposure w < liability_of side price stake ->
      placeOrderTx now u m sel side price stake db
        = (Throw (ApiError 400 (InsufficientBalance (liability_of side price stake)
                                  (balance w - exposure w))), db)
      /\ placeOrder now u m sel side price stake db
        = (Throw (ApiError 400 (InsufficientBalance (liability_of side price stake)
                                  (balance w - exposure w))), db)).
Proof.
  intros Hs Hp. split.
  - intros mk Hm Hst.
    assert (H : placeOrderTx now u m sel side price stake db
                = (Throw (ApiError 400 (MarketIs (m_status mk))), db)).
    { unfold placeOrderTx. erewrite bind_ok; [|reflexivity]. rewrite Hm.
      rewrite (proj2 (bool_decide_eq_false _) Hst). reflexivity. }
    split; [exact H|].
    rewrite placeOrder_valid by assumption. now apply transaction_throw with db.
  - intros mk w Hm Hst Hr Hw Hlt.
    assert (H : placeOrderTx now u m sel side price stake db
                = (Throw (ApiError 400 (InsufficientBalance (liability_of side price stake)
                                          (balance w - exposure w))), db)).
    { unfold placeOrderTx. erewrite bind_ok; [|reflexivity]. rewrite Hm.
      rewrite (proj2 (bool_decide_eq_true _) Hst). cbn [negb].
      erewrite bind_ok; [|reflexivity].
      fold (runner_in_market sel m).
      destruct (find (runner_in_market sel m) (runners db)); [|congruence].
      erewrite bind_ok; [|reflexivity]. rewrite Hw.
      fold (liability_of side price stake).
      rewrite (proj2 (Dec.lt_true _ _) Hlt). reflexivity. }
    split; [exact H|].
    rewrite placeOrder_valid by assumption. now apply transaction_throw with db.
Qed.

(** ** Cancellation *)

Definition owned_order (orderId : nat) (u : string) (o : Order) : bool :=
  Nat.eqb (o_id o) orderId && String.eqb (o_userId o) u.

Lemma find_owned_by_id id u os o :
  find (owned_order id u) os = Some o ->
  exists o', find (fun x => Nat.eqb (o_id x) (o_id o)) os = Some o'.
Proof.
  intros H. apply find_some in H. destruct H as [Hin _]. now apply In_find_id.
Qed.

(** What a successful cancellation commits. *)
Definition cancelled (u : string) (order : Order) (w : Wallet) (db : DB) : DB :=
  set_ledger (fun l => l ++ [mkLedger u (order_exposureToRelease order)
                               EXPOSURE_RELEASE (balance w)])
    (set_wallets (fun ws => <[u := decrement_exposure (order_exposureToRelease order) w]> ws)
       (set_orders (update_order (o_id order) (set_status CANCELLED)) db)).

Lemma cancelOrderTx_ok u orderId db order w :
  find (owned_order orderId u) (orders db) = Some order ->
  is_open_or_partial (o_status order) = true ->
  wallets db !! u = Some w ->
  cancelOrderTx u orderId db
  = (Ok (mkCancelResult (o_id order) (order_exposureToRelease order)
           (exposure w - order_exposureToRelease order)
           (balance w - (exposure w - order_exposureToRelease order))),
     cancelled u order w db).
Proof.
  intros Hf Hs Hw. unfold cancelOrderTx.
  erewrite bind_ok; [|reflexivity]. fold (owned_order orderId u). rewrite Hf, Hs.
  cbn [negb].
  destruct (find_owned_by_id _ _ _ _ Hf) as [o' Ho'].
  tx_step order_update_eq Ho'.
  tx_step wallet_update_eq Hw.
  reflexivity.
Qed.

Lemma cancelOrder_cases u orderId db :
  (exists e, cancelOrder u orderId db = (Throw e, db))
  \/ (exists order w,
        find (owned_order orderId u) (orders db) = Some order
        /\ is_open_or_partial (o_status order) = true
        /\ wallets db !! u = Some w
        /\ cancelOrder u orderId db
           = (Ok (mkCancelResult (o_id order) (order_exposureToRelease order)
                    (exposure w - order_exposureToRelease order)
                    (balance w - (exposure w - order_exposureToRelease order))),
              cancelled u order w db)).
Proof.
  unfold cancelOrder, transaction.
  destruct (cancelOrderTx u orderId db) as [[r|e] db'] eqn:E; [|left; eauto].
  right. revert E. unfold cancelOrderTx.
  erewrite bind_ok; [|reflexivity]. fold (owned_order orderId u).
  destruct (find (owned_order orderId u) (orders db)) as [order|] eqn:Hf; [|discriminate].
  destruct (is_open_or_partial (o_status order)) eqn:Hs; [|discriminate].
  cbn [negb].
  destruct (wallets db !! u) as [w|] eqn:Hw.
  - intros E. exists order, w. repeat split; try assumption.
    pose proof (cancelOrderTx_ok u orderId db order w Hf Hs Hw) as Hok.
    unfold cancelOrderTx in Hok.
    erewrite bind_ok in Hok; [|reflexivity]. fold (owned_order orderId u) in Hok.
    rewrite Hf, Hs in Hok. cbn [negb] in Hok. rewrite Hok in E. now inversion E.
  - destruct (find_owned_by_id _ _ _ _ Hf) as [o' Ho'].
    tx_step order_update_eq Ho'.
    erewrite bind_throw; [discriminate|]. eapply wallet_update_none. exact Hw.
Qed.

(** ** Balances are framed by placement, matching and cancellation *)

Definition balances_kept (db db' : DB) : Prop :=
  forall v, balance <$> (wallets db' !! v) = balance <$> (wallets db !! v).

Lemma balances_kept_refl db : balances_kept db db.
Proof. now intros v. Qed.

Lemma balances_kept_insert u w f (ws ws' : gmap string Wallet) :
  ws !! u = Some w -> balance (f w) = balance w -> ws' = <[u := f w]> ws ->
  forall v, balance <$> (ws' !! v) = balance <$> (ws !! v).
Proof.
  intros Hw Hb -> v. destruct (decide (u = v)) as [->|Hne].
  - rewrite lookup_insert_eq, Hw. cbn. now rewrite Hb.
  - now rewrite lookup_insert_ne.
Qed.

Lemma placement_accepted_balances now u m sel side price stake db res db' :
  placement_accepted now u m sel side price stake db res db' ->
  balances_kept db db' /\ markets db' = markets db /\ runners db' = runners db
  /\ matches db' = matches db.
Proof.
  intros [mk w mres ts db2 res' Hm Hst Hr Hw Hl Hrun Htr Hf Hfr _ _ _ _ _ _].
  destruct Hfr as (Hw2 & _ & Hma & Hmk & Hru).
  cbn [markets runners matches set_orders]. rewrite Hma, Hmk, Hru.
  split; [|now repeat split].
  unfold balances_kept. cbn [wallets set_orders]. rewrite Hw2.
  eapply balances_kept_insert with (f := set_exposure _); [exact Hw|reflexivity|reflexivity].
Qed.

(** C10.  Placing an order, with all the matching it triggers, leaves the
    balance of every wallet as it was, whatever the number of trades; the
    markets, runners and matches are left alone too.  The engine itself
    writes no wallet at all, and cancelling an order leaves every balance
    as it was. *)
Theorem placement_and_matching_keep_balances
    (now : nat) (u m sel : string) (side : OrderSide) (price stake : Q) (db : DB) :
  (let db' := snd (placeOrder now u m sel side price stake db) in
   balances_kept db db' /\ markets db' = markets db /\ runners db' = runners db
   /\ matches db' = matches db)
  /\ (forall incoming,
        wallets (snd (matchBackOrder incoming sel price stake db)) = wallets db
        /\ wallets (snd (matchLayOrder incoming sel price stake db)) = wallets db)
  /\ (forall orderId, balances_kept db (snd (cancelOrder u orderId db))).
Proof.
  split; [|split].
  - destruct (placeOrder_cases now u m sel side price stake db)
      as [(e & He)|(res & db' & Hr & _ & _ & Ha)].
    + rewrite He. cbn. now repeat split.
    + rewrite Hr. cbn [snd]. eapply placement_accepted_balances, Ha.
  - intros incoming. split.
    + destruct (matchBackOrder_run incoming sel price stake db)
        as (res & ts & db' & Hrun & _ & _ & _ & _ & Hfr & _).
      rewrite Hrun. apply Hfr.
    + destruct (matchLayOrder_run incoming sel price stake db)
        as (res & ts & db' & Hrun & _ & _ & _ & _ & Hfr & _).
      rewrite Hrun. apply Hfr.
  - intros orderId.
    destruct (cancelOrder_cases u orderId db) as [(e & He)|(order & w & _ & _ & Hw & Hr)].
    + rewrite He. apply balances_kept_refl.
    + rewrite Hr. cbn [snd]. unfold balances_kept, cancelled.
      cbn [wallets set_ledger set_wallets set_orders].
      eapply balances_kept_insert with (f := decrement_exposure _);
        [exact Hw|reflexivity|reflexivity].
Qed.

(** ** Place, then cancel *)



Lemma filter_none {A} (f : A -> bool) l :
  (forall x, In x l -> f x = false) -> List.filter f l = [].
Proof.
  induction l as [|x l IH]; intros H; cbn; [reflexivity|].
  rewrite (H x) by now left. apply IH. intros y Hy. apply H. now right.
Qed.





(** ** Who is matched with whom *)

Lemma fills_rows side inc sel r rows ts r' :
  fills side inc sel r rows ts r' ->
  Forall (fun t => exists row, In row rows
            /\ t_selectionId t = sel
            /\ t_backOrderId t = match side with BACK => inc | LAY => o_id row end
            /\ t_layOrderId t = match side with BACK => o_id row | LAY => inc end) ts.
Proof.
  induction 1 as [r|r row rows Hr|r row rows t ts r' Hr Hb Hl Hs Hp Hst Hset Hf IH].
  - constructor.
  - constructor.
  - constructor.
    + exists row. split; [now left|]. now repeat split.
    + eapply List.Forall_impl; [|exact IH].
      intros t' (row' & Hin & H'). exists row'. split; [now right|exact H'].
Qed.

Lemma resting_rows_In side sel price os o :
  In o (resting_rows side sel price os) ->
  In o os /\ o_selectionId o = sel /\ o_side o = opposite side
  /\ (o_status o = OPEN \/ o_status o = PARTIAL).
Proof.
  destruct side; cbn [resting_rows opposite]; intros H.
  - apply lay_rows_In in H. destruct H as [Hin Hc].
    apply lay_candidate_spec in Hc. tauto.
  - apply back_rows_In in H. destruct H as [Hin Hc].
    apply back_candidate_spec in Hc. tauto.
Qed.

(** A trade of a placement pairs the incoming order with a resting row. *)
Definition pairs_with (side : OrderSide) (incoming : nat) (sel : string)
    (resting : Order) (t : Trade) : Prop :=
  t_selectionId t = sel
  /\ o_selectionId resting = sel
  /\ o_side resting = opposite side
  /\ (o_status resting = OPEN \/ o_status resting = PARTIAL)
  /\ o_id resting <> incoming
  /\ t_backOrderId t = match side with BACK => incoming | LAY => o_id resting end
  /\ t_layOrderId t = match side with BACK => o_id resting | LAY => incoming end.

(** C6, as the code has it.  Every trade made by a placement references
    one BACK order and one LAY order, two different orders on the same
    selection: the order just placed, on its own side, and an order that
    was resting on the other side.  Nothing relates the owners of the two:
    the candidate query does not look at the user of the resting order. *)
Theorem trades_pair_a_back_with_a_lay
    (now : nat) (u m sel : string) (side : OrderSide) (price stake : Q)
    (db db' : DB) (res : PlaceResult) :
  placeOrder now u m sel side price stake db = (Ok res, db') ->
  exists ts incoming,
    trades db' = trades db ++ ts
    /\ pr_trades res = map info_of ts
    /\ find (fun o => Nat.eqb (o_id o) (o_id (pr_order res))) (orders db') = Some incoming
    /\ o_side incoming = side /\ o_userId incoming = u /\ o_selectionId incoming = sel
    /\ Forall (fun t => exists resting,
                 In resting (orders db)
                 /\ pairs_with side (o_id (pr_order res)) sel resting t) ts.
Proof.
  intros Hrun.
  destruct (placeOrder_cases now u m sel side price stake db)
    as [(e & He)|(res' & db'' & Hr & _ & _ & Ha)]; [congruence|].
  rewrite Hr in Hrun. inversion Hrun; subst res' db''. clear Hrun.
  destruct Ha as [mk w mres ts db2 res Hm Hst Hrn Hw Hl Heng Htr Hf Hfr Hk
                    Hres1 Hres2 Hres3 Hres4 Hres5].
  destruct (Hk _ _ (placed_order_found now u m sel side price stake w db))
    as (o2 & Ho2 & Hsame).
  exists ts, (set_fill (mr_matchedStake mres) (mr_remainingStake mres) (final_status mres) o2).
  split; [exact Htr|]. split; [exact Hres1|].
  destruct Hsame as (Hid & Hu & _ & Hsel & Hside & _).
  split; [|split; [|split; [|split]]].
  - rewrite Hres5. cbn [orders set_orders].
    rewrite find_update_id by reflexivity. rewrite Ho2. cbn [option_map].
    rewrite Hid. cbn [o_id placed_order]. now rewrite Nat.eqb_refl.
  - exact Hside.
  - exact Hu.
  - exact Hsel.
  - eapply List.Forall_impl; [|apply (fills_rows _ _ _ _ _ _ _ Hf)].
    intros t (row & Hin & Hts & Hb & Hlay).
    apply resting_rows_In in Hin. destruct Hin as (Hin & Hrs & Hrside & Hrst).
    assert (Hold : In row (orders db)).
    { apply in_app_or in Hin. destruct Hin as [Hin|[<-|[]]]; [exact Hin|].
      cbn in Hrside. destruct side; discriminate. }
    exists row. split; [exact Hold|].
    rewrite Hres5. unfold pairs_with. repeat split; try assumption.
    pose proof (fresh_id_gt (map o_id (orders db)) (o_id row) (in_map o_id _ _ Hold)).
    lia.
Qed.

(** ** Exposure at match time *)





(** ** Wallet movements *)

Definition balance_of (db : DB) (u : string) : Q :=
  match wallets db !! u with Some w => balance w | None => 0 end.

Definition exposure_of (db : DB) (u : string) : Q :=
  match wallets db !! u with Some w => exposure w | None => 0 end.

(** [amount_for u a v] is [a] for user [u] and nothing for anyone else. *)
Definition amount_for (u : string) (a : Q) (v : string) : Q :=
  if decide (v = u) then a else 0.

(** From [db] to [db'] every balance has grown by [credit] and every
    exposure has shrunk by [release]; no wallet has disappeared. *)
Definition wallets_moved (db db' : DB) (credit release : string -> Q) : Prop :=
  forall v,
    (is_Some (wallets db !! v) -> is_Some (wallets db' !! v))
    /\ balance_of db' v == balance_of db v + credit v
    /\ exposure_of db' v == exposure_of db v - release v.

Lemma wallets_moved_refl db db' :
  wallets db' = wallets db -> wallets_moved db db' (fun _ => 0) (fun _ => 0).
Proof.
  intros H v. unfold balance_of, exposure_of. rewrite H.
  split; [auto|]. split; lra.
Qed.

Lemma wallets_moved_trans db1 db2 db3 c1 r1 c2 r2 c r :
  wallets_moved db1 db2 c1 r1 -> wallets_moved db2 db3 c2 r2 ->
  (forall v, c v == c1 v + c2 v) -> (forall v, r v == r1 v + r2 v) ->
  wallets_moved db1 db3 c r.
Proof.
  intros H1 H2 Hc Hr v.
  destruct (H1 v) as (Hs1 & Hb1 & He1). destruct (H2 v) as (Hs2 & Hb2 & He2).
  split; [auto|]. specialize (Hc v). specialize (Hr v). split; lra.
Qed.

Lemma wallets_moved_ext db db' c r c' r' :
  wallets_moved db db' c r ->
  (forall v, c' v == c v) -> (forall v, r' v == r v) ->
  wallets_moved db db' c' r'.
Proof.
  intros H Hc Hr v. destruct (H v) as (Hs & Hb & He).
  split; [auto|]. specialize (Hc v). specialize (Hr v). split; lra.
Qed.

Lemma wallet_update_run u f db :
  wallet_update u f db
  = match wallets db !! u with
    | Some w => (Ok (f w), set_wallets (fun ws => <[u := f w]> ws) db)
    | None => (Throw RecordNotFound, db)
    end.
Proof.
  unfold wallet_update, wallet_findUnique, bind, get. cbn.
  now destruct (wallets db !! u).
Qed.

Lemma credited_moved u a w db db' :
  wallets db !! u = Some w ->
  wallets db' = <[u := increment_balance a w]> (wallets db) ->
  wallets_moved db db' (amount_for u a) (fun _ => 0).
Proof.
  intros Hw Hdb v. unfold balance_of, exposure_of, amount_for. rewrite Hdb.
  destruct (decide (v = u)) as [->|Hne].
  - rewrite lookup_insert_eq, Hw. cbn. split; [eauto|]. split; lra.
  - rewrite lookup_insert_ne by congruence. split; [auto|]. split; lra.
Qed.

Lemma released_moved u a w db db' :
  wallets db !! u = Some w ->
  wallets db' = <[u := decrement_exposure a w]> (wallets db) ->
  wallets_moved db db' (fun _ => 0) (amount_for u a).
Proof.
  intros Hw Hdb v. unfold balance_of, exposure_of, amount_for. rewrite Hdb.
  destruct (decide (v = u)) as [->|Hne].
  - rewrite lookup_insert_eq, Hw. cbn. split; [eauto|]. split; lra.
  - rewrite lookup_insert_ne by congruence. split; [auto|]. split; lra.
Qed.

(** What the settlement of trades leaves alone. *)
Definition settle_frame (db db' : DB) : Prop :=
  orders db' = orders db /\ runners db' = runners db /\ markets db' = markets db
  /\ matches db' = matches db.

(** A credit or a release, with the ledger entry that goes with it. *)
Definition wallet_step (u : string) (f : Wallet -> Wallet) (entry : Wallet -> Ledger) : Tx unit :=
  wallet <- wallet_update u f ;;
  ledger_create (entry wallet).

Lemma wallet_step_run u f entry db :
  wallet_step u f entry db
  = match wallets db !! u with
    | Some w => (Ok tt, set_ledger (fun l => l ++ [entry (f w)])
                          (set_wallets (fun ws => <[u := f w]> ws) db))
    | None => (Throw RecordNotFound, db)
    end.
Proof.
  unfold wallet_step, bind. rewrite wallet_update_run.
  now destruct (wallets db !! u).
Qed.

Lemma creditWallet_run u a m db :
  creditWallet u a m db
  = match wallets db !! u with
    | Some w => (Ok tt, set_ledger (fun l => l ++ [mkLedger u a ORDER_SETTLE (balance w + a)])
                          (set_wallets (fun ws => <[u := increment_balance a w]> ws) db))
    | None => (Throw RecordNotFound, db)
    end.
Proof.
  pose proof (wallet_step_run u (increment_balance a)
                (fun wallet => mkLedger u a ORDER_SETTLE (balance wallet)) db) as H.
  unfold wallet_step in H. unfold creditWallet. rewrite H.
  now destruct (wallets db !! u).
Qed.

Lemma releaseExposure_run u m a db :
  releaseExposure u m a db
  = match wallets db !! u with
    | Some w => (Ok tt, set_marketExposures (decrement_exposure_row u m a)
                          (set_wallets (fun ws => <[u := decrement_exposure a w]> ws) db))
    | None => (Throw RecordNotFound, db)
    end.
Proof.
  unfold releaseExposure, bind. rewrite wallet_update_run.
  now destruct (wallets db !! u).
Qed.

Lemma trade_update_run id f db :
  trade_update id f db
  = match find (fun t => Nat.eqb (t_id t) id) (trades db) with
    | Some _ => (Ok tt, set_trades (update_trade id f) db)
    | None => (Throw RecordNotFound, db)
    end.
Proof.
  unfold trade_update, bind, get. cbn.
  now destruct (find (fun t => Nat.eqb (t_id t) id) (trades db)).
Qed.

Lemma creditWallet_spec u a m db :
  match creditWallet u a m db with
  | (Ok _, db') =>
      wallets_moved db db' (amount_for u a) (fun _ => 0)
      /\ settle_frame db db' /\ trades db' = trades db
  | (Throw _, _) => wallets db !! u = None
  end.
Proof.
  rewrite creditWallet_run. destruct (wallets db !! u) as [w|] eqn:E; [|reflexivity].
  split; [|now repeat split]. now apply credited_moved with w.
Qed.

Lemma releaseExposure_spec u m a db :
  match releaseExposure u m a db with
  | (Ok _, db') =>
      wallets_moved db db' (fun _ => 0) (amount_for u a)
      /\ settle_frame db db' /\ trades db' = trades db
  | (Throw _, _) => wallets db !! u = None
  end.
Proof.
  rewrite releaseExposure_run. destruct (wallets db !! u) as [w|] eqn:E; [|reflexivity].
  split; [|now repeat split]. now apply released_moved with w.
Qed.

Lemma credit_step_spec u a entry db :
  match wallet_step u (increment_balance a) entry db with
  | (Ok _, db') =>
      wallets_moved db db' (amount_for u a) (fun _ => 0)
      /\ settle_frame db db' /\ trades db' = trades db
  | (Throw _, _) => wallets db !! u = None
  end.
Proof.
  rewrite wallet_step_run. destruct (wallets db !! u) as [w|] eqn:E; [|reflexivity].
  split; [|now repeat split]. now apply credited_moved with w.
Qed.

Lemma release_step_spec u a entry db :
  match wallet_step u (decrement_exposure a) entry db with
  | (Ok _, db') =>
      wallets_moved db db' (fun _ => 0) (amount_for u a)
      /\ settle_frame db db' /\ trades db' = trades db
  | (Throw _, _) => wallets db !! u = None
  end.
Proof.
  rewrite wallet_step_run. destruct (wallets db !! u) as [w|] eqn:E; [|reflexivity].
  split; [|now repeat split]. now apply released_moved with w.
Qed.

Lemma trade_update_spec id f db :
  match trade_update id f db with
  | (Ok _, db') =>
      wallets db' = wallets db /\ settle_frame db db'
      /\ trades db' = update_trade id f (trades db)
  | (Throw _, _) => find (fun t => Nat.eqb (t_id t) id) (trades db) = None
  end.
Proof.
  rewrite trade_update_run.
  destruct (find (fun t => Nat.eqb (t_id t) id) (trades db)); [|reflexivity].
  now repeat split.
Qed.

Lemma settle_frame_trans db1 db2 db3 :
  settle_frame db1 db2 -> settle_frame db2 db3 -> settle_frame db1 db3.
Proof. unfold settle_frame. intuition congruence. Qed.

(** Two wallet movements and the marking of the trade, in sequence. *)
Lemma two_moves_then_mark (a1 a2 : Tx unit) id f db c1 r1 c2 r2 u1 u2 :
  (forall d, match a1 d with
             | (Ok _, d') => wallets_moved d d' c1 r1 /\ settle_frame d d'
                             /\ trades d' = trades d
             | (Throw _, _) => wallets d !! u1 = None
             end) ->
  (forall d, match a2 d with
             | (Ok _, d') => wallets_moved d d' c2 r2 /\ settle_frame d d'
                             /\ trades d' = trades d
             | (Throw _, _) => wallets d !! u2 = None
             end) ->
  match ((a1 ;;; a2) ;;; trade_update id f) db with
  | (Ok _, db') =>
      wallets_moved db db' (fun v => c1 v + c2 v) (fun v => r1 v + r2 v)
      /\ settle_frame db db'
      /\ trades db' = update_trade id f (trades db)
  | (Throw _, _) =>
      wallets db !! u1 = None \/ wallets db !! u2 = None
      \/ find (fun t => Nat.eqb (t_id t) id) (trades db) = None
  end.
Proof.
  intros H1 H2. unfold bind.
  specialize (H1 db). destruct (a1 db) as [[[]|e1] db1]; [|now left].
  destruct H1 as (Hm1 & Hf1 & Ht1).
  specialize (H2 db1). destruct (a2 db1) as [[[]|e2] db2].
  - destruct H2 as (Hm2 & Hf2 & Ht2).
    pose proof (trade_update_spec id f db2) as H3.
    destruct (trade_update id f db2) as [[[]|e3] db3].
    + destruct H3 as (Hw3 & Hf3 & Ht3). split; [|split].
      * assert (H12 : wallets_moved db db2 (fun v => c1 v + c2 v) (fun v => r1 v + r2 v)).
        { eapply wallets_moved_trans; [exact Hm1|exact Hm2| |]; intros v; reflexivity. }
        eapply wallets_moved_trans;
          [exact H12|apply (wallets_moved_refl db2 db3 Hw3)| |]; intros v; cbn; lra.
      * eapply settle_frame_trans; [exact Hf1|].
        eapply settle_frame_trans; [exact Hf2|exact Hf3].
      * rewrite Ht3, Ht2, Ht1. reflexivity.
    + right. right. now rewrite <- Ht1, <- Ht2.
  - right. left.
    destruct (wallets db !! u2) as [w|] eqn:E; [|reflexivity].
    destruct (Hm1 u2) as (Hs & _). rewrite E in Hs.
    destruct (Hs (ex_intro _ w eq_refl)) as [w' Hw']. congruence.
Qed.

Lemma bind_ext_l {A B} (m1 m2 : Tx A) (k : A -> Tx B) db :
  m1 db = m2 db -> bind m1 k db = bind m2 k db.
Proof. intros H. unfold bind. now rewrite H. Qed.

Lemma wallet_steps_assoc u1 f1 e1 u2 f2 e2 db :
  (x <- wallet_update u1 f1 ;; ledger_create (e1 x) ;;;
   y <- wallet_update u2 f2 ;; ledger_create (e2 y)) db
  = (wallet_step u1 f1 e1 ;;; wallet_step u2 f2 e2) db.
Proof.
  unfold wallet_step, bind. now destruct (wallet_update u1 f1 db) as [[w|e] db1].
Qed.

Lemma wallet_steps_forEach (body : string * Q -> Tx unit) x y db :
  forEach [x; y] body db = (body x ;;; body y) db.
Proof.
  cbn [forEach]. unfold bind, ret.
  destruct (body x db) as [[[]|e] db1]; [|reflexivity].
  now destruct (body y db1) as [[[]|e] db2].
Qed.

(** ** Settlement of one trade *)

Section OneTrade.
Variable trade : TradeJoined.
Let p := t_price (tj_trade trade).
Let s := t_stake (tj_trade trade).
Let back := o_userId (tj_backOrder trade).
Let lay := o_userId (tj_layOrder trade).

(** Credits and releases by outcome: [Some true] the back side wins,
    [Some false] the lay side wins, [None] both sides are refunded. *)
Definition settle_credit (w : option bool) (v : string) : Q :=
  match w with
  | Some true => amount_for back (s + (p - 1) * s) v + 0
  | Some false => amount_for lay s v + 0
  | None => amount_for back s v + amount_for lay ((p - 1) * s) v
  end.

Definition settle_release (w : option bool) (v : string) : Q :=
  match w with
  | Some true => 0 + amount_for lay ((p - 1) * s) v
  | Some false => 0 + amount_for back s v
  | None => 0 + 0
  end.

Definition settled_or_missing (now : nat) (w : option bool) (db : DB)
    (out : Result unit * DB) : Prop :=
  match out with
  | (Ok _, db') =>
      wallets_moved db db' (settle_credit w) (settle_release w)
      /\ settle_frame db db'
      /\ trades db' = update_trade (t_id (tj_trade trade)) (mark_settled now) (trades db)
  | (Throw _, _) =>
      wallets db !! back = None \/ wallets db !! lay = None
      \/ find (fun t => Nat.eqb (t_id t) (t_id (tj_trade trade))) (trades db) = None
  end.

Lemma settleUnsettledTrade_spec now db :
  settled_or_missing now (r_isWinner (tj_selection trade)) db
    (settleUnsettledTrade now trade db).
Proof.
  unfold settleUnsettledTrade, settled_or_missing.
  destruct (r_isWinner (tj_selection trade)) as [[|]|];
    unfold settleTrade, refundTrade, settle_credit, settle_release;
    subst p s back lay.
  - apply two_moves_then_mark with (u1 := o_userId (tj_backOrder trade))
                                   (u2 := o_userId (tj_layOrder trade));
      intros d; [apply creditWallet_spec|apply releaseExposure_spec].
  - pose proof (two_moves_then_mark _ _
      (t_id (tj_trade trade)) (mark_settled now) db _ _ _ _ _ _
      (fun d => creditWallet_spec (o_userId (tj_layOrder trade))
                  (t_stake (tj_trade trade)) (o_marketId (tj_backOrder trade)) d)
      (fun d => releaseExposure_spec (o_userId (tj_backOrder trade))
                  (o_marketId (tj_backOrder trade)) (t_stake (tj_trade trade)) d)) as H.
    cbv beta in H.
    match type of H with match ?X with _ => _ end => destruct X as [[[]|e] db'] end;
      [exact H|tauto].
  - pose proof (two_moves_then_mark _ _
      (t_id (tj_trade trade)) (mark_settled now) db _ _ _ _ _ _
      (fun d => creditWallet_spec (o_userId (tj_backOrder trade))
                  (t_stake (tj_trade trade)) (o_marketId (tj_backOrder trade)) d)
      (fun d => creditWallet_spec (o_userId (tj_layOrder trade))
                  ((t_price (tj_trade trade) - 1) * t_stake (tj_trade trade))
                  (o_marketId (tj_backOrder trade)) d)) as H.
    cbv beta in H.
    match goal with |- match ?X with _ => _ end =>
      match type of H with match ?Y with _ => _ end =>
        replace X with Y; [exact H|] end end.
    unfold bind.
    now destruct (creditWallet (o_userId (tj_backOrder trade))
                    (t_stake (tj_trade trade)) (o_marketId (tj_backOrder trade)) db)
      as [[[]|e] d1].
Qed.

Lemma forceCloseTrade_spec now db :
  settled_or_missing now (r_isWinner (tj_selection trade)) db
    (forceCloseTrade now trade db).
Proof.
  unfold forceCloseTrade, settled_or_missing.
  destruct (r_isWinner (tj_selection trade)) as [[|]|];
    unfold settle_credit, settle_release; subst p s back lay.
  - rewrite (bind_ext_l _ _ _ _ (wallet_steps_assoc _ _ _ _ _ _ db)).
    apply two_moves_then_mark with (u1 := o_userId (tj_backOrder trade))
                                   (u2 := o_userId (tj_layOrder trade));
      intros d; [apply credit_step_spec|apply release_step_spec].
  - rewrite (bind_ext_l _ _ _ _ (wallet_steps_assoc _ _ _ _ _ _ db)).
    pose proof (two_moves_then_mark _ _
      (t_id (tj_trade trade)) (mark_settled now) db _ _ _ _ _ _
      (fun d => credit_step_spec (o_userId (tj_layOrder trade)) (t_stake (tj_trade trade))
         (fun w => mkLedger (o_userId (tj_layOrder trade)) (t_stake (tj_trade trade))
                     ORDER_SETTLE (balance w)) d)
      (fun d => release_step_spec (o_userId (tj_backOrder trade)) (t_stake (tj_trade trade))
         (fun w => mkLedger (o_userId (tj_backOrder trade)) (- t_stake (tj_trade trade))
                     ORDER_SETTLE (balance w)) d)) as H.
    cbv beta in H.
    match type of H with match ?X with _ => _ end => destruct X as [[[]|e] db'] end;
      [exact H|tauto].
  - rewrite (bind_ext_l _ _ _ _ (wallet_steps_forEach _ _ _ db)).
    cbn [fst snd].
    apply (two_moves_then_mark _ _
      (t_id (tj_trade trade)) (mark_settled now) db _ _ _ _ _ _
      (fun d => credit_step_spec (o_userId (tj_backOrder trade)) (t_stake (tj_trade trade))
         (fun w => mkLedger (o_userId (tj_backOrder trade)) (t_stake (tj_trade trade))
                     ORDER_SETTLE (balance w)) d)
      (fun d => credit_step_spec (o_userId (tj_layOrder trade))
         ((t_price (tj_trade trade) - 1) * t_stake (tj_trade trade))
         (fun w => mkLedger (o_userId (tj_layOrder trade))
                     ((t_price (tj_trade trade) - 1) * t_stake (tj_trade trade))
                     ORDER_SETTLE (balance w)) d)).
Qed.
End OneTrade.




(** ** Frames *)

(** The computation leaves the part [proj] of the state as it is, whether
    it returns or throws. *)
Definition keeps {A B} (proj : DB -> B) (m : Tx A) : Prop :=
  forall db, proj (snd (m db)) = proj db.

Lemma keeps_ret {A B} (proj : DB -> B) (a : A) : keeps proj (ret a).
Proof. now intros db. Qed.

Lemma keeps_throw {A B} (proj : DB -> B) e : keeps proj (@throw A e).
Proof. now intros db. Qed.

Lemma keeps_get {A B} (proj : DB -> B) (f : DB -> A) : keeps proj (get f).
Proof. now intros db. Qed.

Lemma keeps_modify {B} (proj : DB -> B) f :
  (forall db, proj (f db) = proj db) -> keeps proj (modify f).
Proof. intros H db. apply H. Qed.

Lemma keeps_bind {A C B} (proj : DB -> B) (m : Tx A) (k : A -> Tx C) :
  keeps proj m -> (forall a, keeps proj (k a)) -> keeps proj (bind m k).
Proof.
  intros Hm Hk db. unfold bind. specialize (Hm db).
  destruct (m db) as [[a|e] db1]; cbn in *.
  - now rewrite Hk.
  - exact Hm.
Qed.

Lemma keeps_forEach {A B} (proj : DB -> B) (l : list A) body :
  (forall x, keeps proj (body x)) -> keeps proj (forEach l body).
Proof.
  intros H. induction l as [|x l IH]; cbn [forEach].
  - apply keeps_ret.
  - apply keeps_bind; [apply H|intros _; exact IH].
Qed.

Lemma keeps_ok {A B} (proj : DB -> B) (m : Tx A) db a db' :
  keeps proj m -> m db = (Ok a, db') -> proj db' = proj db.
Proof. intros H E. specialize (H db). now rewrite E in H. Qed.

Ltac keeps_tac :=
  repeat first
    [ apply keeps_ret | apply keeps_throw | apply keeps_get
    | apply keeps_modify; intros; reflexivity
    | apply keeps_forEach; intros
    | apply keeps_bind; [|intros]
    | match goal with |- keeps _ (match ?x with _ => _ end) => destruct x end
    | match goal with |- keeps _ (if ?x then _ else _) => destruct x end ].

Lemma wallet_update_keeps {B} (proj : DB -> B) u f :
  (forall g db, proj (set_wallets g db) = proj db) -> keeps proj (wallet_update u f).
Proof.
  intros H. unfold wallet_update, wallet_findUnique.
  apply keeps_bind; [apply keeps_get|intros [w|]; [|apply keeps_throw]].
  apply keeps_bind; [apply keeps_modify; intros; apply H|intros; apply keeps_ret].
Qed.

Lemma order_update_keeps {B} (proj : DB -> B) id f :
  (forall g db, proj (set_orders g db) = proj db) -> keeps proj (order_update id f).
Proof.
  intros H. unfold order_update, order_findUniqueOrThrow, order_findFirst.
  apply keeps_bind.
  - apply keeps_bind; [apply keeps_get|intros [o|]; [apply keeps_ret|apply keeps_throw]].
  - intros o. apply keeps_bind; [apply keeps_modify; intros; apply H|intros; apply keeps_ret].
Qed.

Lemma trade_update_keeps {B} (proj : DB -> B) id f :
  (forall g db, proj (set_trades g db) = proj db) -> keeps proj (trade_update id f).
Proof.
  intros H. unfold trade_update.
  apply keeps_bind; [apply keeps_get|intros [t|]; [|apply keeps_throw]].
  apply keeps_modify; intros; apply H.
Qed.

Lemma runner_update_keeps {B} (proj : DB -> B) id f :
  (forall g db, proj (set_runners g db) = proj db) -> keeps proj (runner_update id f).
Proof.
  intros H. unfold runner_update, runner_findFirst.
  apply keeps_bind; [apply keeps_get|intros [t|]; [|apply keeps_throw]].
  apply keeps_modify; intros; apply H.
Qed.

Lemma wallet_findUniqueOrThrow_keeps {B} (proj : DB -> B) u :
  keeps proj (wallet_findUniqueOrThrow u).
Proof. unfold wallet_findUniqueOrThrow, wallet_findUnique. keeps_tac. Qed.

Lemma settleUnsettledTrade_keeps_markets now trade :
  keeps markets (settleUnsettledTrade now trade).
Proof.
  unfold settleUnsettledTrade, settleTrade, refundTrade, creditWallet, releaseExposure,
    ledger_create, marketExposure_updateMany.
  destruct (r_isWinner (tj_selection trade)) as [[|]|];
    repeat first
      [ apply wallet_update_keeps; reflexivity
      | apply trade_update_keeps; reflexivity
      | apply keeps_modify; intros; reflexivity
      | apply keeps_bind; [|intros] ].
Qed.

Lemma cancelOpenOrders_keeps_markets m : keeps markets (cancelOpenOrders m).
Proof.
  unfold cancelOpenOrders, order_findMany.
  apply keeps_bind; [apply keeps_get|intros os].
  apply keeps_forEach. intros o.
  unfold cancelOpenOrder, ledger_create, marketExposure_updateMany.
  repeat first
    [ apply wallet_update_keeps; reflexivity
    | apply order_update_keeps; reflexivity
    | apply wallet_findUniqueOrThrow_keeps
    | apply keeps_modify; intros; reflexivity
    | apply keeps_bind; [|intros] ].
Qed.

Lemma market_update_run id f db :
  market_update id f db
  = match markets db !! id with
    | Some mk => (Ok (f mk), set_markets (fun ms => <[id := f mk]> ms) db)
    | None => (Throw RecordNotFound, db)
    end.
Proof.
  unfold market_update, market_findUnique, bind, get. cbn.
  now destruct (markets db !! id).
Qed.

(** ** Market status *)

Lemma settleMarket_sets_settled now winnerName m db db' :
  settleMarket now winnerName m db = (Ok tt, db') ->
  exists mk, markets db !! m = Some mk
             /\ markets db' = <[m := set_market_status SETTLED mk]> (markets db).
Proof.
  unfold settleMarket. intros H.
  apply bind_inv in H. destruct H as (mk' & d1 & H1 & H).
  rewrite market_update_run in H1.
  destruct (markets db !! m) as [mk|] eqn:Em; [|discriminate].
  inversion H1; subst mk' d1. clear H1.
  exists mk. split; [reflexivity|].
  assert (K : keeps markets
    (market_runners <- runner_findMany (fun r => String.eqb (r_marketId r) m) ;;
     forEach market_runners (fun runner =>
       runner_update (r_id runner)
         (set_isWinner (Some match winnerName with
                             | Some w => String.eqb (toLowerCase (r_name runner)) (toLowerCase w)
                             | None => false
                             end))) ;;;
     unsettledTrades <- trade_findMany_unsettled (map r_id market_runners) ;;
     forEach unsettledTrades (settleUnsettledTrade now) ;;;
     cancelOpenOrders m)).
  { unfold runner_findMany, trade_findMany_unsettled.
    apply keeps_bind; [apply keeps_get|intros rs].
    apply keeps_bind.
    { apply keeps_forEach. intros r. apply runner_update_keeps. reflexivity. }
    intros _. apply keeps_bind; [apply keeps_get|intros ts].
    apply keeps_bind.
    { apply keeps_forEach. intros t. apply settleUnsettledTrade_keeps_markets. }
    intros _. apply cancelOpenOrders_keeps_markets. }
  apply (keeps_ok _ _ _ _ _ K) in H. exact H.
Qed.

Lemma forceCloseMarketTx_sets_settled now m winners db r db' :
  forceCloseMarketTx now m winners db = (Ok r, db') ->
  exists mk, markets db !! m = Some mk /\ m_status mk <> SETTLED
             /\ exists mk', markets db' !! m = Some mk' /\ m_status mk' = SETTLED.
Proof.
  unfold forceCloseMarketTx. intros H.
  apply bind_inv in H. destruct H as (mo & d0 & H0 & H).
  inversion H0; subst mo d0. clear H0.
  destruct (markets db !! m) as [mk|] eqn:Em; [|discriminate].
  destruct (bool_decide (m_status mk = SETTLED)) eqn:Es; [discriminate|].
  apply bool_decide_eq_false in Es.
  exists mk. split; [reflexivity|]. split; [exact Es|].
  do 7 (apply bind_inv in H; destruct H as (? & ? & _ & H)).
  apply bind_inv in H. destruct H as (mk' & d & H1 & H).
  rewrite market_update_run in H1.
  match type of H1 with
  | match markets ?d0 !! m with _ => _ end = _ =>
      destruct (markets d0 !! m) as [mk2|]; [|discriminate]
  end.
  inversion H1; subst mk' d. clear H1.
  inversion H; subst.
  eexists. split; [apply lookup_insert_eq|reflexivity].
Qed.

Lemma mem_string_spec x l : mem_string x l = true <-> In x l.
Proof.
  unfold mem_string. rewrite existsb_exists. split.
  - intros (y & Hy & E). apply String.eqb_eq in E. now subst.
  - intros H. exists x. split; [exact H|apply String.eqb_refl].
Qed.

Lemma updateMarketStatus_known m db mk status s :
  markets db !! m = Some mk ->
  mem_string status ["OPEN"; "SUSPENDED"; "CLOSED"] = true ->
  market_status_of_string status = Some s ->
  updateMarketStatus m status db
  = (Ok (set_market_status s mk),
     set_markets (fun ms => <[m := set_market_status s mk]> ms) db).
Proof.
  intros Hm Hmem Hs. unfold updateMarketStatus. rewrite Hmem, Hs. cbn [negb].
  rewrite market_update_run, Hm. reflexivity.
Qed.

(** C7, as the code has it.  Three operations write the status of a
    market, and only force-close looks at the current one.
    [updateMarketStatus] sets whichever of OPEN, SUSPENDED, CLOSED is
    requested, from any current status, and rejects every other requested
    status with a 400 error that leaves the state unchanged.
    [forceCloseMarket] rejects a SETTLED market with a 400 error that leaves
    the state unchanged, and when it succeeds the market was not SETTLED
    and ends SETTLED.  The settlement service sets a market it settles to
    SETTLED directly. *)
Theorem market_status_writes (m : string) (db : DB) (mk : Market) :
  markets db !! m = Some mk ->
  (updateMarketStatus m "OPEN" db
     = (Ok (set_market_status MOPEN mk),
        set_markets (fun ms => <[m := set_market_status MOPEN mk]> ms) db)
   /\ updateMarketStatus m "SUSPENDED" db
     = (Ok (set_market_status SUSPENDED mk),
        set_markets (fun ms => <[m := set_market_status SUSPENDED mk]> ms) db)
   /\ updateMarketStatus m "CLOSED" db
     = (Ok (set_market_status CLOSED mk),
        set_markets (fun ms => <[m := set_market_status CLOSED mk]> ms) db))
  /\ (forall status, ~ In status ["OPEN"; "SUSPENDED"; "CLOSED"] ->
        updateMarketStatus m status db
        = (Throw (ApiError 400 StatusMustBeOpenSuspendedClosed), db))
  /\ (forall now winners,
        m_status mk = SETTLED ->
        forceCloseMarket now m winners db = (Throw (ApiError 400 MarketAlreadySettled), db))
  /\ (forall now winners r db',
        forceCloseMarket now m winners db = (Ok r, db') ->
        m_status mk <> SETTLED
        /\ exists mk', markets db' !! m = Some mk' /\ m_status mk' = SETTLED)
  /\ (forall now winnerName db',
        settleMarket now winnerName m db = (Ok tt, db') ->
        markets db' = <[m := set_market_status SETTLED mk]> (markets db)).
Proof.
  intros Hm. split; [|split; [|split; [|split]]].
  - repeat split; now apply updateMarketStatus_known.
  - intros status Hn. unfold updateMarketStatus.
    destruct (mem_string status ["OPEN"; "SUSPENDED"; "CLOSED"]) eqn:E; [|reflexivity].
    apply mem_string_spec in E. contradiction.
  - intros now winners Hs. unfold forceCloseMarket.
    apply transaction_throw with db. unfold forceCloseMarketTx.
    erewrite bind_ok; [|reflexivity]. rewrite Hm.
    now rewrite (proj2 (bool_decide_eq_true _) Hs).
  - intros now winners r db' H. unfold forceCloseMarket, transaction in H.
    destruct (forceCloseMarketTx now m winners db) as [[r'|e] d] eqn:E; [|discriminate].
    inversion H; subst r' d. clear H.
    apply forceCloseMarketTx_sets_settled in E.
    destruct E as (mk0 & Hm0 & Hns & Hfin).
    assert (mk0 = mk) by congruence. now subst.
  - intros now winnerName db' H. apply settleMarket_sets_settled in H.
    destruct H as (mk0 & Hm0 & Hfin). assert (mk0 = mk) by congruence. now subst.
Qed.

(** ** Force-close with no winner: marking the runners *)


Lemma runner_update_run id f db :
  runner_update id f db
  = match find (fun r => String.eqb (r_id r) id) (runners db) with
    | Some _ => (Ok tt, set_runners (update_runner id f) db)
    | None => (Throw RecordNotFound, db)
    end.
Proof.
  unfold runner_update, runner_findFirst, bind, get. cbn.
  now destruct (find (fun r => String.eqb (r_id r) id) (runners db)).
Qed.

(** What marking runners leaves alone. *)
Definition runners_frame (db db' : DB) : Prop :=
  wallets db' = wallets db /\ orders db' = orders db /\ trades db' = trades db.



(** ** Force-close: cancelling the open orders, refunding the trades *)

Fixpoint sum_over {A} (f : A -> Q) (l : list A) : Q :=
  match l with
  | [] => 0
  | x :: rest => f x + sum_over f rest
  end.

Lemma sum_over_ext {A} (f g : A -> Q) l :
  (forall x, In x l -> f x == g x) -> sum_over f l == sum_over g l.
Proof.
  induction l as [|x l IH]; intros H; cbn; [reflexivity|].
  rewrite (H x) by now left. rewrite IH; [reflexivity|].
  intros y Hy. apply H. now right.
Qed.


(** The owner of every order row is the same in [db] and [db']. *)
Definition owners_same (db db' : DB) : Prop :=
  forall id, option_map o_userId (find (fun o => Nat.eqb (o_id o) id) (orders db'))
             = option_map o_userId (find (fun o => Nat.eqb (o_id o) id) (orders db)).

Lemma owners_same_refl db db' : orders db' = orders db -> owners_same db db'.
Proof. intros H id. now rewrite H. Qed.

Lemma owners_same_trans db1 db2 db3 :
  owners_same db1 db2 -> owners_same db2 db3 -> owners_same db1 db3.
Proof. intros H1 H2 id. now rewrite H2, H1. Qed.

Lemma order_update_run id f db :
  order_update id f db
  = match find (fun o => Nat.eqb (o_id o) id) (orders db) with
    | Some o => (Ok (f o), set_orders (update_order id f) db)
    | None => (Throw RecordNotFound, db)
    end.
Proof.
  unfold order_update, order_findUniqueOrThrow, order_findFirst, bind, get. cbn.
  now destruct (find (fun o => Nat.eqb (o_id o) id) (orders db)).
Qed.

Definition release_for (o : Order) (v : string) : Q :=
  amount_for (o_userId o) (order_exposureToRelease o) v.

Lemma forceCloseOrder_inv m o db db' :
  forceCloseOrder m o db = (Ok tt, db') ->
  wallets_moved db db' (fun _ => 0) (release_for o)
  /\ trades db' = trades db /\ runners db' = runners db /\ owners_same db db'.
Proof.
  unfold forceCloseOrder. intros H.
  apply bind_inv in H. destruct H as (o1 & d1 & H1 & H).
  rewrite order_update_run in H1.
  destruct (find (fun x => Nat.eqb (o_id x) (o_id o)) (orders db)) as [o0|]; [|discriminate].
  inversion H1; subst o1 d1. clear H1.
  apply bind_inv in H. destruct H as (w1 & d2 & H2 & H).
  rewrite wallet_update_run in H2. cbn [wallets set_orders] in H2.
  destruct (wallets db !! o_userId o) as [w|] eqn:Ew; [|discriminate].
  inversion H2; subst w1 d2. clear H2.
  inversion H; subst db'. clear H.
  split; [|split; [reflexivity|split; [reflexivity|]]].
  - eapply released_moved; [exact Ew|reflexivity].
  - intros id. cbn [orders set_ledger set_marketExposures set_wallets set_orders].
    rewrite find_update_id by reflexivity.
    destruct (find (fun x => Nat.eqb (o_id x) id) (orders db)) as [x|]; [|reflexivity].
    cbn [option_map]. now destruct (Nat.eqb (o_id x) (o_id o)).
Qed.

Lemma forceCloseOrders_inv m os :
  forall db db',
    forEach os (forceCloseOrder m) db = (Ok tt, db') ->
    wallets_moved db db' (fun _ => 0) (fun v => sum_over (fun o => release_for o v) os)
    /\ trades db' = trades db /\ runners db' = runners db /\ owners_same db db'.
Proof.
  induction os as [|o os IH]; intros db db' H.
  - inversion H; subst. split; [now apply wallets_moved_refl|].
    split; [reflexivity|split; [reflexivity|now apply owners_same_refl]].
  - cbn [forEach] in H. apply bind_inv in H. destruct H as ([] & d1 & H1 & H).
    apply forceCloseOrder_inv in H1. destruct H1 as (Hm1 & Ht1 & Hr1 & Ho1).
    apply IH in H. destruct H as (Hm2 & Ht2 & Hr2 & Ho2).
    split; [|split; [congruence|split; [congruence|]]].
    + eapply wallets_moved_trans; [exact Hm1|exact Hm2| |]; intros v; cbn; lra.
    + now apply owners_same_trans with d1.
Qed.


(** ** Force-close: the trades and parties the refund is computed from *)

(** A joined trade as far as a refund looks at it: the trade row and the
    users of its back and lay orders. *)
Definition parties (tj : TradeJoined) : Trade * string * string :=
  (tj_trade tj, o_userId (tj_backOrder tj), o_userId (tj_layOrder tj)).



Lemma join_trade_parties db db' t :
  owners_same db db' ->
  (forall id, is_Some (find (fun r => String.eqb (r_id r) id) (runners db'))
              <-> is_Some (find (fun r => String.eqb (r_id r) id) (runners db))) ->
  option_map parties (join_trade db' t) = option_map parties (join_trade db t).
Proof.
  intros Ho Hr. unfold join_trade.
  pose proof (Ho (t_backOrderId t)) as Hb. pose proof (Ho (t_layOrderId t)) as Hl.
  pose proof (Hr (t_selectionId t)) as Hs.
  destruct (find _ (orders db')) as [b'|], (find _ (orders db)) as [b|];
    cbn in Hb; try discriminate; [|reflexivity].
  destruct (find _ (orders db')) as [l'|], (find _ (orders db)) as [l|];
    cbn in Hl; try discriminate; [|reflexivity].
  destruct (find _ (runners db')) as [s'|], (find _ (runners db)) as [s|].
  - cbn. unfold parties. cbn. congruence.
  - exfalso. destruct (proj1 Hs (ex_intro _ _ eq_refl)). discriminate.
  - exfalso. destruct (proj2 Hs (ex_intro _ _ eq_refl)). discriminate.
  - reflexivity.
Qed.

Lemma omap_parties db db' (l : list Trade) :
  (forall t, option_map parties (join_trade db' t) = option_map parties (join_trade db t)) ->
  map parties (omap (join_trade db') l) = map parties (omap (join_trade db) l).
Proof.
  intros H. induction l as [|t l IH]; cbn; [reflexivity|].
  specialize (H t).
  destruct (join_trade db' t) as [x|], (join_trade db t) as [y|]; cbn [option_map] in H;
    try discriminate.
  - assert (Hp : parties x = parties y) by congruence.
    cbn [map]. now rewrite Hp, IH.
  - exact IH.
Qed.

Lemma Forall_omap {A B} (f : A -> option B) (P : B -> Prop) (l : list A) :
  (forall x y, In x l -> f x = Some y -> P y) -> Forall P (omap f l).
Proof.
  induction l as [|x l IH]; intros H; cbn; [constructor|].
  destruct (f x) as [y|] eqn:E.
  - constructor; [apply (H x); [now left|exact E]|].
    apply IH. intros x' y' Hx'. apply H. now right.
  - apply IH. intros x' y' Hx'. apply H. now right.
Qed.


(** The runners of a market, the trades a refund looks at and the orders
    force-close cancels, as read in the state before the call. *)
Definition market_selections (m : string) (db : DB) : list string :=
  map r_id (List.filter (fun r => String.eqb (r_marketId r) m) (runners db)).

Definition refunded_trades (m : string) (db : DB) : list TradeJoined :=
  unsettled_trades (market_selections m db) db.

Definition cancelled_orders (m : string) (db : DB) : list Order :=
  List.filter (open_orders_of m) (orders db).



(** * Scenarios *)

(** Four funded users, one OPEN market with two runners, an empty book. *)
Definition exchange0 : DB :=
  mkDB (<["alice" := mkWallet 1000 0]>
         (<["bob" := mkWallet 1000 0]>
           (<["gina" := mkWallet 1000 0]>
             (<["hank" := mkWallet 1000 0]> ∅))))
       []
       (<["match1" := UPCOMING]> ∅)
       (<["mk" := mkMarket "match1" MOPEN]> ∅)
       [mkRunner "S" "mk" "Home" None; mkRunner "T" "mk" "Away" None]
       [] [] ∅.

(** Gina backs S at 2.00 for 100, Hank lays it: one trade, both MATCHED. *)
Definition gina_hank : DB :=
  snd (placeOrder 2 "hank" "mk" "S" LAY 2 100
         (snd (placeOrder 1 "gina" "mk" "S" BACK 2 100 exchange0))).

Definition gina_order : Order :=
  mkOrder 1 "gina" "mk" "S" BACK 2 100 100 0 MATCHED 100 1.
Definition hank_order : Order :=
  mkOrder 2 "hank" "mk" "S" LAY 2 100 (100 - 0) 0 MATCHED ((2 - 1) * 100) 2.

Example gina_hank_state :
  trades gina_hank = [mkTrade 1 1 2 "S" 2 100 false None]
  /\ map o_status (orders gina_hank) = [MATCHED; MATCHED]
  /\ map o_id (orders gina_hank) = map o_id [gina_order; hank_order]
  /\ map o_userId (orders gina_hank) = map o_userId [gina_order; hank_order]
  /\ exposure_of gina_hank "gina" == 100 /\ exposure_of gina_hank "hank" == 100
  /\ balance_of gina_hank "gina" == 1000 /\ balance_of gina_hank "hank" == 1000.
Proof. vm_compute. repeat split. Qed.



(** Bob's LAY at 2.50 for 100 rests alone in the book. *)
Definition bob_resting : DB :=
  snd (placeOrder 1 "bob" "mk" "S" LAY 2.5 100 exchange0).



(** C4.  The exposure records of a user, summed over the markets. *)
Definition market_exposure_total (db : DB) (u : string) : Q :=
  sum_over (fun ke : string * string * Q =>
              if String.eqb (fst (fst ke)) u then snd ke else 0)
           (map_to_list (marketExposures db)).

(** C4, at the failing input.  Alice places a BACK at 2.50 for 100 on the
    empty book: her wallet exposure becomes 100 while she has no exposure
    record at all, so the records sum to 0; cancelling the order brings the
    wallet back to 0 without touching any record either.  After Bob's
    resting LAY is matched, his wallet exposure is 150 and his records sum
    to 0. *)
Theorem placement_does_not_mirror_exposure :
  let db1 := snd (placeOrder 1 "alice" "mk" "S" BACK 2.5 100 exchange0) in
  let db2 := snd (placeOrder 2 "alice" "mk" "S" BACK 2.5 100 bob_resting) in
  fst (placeOrder 1 "alice" "mk" "S" BACK 2.5 100 exchange0)
    = Ok (mkPlaceResult (mkOrder 1 "alice" "mk" "S" BACK 2.5 100 (100 - 100) 100 OPEN 100 1)
            [] (100 - 100) 100 OPEN)
  /\ exposure_of db1 "alice" == 100
  /\ marketExposures db1 = ∅
  /\ market_exposure_total db1 "alice" == 0
  /\ ~ (exposure_of db1 "alice" == market_exposure_total db1 "alice")
  /\ exposure_of db2 "bob" == 150
  /\ market_exposure_total db2 "bob" == 0.
Proof.
  cbv zeta. split; [reflexivity|].
  split; [vm_compute; reflexivity|].
  split; [reflexivity|].
  split; [vm_compute; reflexivity|].
  split; [intros H; vm_compute in H; discriminate|].
  split; vm_compute; reflexivity.
Qed.



(** Alice's own LAY at 2.50 for 100 rests alone in the book. *)
Definition alice_resting : DB :=
  snd (placeOrder 1 "alice" "mk" "S" LAY 2.5 100 exchange0).

(** C6, counterexample.  Alice then places a BACK at 2.50 for 100 on the
    same selection: it is matched against her own resting LAY, and the
    trade references two orders of the same user. *)
Lemma incoming_matched_with_own_resting_order :
  let db' := snd (placeOrder 2 "alice" "mk" "S" BACK 2.5 100 alice_resting) in
  exists t b l,
    trades alice_resting = [] /\ trades db' = [t]
    /\ find (fun o => Nat.eqb (o_id o) (t_backOrderId t)) (orders db') = Some b
    /\ find (fun o => Nat.eqb (o_id o) (t_layOrderId t)) (orders db') = Some l
    /\ o_side b = BACK /\ o_side l = LAY
    /\ o_userId b = "alice" /\ o_userId l = "alice"
    /\ ~ (o_userId b <> o_userId l).
Proof.
  cbv zeta. eexists _, _, _.
  split; [vm_compute; reflexivity|].
  split; [vm_compute; reflexivity|].
  split; [vm_compute; reflexivity|].
  split; [vm_compute; reflexivity|].
  repeat split. intros H. now apply H.
Qed.

Lemma trades_pair_a_back_with_a_lay_witness :
  exists ts incoming,
    trades (snd (placeOrder 2 "alice" "mk" "S" BACK 2.5 100 bob_resting))
      = trades bob_resting ++ ts
    /\ length ts = 1%nat
    /\ o_side incoming = BACK /\ o_userId incoming = "alice".
Proof.
  destruct (trades_pair_a_back_with_a_lay 2 "alice" "mk" "S" BACK 2.5 100 bob_resting
              (snd (placeOrder 2 "alice" "mk" "S" BACK 2.5 100 bob_resting))
              (mkPlaceResult
                 (mkOrder 2 "alice" "mk" "S" BACK 2.5 100 (100 - (100 - 100)) (100 - 100)
                    MATCHED 100 2)
                 [mkTradeInfo 1 2.5 100] (100 - (100 - 100)) (100 - 100) MATCHED))
    as (ts & incoming & Htr & Hinfo & _ & Hside & Hu & _).
  - vm_compute. reflexivity.
  - exists ts, incoming. split; [exact Htr|]. split; [|now split].
    apply (f_equal (@length _)) in Hinfo. rewrite length_map in Hinfo.
    now rewrite <- Hinfo.
Defined.

(** A CLOSED market. *)
Definition closed_market : DB :=
  snd (updateMarketStatus "mk" "CLOSED" exchange0).

(** C7, counterexample.  A request to move the CLOSED market back to OPEN
    succeeds, and so does one to reopen a SETTLED market; the settlement
    service takes an OPEN market to SETTLED without any CLOSED state. *)
Lemma closed_market_can_be_reopened :
  m_status <$> (markets closed_market !! "mk") = Some CLOSED
  /\ fst (updateMarketStatus "mk" "OPEN" closed_market) = Ok (mkMarket "match1" MOPEN)
  /\ m_status <$> (markets (snd (updateMarketStatus "mk" "OPEN" closed_market)) !! "mk")
     = Some MOPEN
  /\ (let settled := snd (forceCloseMarket 3 "mk" [] closed_market) in
      m_status <$> (markets settled !! "mk") = Some SETTLED
      /\ m_status <$> (markets (snd (updateMarketStatus "mk" "OPEN" settled)) !! "mk")
         = Some MOPEN)
  /\ (m_status <$> (markets exchange0 !! "mk") = Some MOPEN
      /\ fst (settleMatch 3 "match1" (Some "Home") exchange0) = Ok tt
      /\ m_status <$> (markets (snd (settleMatch 3 "match1" (Some "Home") exchange0)) !! "mk")
         = Some SETTLED).
Proof. cbv zeta. repeat split; vm_compute; reflexivity. Qed.

Lemma market_status_writes_witness :
  updateMarketStatus "mk" "OPEN" closed_market
  = (Ok (mkMarket "match1" MOPEN),
     set_markets (fun ms => <["mk" := mkMarket "match1" MOPEN]> ms) closed_market).
Proof.
  destruct (market_status_writes "mk" closed_market (mkMarket "match1" CLOSED))
    as ((Hopen & _) & _).
  - vm_compute. reflexivity.
  - exact Hopen.
Defined.

(** A user with balance 50 and exposure 40, so 10 available. *)
Definition short_of_funds : DB :=
  set_wallets (fun ws => <["ivy" := mkWallet 50 40]> ws) exchange0.

Lemma failed_placement_changes_nothing_witness :
  placeOrder 1 "ivy" "mk" "S" LAY 3 10 short_of_funds
  = (Throw (ApiError 400 (InsufficientBalance ((3 - 1) * 10) (50 - 40))), short_of_funds)
  /\ placeOrder 1 "ivy" "mk" "S" LAY 3 10 closed_market
  = (Throw (ApiError 400 (MarketIs CLOSED)), closed_market).
Proof.
  split.
  - refine (proj2 (proj2 (failed_placement_changes_nothing 1 "ivy" "mk" "S" LAY 3 10
                            short_of_funds _ _)
                     (mkMarket "match1" MOPEN) (mkWallet 50 40) _ _ _ _ _)).
    + lra.
    + lra.
    + vm_compute. reflexivity.
    + reflexivity.
    + vm_compute. discriminate.
    + vm_compute. reflexivity.
    + cbn. lra.
  - refine (proj2 (proj1 (failed_placement_changes_nothing 1 "ivy" "mk" "S" LAY 3 10
                            closed_market _ _)
                     (mkMarket "match1" CLOSED) _ _)).
    + lra.
    + lra.
    + vm_compute. reflexivity.
    + discriminate.
Defined.


(** * Further properties of the engine and the order lifecycle *)

(** ** Stake accounting of one engine run *)

Lemma fills_sum side inc sel r rows ts r' :
  fills side inc sel r rows ts r' -> r' == r - sum_over t_stake ts.
Proof.
  induction 1 as [r|r row rows Hr|r row rows t ts r' Hr Hb Hl Hs Hp Hst Hset Hf IH];
    cbn; lra.
Qed.

Lemma fills_bounds side inc sel r rows ts r' :
  fills side inc sel r rows ts r' ->
  0 <= r -> Forall (fun row => 0 <= o_remainingStake row) rows ->
  0 <= r' /\ r' <= r /\ Forall (fun t => 0 <= t_stake t) ts.
Proof.
  induction 1 as [r|r row rows Hr|r row rows t ts r' Hr Hb Hl Hs Hp Hst Hset Hf IH];
    intros H0 Hrows.
  - repeat split; [exact H0|lra|constructor].
  - repeat split; [exact H0|lra|constructor].
  - inversion Hrows as [|? ? Hrow Hrows']; subst.
    assert (Hle : t_stake t <= r) by (rewrite Hst; apply Q.le_min_l).
    assert (Hge : 0 <= t_stake t) by (rewrite Hst; apply Q.min_glb; lra).
    destruct IH as (I1 & I2 & I3); [lra|exact Hrows'|].
    repeat split; [exact I1|lra|now constructor].
Qed.

Lemma resting_rows_sub side sel price os o :
  In o (resting_rows side sel price os) -> In o os.
Proof. intros H. now apply resting_rows_In in H. Qed.

(** X1.  One run of the engine for an incoming order: the matched stake it
    reports is the sum of the stakes of the trades it created, matched and
    remaining stake add up to the stake to match, and, when the stake to
    match and the remaining stakes of the resting orders are not negative,
    neither is the remaining stake, the matched stake or any trade stake:
    the incoming order is never filled beyond its stake. *)
Theorem engine_accounts_for_the_stake
    (side : OrderSide) (incoming : nat) (sel : string) (price stake : Q) (db : DB) :
  0 <= stake ->
  (forall o, In o (orders db) -> 0 <= o_remainingStake o) ->
  exists res ts db',
    match side with
    | BACK => matchBackOrder incoming sel price stake db
    | LAY => matchLayOrder incoming sel price stake db
    end = (Ok res, db')
    /\ trades db' = trades db ++ ts
    /\ mr_matchedStake res == sum_over t_stake ts
    /\ mr_matchedStake res + mr_remainingStake res == stake
    /\ 0 <= mr_remainingStake res /\ 0 <= mr_matchedStake res
    /\ Forall (fun t => 0 <= t_stake t /\ t_stake t <= stake) ts.
Proof.
  intros Hs Hrem.
  destruct (run_engine_run side incoming sel price stake db)
    as (res & ts & db' & Hrun & Htr & _ & Hf & Hm & _ & _).
  exists res, ts, db'. split; [destruct side; exact Hrun|]. split; [exact Htr|].
  pose proof (fills_sum _ _ _ _ _ _ _ Hf) as Hsum.
  destruct (fills_bounds _ _ _ _ _ _ _ Hf Hs) as (B1 & B2 & B3).
  { apply List.Forall_forall. intros row Hrow. apply Hrem.
    now apply resting_rows_sub in Hrow. }
  rewrite Hm. repeat split; try lra.
  assert (Htot : sum_over t_stake ts <= stake) by lra.
  clear - B3 Htot. induction ts as [|t ts IH]; [constructor|].
  inversion B3 as [|? ? Ht B3']; subst. cbn in Htot.
  assert (0 <= sum_over t_stake ts).
  { clear - B3'. induction ts as [|x ts IH]; cbn; [lra|].
    inversion B3'; subst. specialize (IH H2). lra. }
  constructor; [split; lra|]. apply IH; [exact B3'|lra].
Qed.

(** ** Priority: nobody is skipped *)

Lemma fills_by_position side inc sel r rows ts r' :
  fills side inc sel r rows ts r' ->
  forall i t, nth_error ts i = Some t ->
    exists row, nth_error rows i = Some row
      /\ t_price t = o_price row
      /\ t_backOrderId t = match side with BACK => inc | LAY => o_id row end
      /\ t_layOrderId t = match side with BACK => o_id row | LAY => inc end
      /\ ((S i < length ts)%nat -> t_stake t == o_remainingStake row).
Proof.
  induction 1 as [r|r row rows Hr|r row rows t ts r' Hr Hb Hl Hs Hp Hst Hset Hf IH];
    intros i t0 Hi.
  - destruct i; discriminate.
  - destruct i; discriminate.
  - destruct i as [|i]; cbn in Hi.
    + inversion Hi; subst t0. exists row. cbn. repeat split; try assumption.
      intros Hlen. destruct ts as [|t2 ts]; [cbn in Hlen; lia|].
      inversion Hf as [| |? ? ? ? ? ? Hr2]; subst.
      destruct (Q.min_spec r (o_remainingStake row)) as [[_ Hmin]|[_ Hmin]]; lra.
    + destruct (IH i t0 Hi) as (row' & Hrow' & H').
      exists row'. cbn. split; [exact Hrow'|].
      destruct H' as (H1 & H2 & H3 & H4). repeat split; try assumption.
      intros Hlen. apply H4. cbn in Hlen. lia.
Qed.

Lemma StronglySorted_nth {A} (R : A -> A -> Prop) l :
  StronglySorted R l ->
  forall i j a b, (i < j)%nat -> nth_error l i = Some a -> nth_error l j = Some b -> R a b.
Proof.
  induction 1 as [|x l Hs IH Hall]; intros i j a b Hij Hi Hj.
  - destruct i; discriminate.
  - destruct j as [|j]; [lia|]. cbn in Hj. destruct i as [|i]; cbn in Hi.
    + inversion Hi; subst. rewrite List.Forall_forall in Hall. apply Hall.
      eapply nth_error_In, Hj.
    + apply (IH i j); [lia|exact Hi|exact Hj].
Qed.

(** Who goes first among the resting orders, for an incoming [side]. *)
Definition has_priority (side : OrderSide) : Order -> Order -> Prop :=
  match side with
  | BACK => lowest_price_then_oldest
  | LAY => highest_price_then_oldest
  end.

Lemma resting_rows_sorted side sel price os :
  StronglySorted (has_priority side) (resting_rows side sel price os).
Proof. destruct side; [apply lay_rows_sorted|apply back_rows_sorted]. Qed.

(** X2.  Price-time priority as seen from a trade.  In one engine run the
    i-th trade is made with the i-th candidate, at that candidate's price.
    So when a resting order [b] gets a trade, every candidate [a] placed
    before it by the ordering (better price, or equal price and not
    younger) got a trade too, and that trade took the whole remaining stake
    of [a]: no candidate is skipped or left partly filled in favour of a
    later one. *)
Theorem better_candidates_are_filled_first
    (side : OrderSide) (incoming : nat) (sel : string) (price stake : Q) (db : DB) :
  let rows := resting_rows side sel price (orders db) in
  exists res ts db',
    match side with
    | BACK => matchBackOrder incoming sel price stake db
    | LAY => matchLayOrder incoming sel price stake db
    end = (Ok res, db')
    /\ trades db' = trades db ++ ts
    /\ (forall j b tb,
          nth_error rows j = Some b -> nth_error ts j = Some tb ->
          t_price tb = o_price b
          /\ (match side with
              | BACK => t_backOrderId tb = incoming /\ t_layOrderId tb = o_id b
              | LAY => t_backOrderId tb = o_id b /\ t_layOrderId tb = incoming
              end)
          /\ forall i a,
               (i < j)%nat -> nth_error rows i = Some a ->
               has_priority side a b
               /\ exists ta, nth_error ts i = Some ta
                             /\ t_stake ta == o_remainingStake a).
Proof.
  cbv zeta.
  destruct (run_engine_run side incoming sel price stake db)
    as (res & ts & db' & Hrun & Htr & _ & Hf & _ & _ & _).
  exists res, ts, db'. split; [destruct side; exact Hrun|]. split; [exact Htr|].
  intros j b tb Hb Htb.
  destruct (fills_by_position _ _ _ _ _ _ _ Hf j tb Htb) as (row & Hrow & Hp & Hbk & Hly & _).
  assert (row = b) by congruence. subst row.
  split; [exact Hp|]. split; [destruct side; now split|].
  intros i a Hij Ha.
  split; [eapply StronglySorted_nth; [apply resting_rows_sorted|exact Hij|exact Ha|exact Hb]|].
  assert (Hj : (j < length ts)%nat) by (apply nth_error_Some; congruence).
  assert (Hlen : (i < length ts)%nat) by lia.
  destruct (nth_error ts i) as [ta|] eqn:Eta.
  2:{ apply nth_error_None in Eta. lia. }
  exists ta. split; [reflexivity|].
  destruct (fills_by_position _ _ _ _ _ _ _ Hf i ta Eta) as (row & Hra & _ & _ & _ & Hfull).
  assert (row = a) by congruence. subst row.
  apply Hfull. lia.
Qed.

(** ** The order invariant *)

(** What an order row must satisfy: matched and remaining stake are not
    negative and add up to the stake, and the status tells where the fill
    stands. *)
Definition order_ok (o : Order) : Prop :=
  o_matchedStake o + o_remainingStake o == o_stake o
  /\ 0 <= o_matchedStake o /\ 0 <= o_remainingStake o
  /\ match o_status o with
     | OPEN => o_matchedStake o == 0 /\ 0 < o_remainingStake o
     | PARTIAL => 0 < o_matchedStake o /\ 0 < o_remainingStake o
     | MATCHED => o_remainingStake o == 0
     | CANCELLED => True
     end.

(** The order table after the candidate loop has walked [rows] with [r] of
    the incoming stake left. *)
Fixpoint fill_rows (rows : list Order) (r : Q) (os : list Order) : list Order :=
  match rows with
  | [] => os
  | row :: rest =>
      if Dec.lte r 0 then os
      else
        match find (fun o => Nat.eqb (o_id o) (o_id row)) os with
        | Some o =>
            let ts := tradeStake_of r (o_remainingStake row) in
            fill_rows rest (r - ts)
              (update_order (o_id row) (filled (candidate_of row) ts o) os)
        | None => os
        end
  end.

Lemma matchBackLoop_orders inc sel rows :
  forall db r acc,
    rows_present rows db ->
    orders (snd (matchBackLoop inc sel (map candidate_of rows) r acc db))
    = fill_rows rows r (orders db).
Proof.
  induction rows as [|row rows IH]; intros db r acc Hp; [reflexivity|].
  cbn [map matchBackLoop fill_rows].
  destruct (Dec.lte r 0); [reflexivity|].
  inversion Hp as [|? ? [o Ho] Hp']; subst.
  rewrite (bind_ok _ _ _ _ _ (matchBackStep_eq inc sel (candidate_of row) r db o Ho)).
  cbn [fst snd]. rewrite IH.
  - rewrite Ho. reflexivity.
  - eapply rows_present_kept; [apply after_step_orders_kept|exact Hp'].
Qed.

Lemma matchLayLoop_orders inc sel rows :
  forall db r acc,
    rows_present rows db ->
    orders (snd (matchLayLoop inc sel (map candidate_of rows) r acc db))
    = fill_rows rows r (orders db).
Proof.
  induction rows as [|row rows IH]; intros db r acc Hp; [reflexivity|].
  cbn [map matchLayLoop fill_rows].
  destruct (Dec.lte r 0); [reflexivity|].
  inversion Hp as [|? ? [o Ho] Hp']; subst.
  rewrite (bind_ok _ _ _ _ _ (matchLayStep_eq inc sel (candidate_of row) r db o Ho)).
  cbn [fst snd]. rewrite IH.
  - rewrite Ho. reflexivity.
  - eapply rows_present_kept; [apply after_step_orders_kept|exact Hp'].
Qed.

Lemma run_engine_orders side inc sel price stake db :
  orders (snd (run_engine side inc sel price stake db))
  = fill_rows (resting_rows side sel price (orders db)) stake (orders db).
Proof.
  destruct side; cbn [run_engine resting_rows].
  - unfold matchBackOrder, query_lay_candidates.
    erewrite bind_ok; [|reflexivity].
    pose proof (matchBackLoop_orders inc sel (lay_rows sel price (orders db)) db stake []) as H.
    unfold bind.
    destruct (matchBackLoop inc sel (map candidate_of (lay_rows sel price (orders db)))
                stake [] db) as [[x|e] d]; cbn in *; apply H;
      apply rows_present_sub; intros o Ho; now apply lay_rows_In in Ho.
  - unfold matchLayOrder, query_back_candidates.
    erewrite bind_ok; [|reflexivity].
    pose proof (matchLayLoop_orders inc sel (back_rows sel price (orders db)) db stake []) as H.
    unfold bind.
    destruct (matchLayLoop inc sel (map candidate_of (back_rows sel price (orders db)))
                stake [] db) as [[x|e] d]; cbn in *; apply H;
      apply rows_present_sub; intros o Ho; now apply back_rows_In in Ho.
Qed.

Lemma update_order_ids id f os :
  (forall o, o_id (f o) = o_id o) -> map o_id (update_order id f os) = map o_id os.
Proof.
  intros Hf. unfold update_order. rewrite map_map. apply map_ext.
  intros o. destruct (Nat.eqb (o_id o) id); [apply Hf|reflexivity].
Qed.

Lemma unique_by_id os x y :
  List.NoDup (map o_id os) -> In x os -> In y os -> o_id x = o_id y -> x = y.
Proof.
  induction os as [|o os IH]; intros Hnd Hx Hy Heq; [destruct Hx|].
  cbn in Hnd. inversion Hnd as [|? ? Hnotin Hnd']; subst.
  destruct Hx as [->|Hx], Hy as [->|Hy].
  - reflexivity.
  - exfalso. apply Hnotin. rewrite Heq. now apply in_map.
  - exfalso. apply Hnotin. rewrite <- Heq. now apply in_map.
  - now apply IH.
Qed.

Lemma find_unique os x :
  List.NoDup (map o_id os) -> In x os ->
  find (fun o => Nat.eqb (o_id o) (o_id x)) os = Some x.
Proof.
  intros Hnd Hx. destruct (In_find_id x os Hx) as [y Hy].
  rewrite Hy. f_equal. apply find_id_In in Hy. destruct Hy as [Hy Hid].
  now apply (unique_by_id os).
Qed.

Lemma filled_ok r row :
  0 < r -> order_ok row -> is_open_or_partial (o_status row) = true ->
  order_ok (filled (candidate_of row) (tradeStake_of r (o_remainingStake row)) row row).
Proof.
  intros Hr (Hsum & Hm & Hrem & Hst) Hopen.
  assert (Hpos : 0 < o_remainingStake row).
  { destruct (o_status row); try discriminate; tauto. }
  pose proof (tradeStake_of_min r (o_remainingStake row)) as Hts.
  pose proof (Q.le_min_l r (o_remainingStake row)) as Hl.
  pose proof (Q.le_min_r r (o_remainingStake row)) as Hrr.
  assert (Hlt : 0 < Qmin r (o_remainingStake row)).
  { destruct (Q.min_spec r (o_remainingStake row)) as [[_ E]|[_ E]]; lra. }
  set (ts := tradeStake_of r (o_remainingStake row)) in *.
  unfold order_ok, filled, fill_candidate. cbn.
  repeat split; try lra.
  destruct (Dec.lte (o_remainingStake row - ts) 0) eqn:E.
  - apply Dec.lte_true in E. lra.
  - apply Dec.lte_false in E. split; lra.
Qed.

Lemma fill_rows_keeps rows :
  forall r os,
    List.NoDup (map o_id os) -> Forall order_ok os -> List.NoDup (map o_id rows) ->
    (forall row, In row rows -> In row os /\ is_open_or_partial (o_status row) = true) ->
    List.NoDup (map o_id (fill_rows rows r os)) /\ Forall order_ok (fill_rows rows r os).
Proof.
  induction rows as [|row rows IH]; intros r os Hnd Hok Hrnd Hrows; [now split|].
  cbn [fill_rows]. destruct (Dec.lte r 0) eqn:Er; [now split|].
  apply Dec.lte_false in Er.
  destruct (Hrows row (or_introl eq_refl)) as [Hin Hopen].
  rewrite (find_unique os row Hnd Hin).
  cbn in Hrnd. inversion Hrnd as [|? ? Hnotin Hrnd']; subst.
  apply IH.
  - rewrite update_order_ids by reflexivity. exact Hnd.
  - unfold update_order. apply List.Forall_forall. intros y Hy.
    apply in_map_iff in Hy. destruct Hy as (x & <- & Hx).
    rewrite List.Forall_forall in Hok.
    destruct (Nat.eqb (o_id x) (o_id row)) eqn:E; [|now apply Hok].
    apply Nat.eqb_eq in E.
    assert (x = row) by now apply (unique_by_id os). subst x.
    apply filled_ok; [exact Er|now apply Hok|exact Hopen].
  - exact Hrnd'.
  - intros row' Hrow'. destruct (Hrows row' (or_intror Hrow')) as [Hin' Hopen'].
    split; [|exact Hopen'].
    unfold update_order. apply in_map_iff. exists row'. split; [|exact Hin'].
    destruct (Nat.eqb (o_id row') (o_id row)) eqn:E; [|reflexivity].
    apply Nat.eqb_eq in E. exfalso. apply Hnotin. rewrite <- E. now apply in_map.
Qed.

Lemma NoDup_ids_filter (f : Order -> bool) os :
  List.NoDup (map o_id os) -> List.NoDup (map o_id (List.filter f os)).
Proof.
  induction os as [|o os IH]; intros H; cbn; [constructor|].
  cbn in H. inversion H as [|? ? Hnotin H']; subst.
  destruct (f o); [|now apply IH].
  cbn. constructor; [|now apply IH].
  intros Hin. apply Hnotin. apply in_map_iff in Hin. destruct Hin as (x & Hx & Hin).
  apply filter_In in Hin. rewrite <- Hx. apply in_map. tauto.
Qed.

Lemma NoDup_ids_resting side sel price os :
  List.NoDup (map o_id os) -> List.NoDup (map o_id (resting_rows side sel price os)).
Proof.
  intros H.
  destruct side; cbn [resting_rows]; unfold lay_rows, back_rows;
    (eapply Permutation_NoDup;
     [apply Permutation_map; symmetry; apply order_by_perm
     |now apply NoDup_ids_filter]).
Qed.

Lemma NoDup_ids_snoc os o :
  List.NoDup (map o_id os) -> (forall x, In x os -> o_id x <> o_id o) ->
  List.NoDup (map o_id (os ++ [o])).
Proof.
  induction os as [|y os IH]; intros H Hn; cbn.
  - constructor; [intros []|constructor].
  - cbn in H. inversion H as [|? ? Hnotin H']; subst. constructor.
    + rewrite map_app, in_app_iff. intros [Hin|[Hin|[]]]; [now apply Hnotin|].
      apply (Hn y); [now left|now symmetry].
    + apply IH; [exact H'|]. intros x Hx. apply Hn. now right.
Qed.

Lemma placed_order_ok now u m sel side price stake db :
  0 < stake -> order_ok (placed_order now u m sel side price stake db).
Proof. intros H. unfold order_ok. cbn. repeat split; lra. Qed.

Lemma final_fill_ok stake (mres : MatchResult) o :
  mr_matchedStake mres = stake - mr_remainingStake mres ->
  0 <= mr_remainingStake mres -> mr_remainingStake mres <= stake ->
  o_stake o = stake ->
  order_ok (set_fill (mr_matchedStake mres) (mr_remainingStake mres) (final_status mres) o).
Proof.
  intros Hm H0 H1 Hs. unfold order_ok, set_fill, final_status, Dec.gt. cbn.
  rewrite Hs, Hm. repeat split; try lra.
  destruct (Dec.lte (mr_remainingStake mres) 0) eqn:E1.
  - apply Dec.lte_true in E1. lra.
  - apply Dec.lte_false in E1.
    destruct (Dec.lt 0 (stake - mr_remainingStake mres)) eqn:E2.
    + apply Dec.lt_true in E2. split; lra.
    + apply Dec.lt_false in E2. split; lra.
Qed.

(** X3.  Placement and cancellation keep the order table well formed.  If
    the order ids are distinct and every order has non-negative matched and
    remaining stakes that add up to its stake, with a status that agrees
    with its fill (OPEN: nothing matched, something remaining; PARTIAL:
    something of both; MATCHED: nothing remaining), then the same holds
    after [placeOrder], for the new order and for every resting order the
    engine filled, and after [cancelOrder]. *)
Theorem place_and_cancel_keep_orders_well_formed
    (now : nat) (u m sel : string) (side : OrderSide) (price stake : Q)
    (orderId : nat) (db : DB) :
  List.NoDup (map o_id (orders db)) -> Forall order_ok (orders db) ->
  (let db' := snd (placeOrder now u m sel side price stake db) in
   List.NoDup (map o_id (orders db')) /\ Forall order_ok (orders db'))
  /\ (let db' := snd (cancelOrder u orderId db) in
      List.NoDup (map o_id (orders db')) /\ Forall order_ok (orders db')).
Proof.
  intros Hnd Hok. split; cbv zeta.
  - destruct (placeOrder_cases now u m sel side price stake db)
      as [(e & He)|(res & db' & Hr & Hs & Hp & Ha)]; [rewrite He; now split|].
    rewrite Hr. cbn [snd].
    destruct Ha as [mk w mres ts db2 res Hm Hst Hrn Hw Hl Heng Htr Hf Hfr Hk _ _ _ _ _].
    set (po := placed_order now u m sel side price stake db) in *.
    set (oid := fresh_id (map o_id (orders db))) in *.
    set (db1 := placed now u m sel side price stake w db) in *.
    assert (Hfresh : forall x, In x (orders db) -> o_id x <> oid).
    { intros x Hx Heq.
      pose proof (fresh_id_gt (map o_id (orders db)) (o_id x) (in_map o_id _ _ Hx)).
      unfold oid in Heq. lia. }
    assert (Hnd1 : List.NoDup (map o_id (orders db1))) by now apply NoDup_ids_snoc.
    assert (Hok1 : Forall order_ok (orders db1)).
    { apply List.Forall_forall. intros x Hx. apply in_app_or in Hx.
      rewrite List.Forall_forall in Hok.
      destruct Hx as [Hx|[<-|[]]]; [now apply Hok|now apply placed_order_ok]. }
    pose proof (run_engine_orders side oid sel price stake db1) as Hos.
    rewrite Heng in Hos. cbn [snd] in Hos.
    destruct (fill_rows_keeps (resting_rows side sel price (orders db1)) stake (orders db1)
                Hnd1 Hok1) as [Hnd2 Hok2].
    { now apply NoDup_ids_resting. }
    { intros row Hrow. apply resting_rows_In in Hrow.
      destruct Hrow as (Hin & _ & _ & Hstat). split; [exact Hin|].
      now apply is_open_or_partial_spec. }
    rewrite <- Hos in Hnd2, Hok2.
    destruct (run_engine_run side oid sel price stake db1)
      as (mres' & ts' & db2' & Hrun' & _ & _ & Hf' & Hm' & _ & _).
    rewrite Heng in Hrun'. inversion Hrun'; subst mres' db2'. clear Hrun'.
    destruct (fills_bounds _ _ _ _ _ _ _ Hf') as (B1 & B2 & _); [lra| |].
    { apply List.Forall_forall. intros row Hrow. apply resting_rows_sub in Hrow.
      rewrite List.Forall_forall in Hok1. now apply Hok1. }
    destruct (Hk _ _ (placed_order_found now u m sel side price stake w db))
      as (o2 & Ho2 & Hsame).
    cbn [orders set_orders]. split.
    + rewrite update_order_ids by reflexivity. exact Hnd2.
    + unfold update_order. apply List.Forall_forall. intros y Hy.
      apply in_map_iff in Hy. destruct Hy as (x & <- & Hx).
      rewrite List.Forall_forall in Hok2.
      destruct (Nat.eqb (o_id x) oid) eqn:E; [|now apply Hok2].
      apply Nat.eqb_eq in E. apply find_id_In in Ho2. destruct Ho2 as [Hin2 Hid2].
      assert (x = o2).
      { apply (unique_by_id (orders db2)); [exact Hnd2|exact Hx|exact Hin2|].
        rewrite E, Hid2. reflexivity. }
      subst x.
      apply final_fill_ok with stake; try assumption.
      destruct Hsame as (_ & _ & _ & _ & _ & _ & Hstake). exact Hstake.
  - destruct (cancelOrder_cases u orderId db) as [(e & He)|(order & w & _ & _ & _ & Hr)];
      [rewrite He; now split|].
    rewrite Hr. cbn [snd cancelled orders set_ledger set_wallets set_orders]. split.
    + rewrite update_order_ids by reflexivity. exact Hnd.
    + unfold update_order. apply List.Forall_forall. intros y Hy.
      apply in_map_iff in Hy. destruct Hy as (x & <- & Hx).
      rewrite List.Forall_forall in Hok. specialize (Hok x Hx).
      destruct (Nat.eqb (o_id x) (o_id order)); [|exact Hok].
      destruct Hok as (H1 & H2 & H3 & _). unfold order_ok. cbn. tauto.
Qed.

(** ** Wallets under placement *)




(** ** Cancellation: rejections, effect, no second time *)


(** X5.  What [cancelOrder] refuses.  An order id that does not exist or
    belongs to another user gives 404; an order that is MATCHED or
    CANCELLED gives 400; and when the owner has no wallet the update of the
    wallet throws after the order was already marked, and the transaction
    rolls that back.  In all three cases the state after the call is the
    state before it. *)
Theorem cancel_rejections_change_nothing (u : string) (orderId : nat) (db : DB) :
  (find (owned_order orderId u) (orders db) = None ->
     cancelOrder u orderId db = (Throw (ApiError 404 OrderNotFound), db))
  /\ (forall order,
        find (owned_order orderId u) (orders db) = Some order ->
        o_status order = MATCHED \/ o_status order = CANCELLED ->
        cancelOrder u orderId db = (Throw (ApiError 400 (CannotCancel (o_status order))), db))
  /\ (forall order,
        find (owned_order orderId u) (orders db) = Some order ->
        o_status order = OPEN \/ o_status order = PARTIAL ->
        wallets db !! u = None ->
        cancelOrder u orderId db = (Throw RecordNotFound, db)
        /\ snd (cancelOrderTx u orderId db)
           = set_orders (update_order (o_id order) (set_status CANCELLED)) db).
Proof.
  split; [|split].
  - intros Hf. unfold cancelOrder. apply transaction_throw with db.
    unfold cancelOrderTx. erewrite bind_ok; [|reflexivity].
    fold (owned_order orderId u). now rewrite Hf.
  - intros order Hf Hs. unfold cancelOrder. apply transaction_throw with db.
    unfold cancelOrderTx. erewrite bind_ok; [|reflexivity].
    fold (owned_order orderId u). rewrite Hf.
    now destruct Hs as [-> | ->].
  - intros order Hf Hs Hw.
    assert (Hrun : cancelOrderTx u orderId db
                   = (Throw RecordNotFound,
                      set_orders (update_order (o_id order) (set_status CANCELLED)) db)).
    { unfold cancelOrderTx. erewrite bind_ok; [|reflexivity].
      fold (owned_order orderId u). rewrite Hf.
      rewrite (proj2 (is_open_or_partial_spec _) Hs). cbn [negb].
      destruct (find_owned_by_id _ _ _ _ Hf) as [o' Ho'].
      tx_step order_update_eq Ho'.
      erewrite bind_throw; [reflexivity|]. eapply wallet_update_none. exact Hw. }
    split; [|now rewrite Hrun].
    unfold cancelOrder. now apply transaction_throw with (db' := set_orders
      (update_order (o_id order) (set_status CANCELLED)) db).
Qed.


(** ** After a force-close *)

Definition mem_id (id : nat) (ids : list nat) : bool := existsb (Nat.eqb id) ids.

Lemma mem_id_spec id ids : mem_id id ids = true <-> In id ids.
Proof.
  unfold mem_id. rewrite existsb_exists. split.
  - intros (y & Hy & E). apply Nat.eqb_eq in E. now subst.
  - intros H. exists id. split; [exact H|apply Nat.eqb_refl].
Qed.

(** Updating the rows of each key of [ids] in turn, with an idempotent
    update that keeps the key, is one pass over the table. *)
Lemma updates_by_key {A} (key : A -> nat) (f : A -> A) (ids : list nat) :
  (forall a, key (f a) = key a) -> (forall a, f (f a) = f a) ->
  forall l,
    fold_left (fun acc id => map (fun a => if Nat.eqb (key a) id then f a else a) acc) ids l
    = map (fun a => if mem_id (key a) ids then f a else a) l.
Proof.
  intros Hk Hf. induction ids as [|id ids IH]; intros l; cbn [fold_left].
  - unfold mem_id. cbn. now rewrite map_id.
  - rewrite IH, map_map. apply map_ext. intros a. unfold mem_id. cbn [existsb].
    destruct (Nat.eqb (key a) id) eqn:E; cbn [orb].
    + rewrite Hk. destruct (existsb (Nat.eqb (key a)) ids); [apply Hf|reflexivity].
    + reflexivity.
Qed.

Lemma fold_left_map_ids {A B} (g : B -> nat) (step : list A -> nat -> list A) (bs : list B) l :
  fold_left (fun acc b => step acc (g b)) bs l = fold_left step (map g bs) l.
Proof. revert l. induction bs as [|b bs IH]; intros l; cbn; [reflexivity|apply IH]. Qed.

Lemma forceCloseOrders_orders m os :
  forall db db',
    forEach os (forceCloseOrder m) db = (Ok tt, db') ->
    orders db' = map (fun o => if mem_id (o_id o) (map o_id os)
                               then set_status CANCELLED o else o) (orders db).
Proof.
  intros db db' H.
  rewrite <- (updates_by_key o_id (set_status CANCELLED)) by reflexivity.
  rewrite <- (fold_left_map_ids o_id
                (fun acc id => map (fun a => if Nat.eqb (o_id a) id
                                             then set_status CANCELLED a else a) acc)).
  revert db db' H. induction os as [|o os IH]; intros db db' H.
  - now inversion H.
  - cbn [forEach] in H. apply bind_inv in H. destruct H as ([] & d1 & H1 & H).
    cbn [fold_left]. rewrite (IH _ _ H). f_equal.
    clear - H1. unfold forceCloseOrder in H1.
    apply bind_inv in H1. destruct H1 as (o1 & d & H1 & H).
    rewrite order_update_run in H1.
    destruct (find (fun x => Nat.eqb (o_id x) (o_id o)) (orders db)); [|discriminate].
    inversion H1; subst o1 d. clear H1.
    apply bind_inv in H. destruct H as (w1 & d2 & H2 & H).
    rewrite wallet_update_run in H2.
    destruct (wallets _ !! o_userId o); [|discriminate].
    inversion H2; subst w1 d2. inversion H; subst d1. reflexivity.
Qed.

Lemma forceCloseTrades_trades now ts :
  forall db db',
    forEach ts (forceCloseTrade now) db = (Ok tt, db') ->
    settle_frame db db'
    /\ trades db' = map (fun t => if mem_id (t_id t) (map (fun tj => t_id (tj_trade tj)) ts)
                                  then mark_settled now t else t) (trades db).
Proof.
  intros db db' H.
  rewrite <- (updates_by_key t_id (mark_settled now)) by reflexivity.
  rewrite <- (fold_left_map_ids (fun tj => t_id (tj_trade tj))
                (fun acc id => map (fun a => if Nat.eqb (t_id a) id
                                             then mark_settled now a else a) acc)).
  revert db db' H. induction ts as [|tj ts IH]; intros db db' H.
  - inversion H. split; [now repeat split|reflexivity].
  - cbn [forEach] in H. apply bind_inv in H. destruct H as ([] & d1 & H1 & H).
    pose proof (forceCloseTrade_spec tj now db) as Hspec. rewrite H1 in Hspec.
    destruct Hspec as (_ & Hfr1 & Ht1).
    destruct (IH _ _ H) as (Hfr2 & Ht2).
    split; [now apply settle_frame_trans with d1|].
    cbn [fold_left]. rewrite Ht2, Ht1. reflexivity.
Qed.

Lemma mark_runners_keys (w : Runner -> option bool) rs :
  forall db db',
    forEach rs (fun sel => runner_update (r_id sel) (set_isWinner (w sel))) db = (Ok tt, db') ->
    runners_frame db db'
    /\ markets db' = markets db
    /\ map (fun r => (r_id r, r_marketId r)) (runners db')
       = map (fun r => (r_id r, r_marketId r)) (runners db).
Proof.
  induction rs as [|sel rs IH]; intros db db' H.
  - inversion H; subst. now repeat split.
  - cbn [forEach] in H. apply bind_inv in H. destruct H as ([] & d1 & H1 & H).
    rewrite runner_update_run in H1.
    destruct (find (fun r => String.eqb (r_id r) (r_id sel)) (runners db)); [|discriminate].
    inversion H1; subst d1. clear H1.
    apply IH in H. destruct H as ((Hw & Ho & Ht) & Hm & Hk).
    split; [now repeat split|]. split; [exact Hm|].
    rewrite Hk. cbn [runners set_runners]. unfold update_runner. rewrite map_map.
    apply map_ext. intros rn. now destruct (String.eqb (r_id rn) (r_id sel)).
Qed.

Lemma find_runner_keys id rs rs' :
  map (fun r => (r_id r, r_marketId r)) rs' = map (fun r => (r_id r, r_marketId r)) rs ->
  is_Some (find (fun r => String.eqb (r_id r) id) rs')
  <-> is_Some (find (fun r => String.eqb (r_id r) id) rs).
Proof.
  revert rs'. induction rs as [|rn rs IH]; intros [|rn' rs'] H; try discriminate.
  - reflexivity.
  - cbn in H. inversion H as [[Hid Hm Hrest]]. cbn. rewrite Hid.
    destruct (String.eqb (r_id rn) id); [split; eauto|now apply IH].
Qed.

Lemma market_selections_keys m db db' :
  map (fun r => (r_id r, r_marketId r)) (runners db')
  = map (fun r => (r_id r, r_marketId r)) (runners db) ->
  market_selections m db' = market_selections m db.
Proof.
  unfold market_selections. generalize (runners db') as rs'. generalize (runners db) as rs.
  induction rs as [|rn rs IH]; intros [|rn' rs'] H; try discriminate; [reflexivity|].
  cbn in H. inversion H as [[Hid Hm Hrest]]. cbn. rewrite Hm.
  destruct (String.eqb (r_marketId rn) m); cbn; [rewrite Hid; f_equal|]; now apply IH.
Qed.

Definition runner_keys (db : DB) : list (string * string) :=
  map (fun r => (r_id r, r_marketId r)) (runners db).

Lemma join_trade_trade db t tj : join_trade db t = Some tj -> tj_trade tj = t.
Proof.
  unfold join_trade. intros H.
  destruct (find _ (orders db)); [|discriminate].
  destruct (find _ (orders db)); [|discriminate].
  destruct (find _ (runners db)); [|discriminate].
  now inversion H.
Qed.

(** What a successful force-close has done to the order and trade tables,
    in terms of the state before the call. *)
Lemma forceCloseMarketTx_tables now m winners db r db' :
  forceCloseMarketTx now m winners db = (Ok r, db') ->
  r = (length (cancelled_orders m db), length (refunded_trades m db))
  /\ orders db'
     = map (fun o => if mem_id (o_id o) (map o_id (cancelled_orders m db))
                     then set_status CANCELLED o else o) (orders db)
  /\ trades db'
     = map (fun t => if mem_id (t_id t)
                          (map (fun tj => t_id (tj_trade tj)) (refunded_trades m db))
                     then mark_settled now t else t) (trades db)
  /\ runner_keys db' = runner_keys db
  /\ owners_same db db'.
Proof.
  unfold forceCloseMarketTx. intros H.
  apply bind_inv in H. destruct H as (mo & d0 & H0 & H).
  inversion H0; subst mo d0. clear H0.
  destruct (markets db !! m) as [mk|] eqn:Em; [|discriminate].
  destruct (bool_decide (m_status mk = SETTLED)); [discriminate|].
  apply bind_inv in H. destruct H as (rs & d0 & H0 & H).
  inversion H0; subst rs d0. clear H0.
  apply bind_inv in H. destruct H as (mk1 & d1 & H1 & H).
  rewrite market_update_run, Em in H1. inversion H1; subst mk1 d1. clear H1.
  apply bind_inv in H. destruct H as ([] & d2 & H2 & H).
  apply (mark_runners_keys
           (fun sel => if Nat.ltb 0 (length winners)
                       then Some (mem_string (r_id sel) winners) else None)) in H2.
  destruct H2 as ((Hw2 & Ho2 & Ht2) & _ & Hk2).
  cbn [wallets orders trades runners set_markets] in Hw2, Ho2, Ht2, Hk2.
  apply bind_inv in H. destruct H as (os & d2' & H3 & H).
  inversion H3; subst os d2'. clear H3.
  apply bind_inv in H. destruct H as ([] & d3 & H3 & H).
  pose proof (forceCloseOrders_orders _ _ _ _ H3) as Horders3.
  apply forceCloseOrders_inv in H3. destruct H3 as (_ & Ht3 & Hr3 & Hown3).
  apply bind_inv in H. destruct H as (ts & d3' & H4 & H).
  inversion H4; subst ts d3'. clear H4.
  apply bind_inv in H. destruct H as ([] & d4 & H4 & H).
  apply forceCloseTrades_trades in H4. destruct H4 as ((Ho4 & Hr4 & _ & _) & Ht4).
  apply bind_inv in H. destruct H as (mk5 & d5 & H5 & H).
  rewrite market_update_run in H5.
  destruct (markets d4 !! m) as [mk4|]; [|discriminate].
  inversion H5; subst mk5 d5. clear H5.
  inversion H; subst r db'. clear H.
  cbn [orders trades runners set_markets].
  assert (Hown : owners_same db d3).
  { intros id. rewrite (Hown3 id). now rewrite Ho2. }
  assert (Hparties :
    map parties (unsettled_trades (market_selections m db) d3)
    = map parties (refunded_trades m db)).
  { unfold refunded_trades, unsettled_trades. rewrite Ht3, Ht2.
    apply omap_parties. intros t. apply join_trade_parties; [exact Hown|].
    intros id. rewrite Hr3. now apply find_runner_keys. }
  assert (Hids :
    map (fun tj => t_id (tj_trade tj)) (unsettled_trades (market_selections m db) d3)
    = map (fun tj => t_id (tj_trade tj)) (refunded_trades m db)).
  { apply (f_equal (map (fun k : Trade * string * string => t_id (fst (fst k))))) in Hparties.
    now rewrite !map_map in Hparties. }
  fold (market_selections m db) in Ht4 |- *.
  rewrite Ho2 in Horders3. fold (cancelled_orders m db) in Horders3.
  split.
  { unfold cancelled_orders. rewrite Ho2. f_equal.
    rewrite <- (length_map (fun tj => t_id (tj_trade tj))), Hids. apply length_map. }
  split; [now rewrite Ho4|].
  split; [now rewrite Ht4, Hids, Ht3, Ht2|].
  split; [unfold runner_keys; cbn [runners set_markets]; rewrite Hr4, Hr3; exact Hk2|].
  intros id. cbn [orders set_markets]. rewrite Ho4. apply Hown.
Qed.

Lemma filter_map_none {A} (p : A -> bool) (f : A -> A) l :
  (forall x, In x l -> p (f x) = false) -> List.filter p (map f l) = [].
Proof.
  induction l as [|x l IH]; intros H; cbn; [reflexivity|].
  rewrite (H x) by now left. apply IH. intros y Hy. apply H. now right.
Qed.

Lemma omap_none {A B} (f : A -> option B) l :
  (forall x, In x l -> f x = None) -> omap f l = [].
Proof.
  induction l as [|x l IH]; intros H; cbn; [reflexivity|].
  rewrite (H x) by now left. apply IH. intros y Hy. apply H. now right.
Qed.

Lemma In_omap {A B} (f : A -> option B) l x y :
  In x l -> f x = Some y -> In y (omap f l).
Proof.
  induction l as [|a l IH]; intros Hin E; [destruct Hin|].
  cbn. destruct Hin as [->|Hin].
  - rewrite E. now left.
  - destruct (f a); [right|]; now apply IH.
Qed.

Lemma no_open_order_left m db db' :
  orders db'
  = map (fun o => if mem_id (o_id o) (map o_id (cancelled_orders m db))
                  then set_status CANCELLED o else o) (orders db) ->
  cancelled_orders m db' = [].
Proof.
  intros Ho. unfold cancelled_orders at 1. rewrite Ho. apply filter_map_none.
  intros o Hin. destruct (mem_id _ _) eqn:Emem.
  - unfold open_orders_of. cbn. apply andb_false_r.
  - destruct (open_orders_of m o) eqn:Eopen; [|reflexivity].
    exfalso. apply not_true_iff_false in Emem. apply Emem.
    apply mem_id_spec, in_map. unfold cancelled_orders. apply filter_In. now split.
Qed.

Lemma no_unsettled_trade_left now m db db' :
  trades db'
  = map (fun t => if mem_id (t_id t)
                       (map (fun tj => t_id (tj_trade tj)) (refunded_trades m db))
                  then mark_settled now t else t) (trades db) ->
  runner_keys db' = runner_keys db ->
  owners_same db db' ->
  refunded_trades m db' = [].
Proof.
  intros Ht Hk Hown. unfold refunded_trades at 1. unfold unsettled_trades.
  rewrite (market_selections_keys m db db' Hk).
  apply omap_none. intros t' Hin. apply filter_In in Hin. destruct Hin as [Hin Hp].
  rewrite Ht in Hin. apply in_map_iff in Hin. destruct Hin as (t & Et & Hin).
  destruct (mem_id _ _) eqn:Emem.
  { subst t'. cbn in Hp. now rewrite andb_false_r in Hp. }
  subst t'.
  destruct (join_trade db' t) as [tj'|] eqn:Ej'; [exfalso|reflexivity].
  assert (Hj : option_map parties (join_trade db' t) = option_map parties (join_trade db t)).
  { apply join_trade_parties; [exact Hown|].
    intros id. apply find_runner_keys. exact Hk. }
  rewrite Ej' in Hj. destruct (join_trade db t) as [tj|] eqn:Ej; [|discriminate].
  apply not_true_iff_false in Emem. apply Emem.
  apply mem_id_spec.
  rewrite <- (join_trade_trade _ _ _ Ej).
  apply (in_map (fun tj => t_id (tj_trade tj))).
  unfold refunded_trades, unsettled_trades.
  apply In_omap with (x := t); [|exact Ej].
  apply filter_In. now split.
Qed.


(** X7.  A successful force-close, whatever the winners given, leaves
    nothing pending in the market: it reports the number of OPEN or PARTIAL
    orders and of unsettled trades the market had, exactly those orders are
    now CANCELLED and those trades settled (every other row is as it was),
    the market has no OPEN or PARTIAL order and no unsettled trade left, it
    is SETTLED, and a second force-close is refused with
    400 Market is already settled and changes nothing. *)
Theorem force_close_leaves_nothing_pending
    (now : nat) (m : string) (winners : list string) (db db' : DB) (r : nat * nat) :
  forceCloseMarket now m winners db = (Ok r, db') ->
  r = (length (cancelled_orders m db), length (refunded_trades m db))
  /\ orders db'
     = map (fun o => if mem_id (o_id o) (map o_id (cancelled_orders m db))
                     then set_status CANCELLED o else o) (orders db)
  /\ trades db'
     = map (fun t => if mem_id (t_id t)
                          (map (fun tj => t_id (tj_trade tj)) (refunded_trades m db))
                     then mark_settled now t else t) (trades db)
  /\ cancelled_orders m db' = []
  /\ refunded_trades m db' = []
  /\ (exists mk', markets db' !! m = Some mk' /\ m_status mk' = SETTLED)
  /\ forall now' winners',
       forceCloseMarket now' m winners' db'
       = (Throw (ApiError 400 MarketAlreadySettled), db').
Proof.
  intros H. unfold forceCloseMarket, transaction in H.
  destruct (forceCloseMarketTx now m winners db) as [[r'|e] d] eqn:E; [|discriminate].
  inversion H; subst r' d. clear H.
  pose proof (forceCloseMarketTx_sets_settled _ _ _ _ _ _ E) as (mk & _ & _ & mk' & Hmk' & Hst).
  apply forceCloseMarketTx_tables in E.
  destruct E as (Hr & Ho & Ht & Hk & Hown).
  split; [exact Hr|]. split; [exact Ho|]. split; [exact Ht|].
  split; [now apply no_open_order_left with db|].
  split; [now apply (no_unsettled_trade_left now m db)|].
  split.
  - exists mk'. now split.
  - intros now' winners'. unfold forceCloseMarket, transaction, forceCloseMarketTx.
    unfold bind at 1. unfold market_findUnique, get. rewrite Hmk'.
    rewrite bool_decide_eq_true_2 by exact Hst. reflexivity.
Qed.

(** ** Settlement of a market by the settlement service *)

(** [winnerName !== null && runner.name.toLowerCase() === winnerName.toLowerCase()] *)
Definition team_wins (winnerName : option string) (name : string) : bool :=
  match winnerName with
  | Some w => String.eqb (toLowerCase name) (toLowerCase w)
  | None => false
  end.





Lemma settleTrades_inv now ts :
  forall db db',
    forEach ts (settleUnsettledTrade now) db = (Ok tt, db') ->
    wallets_moved db db'
      (fun v => sum_over (fun tj => settle_credit tj (r_isWinner (tj_selection tj)) v) ts)
      (fun v => sum_over (fun tj => settle_release tj (r_isWinner (tj_selection tj)) v) ts)
    /\ settle_frame db db'
    /\ trades db' = map (fun t => if mem_id (t_id t) (map (fun tj => t_id (tj_trade tj)) ts)
                                  then mark_settled now t else t) (trades db).
Proof.
  intros db db' H.
  rewrite <- (updates_by_key t_id (mark_settled now)) by reflexivity.
  rewrite <- (fold_left_map_ids (fun tj => t_id (tj_trade tj))
                (fun acc id => map (fun a => if Nat.eqb (t_id a) id
                                             then mark_settled now a else a) acc)).
  revert db db' H. induction ts as [|tj ts IH]; intros db db' H.
  - inversion H. split; [now apply wallets_moved_refl|].
    split; [now repeat split|reflexivity].
  - cbn [forEach] in H. apply bind_inv in H. destruct H as ([] & d1 & H1 & H).
    pose proof (settleUnsettledTrade_spec tj now db) as Hspec. rewrite H1 in Hspec.
    destruct Hspec as (Hm1 & Hfr1 & Ht1).
    destruct (IH _ _ H) as (Hm2 & Hfr2 & Ht2).
    split; [|split; [now apply settle_frame_trans with d1|]].
    + eapply wallets_moved_trans; [exact Hm1|exact Hm2| |]; intros v; cbn; lra.
    + cbn [fold_left]. rewrite Ht2, Ht1. reflexivity.
Qed.

Lemma cancelOpenOrder_inv m o db db' :
  cancelOpenOrder m o db = (Ok tt, db') ->
  wallets_moved db db' (fun _ => 0) (release_for o)
  /\ trades db' = trades db /\ runners db' = runners db
  /\ orders db' = update_order (o_id o) (set_status CANCELLED) (orders db).
Proof.
  unfold cancelOpenOrder. intros H.
  apply bind_inv in H. destruct H as (o1 & d1 & H1 & H).
  rewrite order_update_run in H1.
  destruct (find (fun x => Nat.eqb (o_id x) (o_id o)) (orders db)) as [o0|]; [|discriminate].
  inversion H1; subst o1 d1. clear H1.
  apply bind_inv in H. destruct H as (w1 & d2 & H2 & H).
  rewrite wallet_update_run in H2. cbn [wallets set_orders] in H2.
  destruct (wallets db !! o_userId o) as [w|] eqn:Ew; [|discriminate].
  inversion H2; subst w1 d2. clear H2.
  apply bind_inv in H. destruct H as ([] & d3 & H3 & H).
  inversion H3; subst d3. clear H3.
  apply bind_inv in H. destruct H as (w2 & d4 & H4 & H).
  unfold wallet_findUniqueOrThrow, wallet_findUnique in H4.
  apply bind_inv in H4. destruct H4 as (wo & d & H4 & H5).
  inversion H4; subst wo d. clear H4.
  cbn [wallets set_marketExposures set_wallets set_orders] in H5.
  rewrite lookup_insert_eq in H5. inversion H5; subst w2 d4. clear H5.
  inversion H; subst db'. clear H.
  split; [|now repeat split].
  eapply released_moved; [exact Ew|reflexivity].
Qed.

Lemma cancelOpenOrders_inv m db db' :
  cancelOpenOrders m db = (Ok tt, db') ->
  wallets_moved db db' (fun _ => 0)
    (fun v => sum_over (fun o => release_for o v) (cancelled_orders m db))
  /\ trades db' = trades db /\ runners db' = runners db
  /\ orders db' = map (fun o => if mem_id (o_id o) (map o_id (cancelled_orders m db))
                                then set_status CANCELLED o else o) (orders db).
Proof.
  unfold cancelOpenOrders. intros H.
  apply bind_inv in H. destruct H as (os & d0 & H0 & H).
  inversion H0; subst os d0. clear H0. fold (cancelled_orders m db) in H.
  rewrite <- (updates_by_key o_id (set_status CANCELLED)) by reflexivity.
  rewrite <- (fold_left_map_ids o_id
                (fun acc id => map (fun a => if Nat.eqb (o_id a) id
                                             then set_status CANCELLED a else a) acc)).
  revert H. generalize (cancelled_orders m db) as os. intros os. revert db.
  induction os as [|o os IH]; intros db H.
  - inversion H; subst. split; [now apply wallets_moved_refl|]. now repeat split.
  - cbn [forEach] in H. apply bind_inv in H. destruct H as ([] & d1 & H1 & H).
    apply cancelOpenOrder_inv in H1. destruct H1 as (Hm1 & Ht1 & Hr1 & Ho1).
    apply IH in H. destruct H as (Hm2 & Ht2 & Hr2 & Ho2).
    split; [|split; [congruence|split; [congruence|]]].
    + eapply wallets_moved_trans; [exact Hm1|exact Hm2| |]; intros v; cbn; lra.
    + cbn [fold_left]. rewrite Ho2, Ho1. reflexivity.
Qed.








(** ** Settlement of a match: the match and its markets *)






(** ** The order book and the engine *)

Lemma Qeq_bool_sym a b : Qeq_bool a b = Qeq_bool b a.
Proof.
  destruct (Qeq_bool a b) eqn:E1, (Qeq_bool b a) eqn:E2; try reflexivity.
  - apply Qeq_bool_iff in E1. symmetry in E1. apply Qeq_bool_iff in E1. congruence.
  - apply Qeq_bool_iff in E2. symmetry in E2. apply Qeq_bool_iff in E2. congruence.
Qed.

Lemma Qeq_bool_compat a b c : a == b -> Qeq_bool a c = Qeq_bool b c.
Proof.
  intros H. destruct (Qeq_bool a c) eqn:E1, (Qeq_bool b c) eqn:E2; try reflexivity.
  - apply Qeq_bool_iff in E1. rewrite H in E1. apply Qeq_bool_iff in E1. congruence.
  - apply Qeq_bool_iff in E2. rewrite <- H in E2. apply Qeq_bool_iff in E2. congruence.
Qed.

(** The stake the rows put at prices that satisfy [q]. *)
Definition stake_at (q : Q -> bool) (rows : list Order) : Q :=
  sum_over (fun o => if q (o_price o) then o_remainingStake o else 0) rows.

Definition shown_at (q : Q -> bool) (levels : list Level) : Q :=
  sum_over (fun l => if q (lv_price l) then lv_sumRemainingStake l else 0) levels.

Lemma sum_over_perm {A} (f : A -> Q) l l' :
  Permutation l l' -> sum_over f l == sum_over f l'.
Proof. induction 1; cbn; lra. Qed.

Lemma add_to_group_shown q o groups :
  (forall a b, a == b -> q a = q b) ->
  shown_at q (add_to_group o groups)
  == shown_at q groups + (if q (o_price o) then o_remainingStake o else 0).
Proof.
  intros Hq. unfold shown_at. induction groups as [|g rest IH]; cbn.
  - lra.
  - destruct (Qeq_bool (lv_price g) (o_price o)) eqn:E; cbn.
    + apply Qeq_bool_iff in E. rewrite (Hq _ _ E).
      destruct (q (o_price o)); lra.
    + rewrite IH. lra.
Qed.

Lemma group_by_price_shown q rows :
  (forall a b, a == b -> q a = q b) ->
  shown_at q (group_by_price rows) == stake_at q rows.
Proof.
  intros Hq. induction rows as [|o rows IH]; [reflexivity|].
  unfold group_by_price. cbn [fold_right]. fold (group_by_price rows).
  rewrite add_to_group_shown by exact Hq. rewrite IH. unfold stake_at. cbn. lra.
Qed.

(** Groups have pairwise different prices. *)
Inductive distinct_prices : list Level -> Prop :=
  | distinct_nil : distinct_prices []
  | distinct_cons g rest :
      (forall x, In x rest -> ~ lv_price x == lv_price g) ->
      distinct_prices rest -> distinct_prices (g :: rest).

Lemma add_to_group_price o groups x :
  In x (add_to_group o groups) ->
  (exists g, In g groups /\ lv_price x = lv_price g) \/ lv_price x = o_price o.
Proof.
  induction groups as [|g rest IH]; cbn.
  - intros [<-|[]]. now right.
  - destruct (Qeq_bool (lv_price g) (o_price o)).
    + intros [<-|Hin]; left; [exists g|exists x]; cbn; auto.
    + intros [<-|Hin]; [left; exists g; auto|].
      destruct (IH Hin) as [(g' & Hg' & E)|E]; [left; exists g'; auto|now right].
Qed.

Lemma add_to_group_distinct o groups :
  distinct_prices groups -> distinct_prices (add_to_group o groups).
Proof.
  induction 1 as [|g rest Hg Hd IH]; cbn.
  - constructor; [intros x []|constructor].
  - destruct (Qeq_bool (lv_price g) (o_price o)) eqn:E.
    + constructor; [exact Hg|exact Hd].
    + constructor; [|exact IH].
      intros x Hx Heq. apply add_to_group_price in Hx.
      destruct Hx as [(g' & Hg' & E')|E'].
      * apply (Hg g' Hg'). now rewrite <- E'.
      * rewrite E' in Heq. symmetry in Heq. apply Qeq_bool_iff in Heq. congruence.
Qed.

Lemma group_by_price_distinct rows : distinct_prices (group_by_price rows).
Proof.
  induction rows as [|o rows IH]; cbn; [constructor|now apply add_to_group_distinct].
Qed.

(** What a level says of the rows it groups. *)
Definition level_of (rows : list Order) (l : Level) : Prop :=
  lv_sumRemainingStake l
    == sum_over o_remainingStake
         (List.filter (fun o => Qeq_bool (o_price o) (lv_price l)) rows)
  /\ lv_countId l
     = length (List.filter (fun o => Qeq_bool (o_price o) (lv_price l)) rows)
  /\ exists o, In o rows /\ o_price o == lv_price l.

Lemma group_by_price_levels rows :
  (forall l, In l (group_by_price rows) -> level_of rows l)
  /\ (forall o, In o rows -> exists l, In l (group_by_price rows) /\ lv_price l == o_price o).
Proof.
  induction rows as [|o rows [IHl IHc]]; [split; intros ? []|].
  cbn [group_by_price fold_right]. fold (group_by_price rows).
  pose proof (group_by_price_distinct rows) as Hd.
  revert IHl IHc Hd. generalize (group_by_price rows) as groups.
  intros groups IHl IHc Hd.
  assert (Hadd : forall l, In l (add_to_group o groups) ->
            (In l groups /\ Qeq_bool (o_price o) (lv_price l) = false)
            \/ (exists g, In g groups /\ lv_price g == o_price o
                          /\ l = mkLevel (lv_price g)
                                   (lv_sumRemainingStake g + o_remainingStake o)
                                   (S (lv_countId g)))
            \/ ((forall g, In g groups -> ~ lv_price g == o_price o)
                /\ l = mkLevel (o_price o) (o_remainingStake o) 1)).
  { clear IHl IHc. induction Hd as [|g rest Hg Hd IH]; cbn; intros l Hl.
    - destruct Hl as [<-|[]]. right. right. split; [intros g []|reflexivity].
    - destruct (Qeq_bool (lv_price g) (o_price o)) eqn:E.
      + destruct Hl as [<-|Hl].
        * right. left. exists g. apply Qeq_bool_iff in E. auto.
        * left. split; [now right|].
          destruct (Qeq_bool (o_price o) (lv_price l)) eqn:E'; [|reflexivity].
          exfalso. apply (Hg l Hl). apply Qeq_bool_iff in E, E'. now rewrite <- E', E.
      + destruct Hl as [<-|Hl].
        * left. split; [now left|]. now rewrite Qeq_bool_sym.
        * destruct (IH l Hl) as [[Hin Hne]|[(g' & Hg' & Ep & El)|[Hnone El]]].
          -- left. split; [now right|exact Hne].
          -- right. left. exists g'. auto.
          -- right. right. split; [|exact El].
             intros g' [<-|Hg']; [|now apply Hnone].
             intros Heq. apply Qeq_bool_iff in Heq. congruence. }
  split.
  - intros l Hl. unfold level_of. cbn [List.filter].
    destruct (Hadd l Hl) as [[Hin Hne]|[(g & Hg & Ep & El)|[Hnone El]]].
    + rewrite Hne. destruct (IHl l Hin) as (Hs & Hc & (o' & Ho' & Ep)).
      split; [exact Hs|]. split; [exact Hc|]. exists o'. split; [now right|exact Ep].
    + subst l. cbn [lv_price lv_sumRemainingStake lv_countId].
      assert (E : Qeq_bool (o_price o) (lv_price g) = true)
        by (apply Qeq_bool_iff; now symmetry).
      rewrite E. destruct (IHl g Hg) as (Hs & Hc & _). cbn [sum_over length].
      split; [rewrite Hs; lra|]. split; [now rewrite Hc|].
      exists o. split; [now left|now symmetry].
    + subst l. cbn [lv_price lv_sumRemainingStake lv_countId].
      rewrite (proj2 (Qeq_bool_iff _ _) (Qeq_refl (o_price o))).
      rewrite (filter_none (fun o0 => Qeq_bool (o_price o0) (o_price o)) rows).
      * cbn. split; [lra|]. split; [reflexivity|].
        exists o. split; [now left|reflexivity].
      * intros o' Ho'. destruct (IHc o' Ho') as (g & Hg & Ep).
        destruct (Qeq_bool (o_price o') (o_price o)) eqn:E'; [|reflexivity].
        exfalso. apply (Hnone g Hg). apply Qeq_bool_iff in E'. now rewrite Ep.
  - intros o' [<-|Ho'].
    + destruct (existsb (fun g => Qeq_bool (lv_price g) (o_price o)) groups) eqn:Ex.
      * apply existsb_exists in Ex. destruct Ex as (g & Hg & E).
        clear - Hg E. induction groups as [|g0 rest IH]; [destruct Hg|].
        cbn. destruct (Qeq_bool (lv_price g0) (o_price o)) eqn:E0.
        -- eexists. split; [now left|]. cbn. now apply Qeq_bool_iff.
        -- destruct Hg as [->|Hg]; [congruence|].
           destruct (IH Hg) as (l & Hl & Ep). exists l. split; [now right|exact Ep].
      * assert (Hnone : forall g, In g groups -> Qeq_bool (lv_price g) (o_price o) = false).
        { intros g Hg. destruct (Qeq_bool (lv_price g) (o_price o)) eqn:E; [|reflexivity].
          rewrite <- Ex. symmetry. apply existsb_exists. eauto. }
        clear - Hnone. induction groups as [|g0 rest IH].
        -- cbn. eexists. split; [now left|]. reflexivity.
        -- cbn. rewrite (Hnone g0) by now left.
           destruct IH as (l & Hl & Ep); [intros g Hg; apply Hnone; now right|].
           exists l. split; [now right|exact Ep].
    + destruct (IHc o' Ho') as (g & Hg & Ep).
      clear - Hg Ep. induction groups as [|g0 rest IH]; [destruct Hg|].
      cbn. destruct (Qeq_bool (lv_price g0) (o_price o)) eqn:E0.
      * destruct Hg as [->|Hg].
        -- eexists. split; [now left|]. exact Ep.
        -- exists g. split; [now right|exact Ep].
      * destruct Hg as [->|Hg].
        -- exists g. split; [now left|exact Ep].
        -- destruct (IH Hg) as (l & Hl & El). exists l. split; [now right|exact El].
Qed.

Section StrictLevels.
Variable leb : Level -> Level -> bool.
Variable strict : Level -> Level -> Prop.
Hypothesis strict_trans : forall a b c, strict a b -> strict b c -> strict a c.
Hypothesis leb_strict :
  forall a b, ~ lv_price a == lv_price b -> leb a b = true -> strict a b.
Hypothesis not_leb_strict :
  forall a b, ~ lv_price a == lv_price b -> leb a b = false -> strict b a.

Lemma insert_by_strict g l :
  StronglySorted strict l ->
  (forall x, In x l -> ~ lv_price x == lv_price g) ->
  StronglySorted strict (insert_by leb g l).
Proof.
  induction 1 as [|y l Hs IH Hall]; intros Hne; cbn.
  - constructor; constructor.
  - assert (Hy : ~ lv_price g == lv_price y).
    { intros E. apply (Hne y); [now left|now symmetry]. }
    destruct (leb g y) eqn:E.
    + constructor; [now constructor|].
      constructor; [now apply leb_strict|].
      eapply List.Forall_impl; [|exact Hall].
      intros z Hz. apply strict_trans with y; [now apply leb_strict|exact Hz].
    + constructor; [apply IH; intros x Hx; apply Hne; now right|].
      apply List.Forall_forall. intros z Hz.
      apply (Permutation_in _ (insert_by_perm leb g l)) in Hz.
      destruct Hz as [<-|Hz]; [now apply not_leb_strict|].
      now apply (proj1 (List.Forall_forall _ _) Hall).
Qed.

Lemma order_by_strict l :
  distinct_prices l -> StronglySorted strict (order_by leb l).
Proof.
  induction 1 as [|g rest Hg Hd IH]; [constructor|].
  change (order_by leb (g :: rest)) with (insert_by leb g (order_by leb rest)).
  apply insert_by_strict; [exact IH|].
  intros x Hx. apply Hg. apply (Permutation_in _ (order_by_perm leb rest)) in Hx. exact Hx.
Qed.
End StrictLevels.

Definition book_levels (ob : OrderBook) (side : OrderSide) : list Level :=
  match side with BACK => ob_back ob | LAY => ob_lay ob end.

(** X10.  The order book is an exact summary of the OPEN and PARTIAL orders
    of a selection in a market.  The call reads only.  Back levels come by
    strictly falling price, lay levels by strictly rising price, so no
    price is listed twice.  Every level lists the sum of the remaining
    stakes and the number of the orders at its price, and has at least one
    order; every such order has its level. *)
Theorem order_book_summarises_open_orders (m sel : string) (db : DB) :
  exists ob,
    getOrderBook m sel db = (Ok ob, db)
    /\ StronglySorted (fun a b => lv_price b < lv_price a) (ob_back ob)
    /\ StronglySorted (fun a b => lv_price a < lv_price b) (ob_lay ob)
    /\ forall side,
         let rows := List.filter (book_row m sel side) (orders db) in
         (forall l, In l (book_levels ob side) ->
            lv_sumRemainingStake l
              == sum_over o_remainingStake
                   (List.filter (fun o => Qeq_bool (o_price o) (lv_price l)) rows)
            /\ lv_countId l
               = length (List.filter (fun o => Qeq_bool (o_price o) (lv_price l)) rows)
            /\ (1 <= lv_countId l)%nat)
         /\ (forall o, In o rows ->
               exists l, In l (book_levels ob side) /\ lv_price l == o_price o).
Proof.
  eexists. split; [reflexivity|]. cbn [ob_back ob_lay].
  split; [|split].
  - apply order_by_strict; [intros a b c; lra| | |apply group_by_price_distinct].
    + intros a b Hne H. apply Dec.lte_true in H.
      destruct (Qlt_le_dec (lv_price b) (lv_price a)) as [Hlt|Hle]; [exact Hlt|].
      exfalso. apply Hne. lra.
    + intros a b Hne H. apply Dec.lte_false in H. exact H.
  - apply order_by_strict; [intros a b c; lra| | |apply group_by_price_distinct].
    + intros a b Hne H. apply Dec.lte_true in H.
      destruct (Qlt_le_dec (lv_price a) (lv_price b)) as [Hlt|Hle]; [exact Hlt|].
      exfalso. apply Hne. lra.
    + intros a b Hne H. apply Dec.lte_false in H. exact H.
  - intros side. set (rows := List.filter (book_row m sel side) (orders db)).
    destruct (group_by_price_levels rows) as [Hl Hc].
    assert (Hin : forall l, In l (book_levels
                      {| ob_back := order_by level_price_desc
                           (group_by_price (List.filter (book_row m sel BACK) (orders db)));
                         ob_lay := order_by level_price_asc
                           (group_by_price (List.filter (book_row m sel LAY) (orders db))) |}
                      side)
                    <-> In l (group_by_price rows)).
    { intros l. destruct side; cbn [book_levels ob_back ob_lay]; apply order_by_In. }
    split.
    + intros l Hlv. apply Hin in Hlv. destruct (Hl l Hlv) as (Hs & Hn & (o & Ho & Ep)).
      split; [exact Hs|]. split; [exact Hn|].
      rewrite Hn.
      assert (Hf : In o (List.filter (fun o => Qeq_bool (o_price o) (lv_price l)) rows)).
      { apply filter_In. split; [exact Ho|now apply Qeq_bool_iff]. }
      destruct (List.filter _ rows); [destruct Hf|cbn; lia].
    + intros o Ho. destruct (Hc o Ho) as (l & Hlv & Ep).
      exists l. split; [now apply Hin|exact Ep].
Qed.

(** ** How much the engine matches *)

Lemma sum_over_nonneg {A} (f : A -> Q) l :
  Forall (fun x => 0 <= f x) l -> 0 <= sum_over f l.
Proof. induction 1; cbn; lra. Qed.

Lemma fills_all_offered side inc sel r rows ts r' :
  fills side inc sel r rows ts r' ->
  0 <= r -> Forall (fun row => 0 <= o_remainingStake row) rows ->
  r' == Qmax 0 (r - sum_over o_remainingStake rows).
Proof.
  induction 1 as [r|r row rows Hr|r row rows t ts r' Hr Hb Hl Hs Hp Hst Hset Hf IH];
    intros H0 Hrows.
  - cbn. rewrite Q.max_r by lra. lra.
  - pose proof (sum_over_nonneg o_remainingStake _ Hrows) as Hn.
    rewrite Q.max_l by lra. lra.
  - inversion Hrows as [|? ? Hrow Hrows']; subst.
    pose proof (sum_over_nonneg o_remainingStake _ Hrows') as Hn.
    cbn [sum_over].
    destruct (Q.min_spec r (o_remainingStake row)) as [[Hlt Hmin]|[Hle Hmin]];
      rewrite Hmin in Hst.
    + rewrite IH; [|lra|exact Hrows'].
      rewrite !Q.max_l by lra. reflexivity.
    + rewrite IH; [|lra|exact Hrows'].
      destruct (Q.max_spec 0 (r - t_stake t - sum_over o_remainingStake rows))
        as [[H1 E1]|[H1 E1]]; rewrite E1.
      * rewrite Q.max_r by lra. lra.
      * rewrite Q.max_l by lra. reflexivity.
Qed.

(** The prices an incoming order of [side] at [price] accepts. *)
Definition acceptable (side : OrderSide) (price : Q) (p : Q) : bool :=
  match side with
  | BACK => Dec.lte p price
  | LAY => Dec.lte price p
  end.

Lemma acceptable_compat side price a b : a == b -> acceptable side price a = acceptable side price b.
Proof.
  intros H. destruct side; cbn; unfold Dec.lte.
  - destruct (Qle_bool a price) eqn:E1, (Qle_bool b price) eqn:E2; try reflexivity.
    + apply Qle_bool_iff in E1. rewrite H in E1. apply Qle_bool_iff in E1. congruence.
    + apply Qle_bool_iff in E2. rewrite <- H in E2. apply Qle_bool_iff in E2. congruence.
  - destruct (Qle_bool price a) eqn:E1, (Qle_bool price b) eqn:E2; try reflexivity.
    + apply Qle_bool_iff in E1. rewrite H in E1. apply Qle_bool_iff in E1. congruence.
    + apply Qle_bool_iff in E2. rewrite <- H in E2. apply Qle_bool_iff in E2. congruence.
Qed.

Lemma sum_over_filter {A} (f : A -> Q) (p : A -> bool) l :
  sum_over f (List.filter p l) == sum_over (fun x => if p x then f x else 0) l.
Proof.
  induction l as [|x l IH]; cbn; [reflexivity|].
  destruct (p x); cbn; rewrite IH; lra.
Qed.

Lemma resting_rows_offer side m sel price os :
  (forall o, In o os -> o_selectionId o = sel -> o_marketId o = m) ->
  sum_over o_remainingStake (resting_rows side sel price os)
  == stake_at (acceptable side price) (List.filter (book_row m sel (opposite side)) os).
Proof.
  intros Hm.
  assert (Hperm : exists cand,
    Permutation (resting_rows side sel price os) (List.filter cand os)
    /\ forall o, In o os ->
         cand o = (book_row m sel (opposite side) o && acceptable side price (o_price o))%bool).
  { destruct side; cbn [resting_rows opposite acceptable].
    - exists (lay_candidate sel price). split; [apply order_by_perm|].
      intros o Ho. unfold lay_candidate, book_row. specialize (Hm o Ho).
      destruct (String.eqb (o_selectionId o) sel) eqn:Es.
      + apply String.eqb_eq in Es. rewrite (Hm Es), String.eqb_refl. reflexivity.
      + now rewrite andb_false_r.
    - exists (back_candidate sel price). split; [apply order_by_perm|].
      intros o Ho. unfold back_candidate, book_row. specialize (Hm o Ho).
      destruct (String.eqb (o_selectionId o) sel) eqn:Es.
      + apply String.eqb_eq in Es. rewrite (Hm Es), String.eqb_refl. reflexivity.
      + now rewrite andb_false_r. }
  destruct Hperm as (cand & Hperm & Hcand).
  rewrite (sum_over_perm _ _ _ Hperm). unfold stake_at.
  rewrite !sum_over_filter. apply sum_over_ext. intros o Ho.
  rewrite (Hcand o Ho).
  destruct (book_row m sel (opposite side) o), (acceptable side price (o_price o));
    reflexivity.
Qed.

(** X11.  The engine matches exactly what the order book shows.  In a
    state where remaining stakes are not negative and the orders of the
    selection are orders of the market, the stake matched for an incoming
    order is the smaller of its stake and the stake the book lists on the
    opposite side at prices the order accepts (lay levels up to its price
    for a BACK, back levels from its price for a LAY); the rest remains.
    So an order no larger than the listed stake is matched in full, and
    a larger one takes all that is listed. *)
Theorem engine_matches_what_the_book_shows
    (side : OrderSide) (incoming : nat) (m sel : string) (price stake : Q) (db : DB) :
  0 <= stake ->
  (forall o, In o (orders db) -> 0 <= o_remainingStake o) ->
  (forall o, In o (orders db) -> o_selectionId o = sel -> o_marketId o = m) ->
  exists ob res db',
    getOrderBook m sel db = (Ok ob, db)
    /\ run_engine side incoming sel price stake db = (Ok res, db')
    /\ mr_matchedStake res
       == Qmin stake (shown_at (acceptable side price) (book_levels ob (opposite side)))
    /\ mr_remainingStake res == stake - mr_matchedStake res
    /\ (stake <= shown_at (acceptable side price) (book_levels ob (opposite side)) ->
        mr_remainingStake res == 0).
Proof.
  intros Hs Hrem Hm.
  destruct (run_engine_run side incoming sel price stake db)
    as (res & ts & db' & Hrun & _ & _ & Hf & Hmatched & _ & _).
  eexists. exists res, db'. split; [reflexivity|]. split; [exact Hrun|].
  apply fills_all_offered in Hf; [|exact Hs|].
  2:{ apply List.Forall_forall. intros row Hrow. apply Hrem.
      now apply resting_rows_sub in Hrow. }
  rewrite (resting_rows_offer side m sel price _ Hm) in Hf.
  assert (Hshown :
    shown_at (acceptable side price)
      (book_levels
         {| ob_back := order_by level_price_desc
              (group_by_price (List.filter (book_row m sel BACK) (orders db)));
            ob_lay := order_by level_price_asc
              (group_by_price (List.filter (book_row m sel LAY) (orders db))) |}
         (opposite side))
    == stake_at (acceptable side price)
         (List.filter (book_row m sel (opposite side)) (orders db))).
  { rewrite <- (group_by_price_shown (acceptable side price))
      by apply acceptable_compat.
    unfold shown_at.
    destruct side; cbn [book_levels opposite ob_back ob_lay];
      apply sum_over_perm, order_by_perm. }
  rewrite Hshown, Hmatched, Hf.
  set (S := stake_at (acceptable side price)
              (List.filter (book_row m sel (opposite side)) (orders db))).
  destruct (Q.max_spec 0 (stake - S)) as [[H1 E1]|[H1 E1]]; rewrite E1;
    destruct (Q.min_spec stake S) as [[H2 E2]|[H2 E2]]; rewrite E2;
    repeat split; intros; lra.
Qed.

(** ** Wallet controller: locking, releasing, crediting, transferring *)


(** A request the exposure endpoints take up: made by an administrator,
    with a user, a market and an amount. *)
Definition admin_request (user : option WalletController.ReqUser)
    (userId marketId : string) (amount : Q) : Prop :=
  (exists u, user = Some u /\ WalletController.is_admin (WalletController.ru_role u) = true)
  /\ userId <> "" /\ marketId <> "" /\ 0 < amount.

Lemma no_text_false s : s <> "" -> WalletController.no_text s = false.
Proof. intros H. now apply String.eqb_neq. Qed.

Lemma no_amount_false a : 0 < a -> WalletController.no_amount a = false.
Proof.
  intros H. unfold WalletController.no_amount.
  destruct (Qeq_bool a 0) eqn:E; [|reflexivity].
  apply Qeq_bool_iff in E. lra.
Qed.

Lemma lte_zero_false a : 0 < a -> Dec.lte a 0 = false.
Proof. intros H. now apply Dec.lte_false. Qed.


(** X13.  The release endpoint does not look at what is locked.  An
    administrator's request with a positive amount for a user who has a
    wallet always succeeds and takes the amount off the wallet exposure,
    whatever the exposure was: when the amount exceeds it the exposure
    becomes negative.  The record of the market is decremented only when
    there is one; without a record the wallet exposure alone moves. *)
Theorem release_endpoint_is_not_bounded_by_the_exposure
    (user : option WalletController.ReqUser) (userId marketId : string)
    (amount : Q) (db : DB) (w : Wallet) :
  admin_request user userId marketId amount ->
  wallets db !! userId = Some w ->
  exists r db',
    WalletController.releaseExposure user userId marketId amount db
      = (WalletController.Sent r, db')
    /\ wallets db' = <[userId := mkWallet (balance w) (exposure w - amount)]> (wallets db)
    /\ (exposure w < amount -> exposure_of db' userId < 0)
    /\ (forall e, marketExposures db !! (userId, marketId) = Some e ->
          marketExposures db' = <[(userId, marketId) := e - amount]> (marketExposures db))
    /\ (marketExposures db !! (userId, marketId) = None ->
          marketExposures db' = marketExposures db)
    /\ ledger db' = ledger db ++ [mkLedger userId amount EXPOSURE_RELEASE (balance w)].
Proof.
  intros ((u & -> & Hadmin) & Hu & Hm & Ha) Hw.
  unfold WalletController.releaseExposure.
  rewrite Hadmin, (no_text_false _ Hu), (no_text_false _ Hm), (no_amount_false _ Ha),
    (lte_zero_false _ Ha), Hw.
  cbn [negb orb].
  eexists _, _. split; [reflexivity|].
  unfold exposure_of.
  cbn [wallets marketExposures ledger set_wallets set_marketExposures set_ledger].
  split; [reflexivity|]. split.
  { intros Hlt. rewrite lookup_insert_eq. cbn. lra. }
  unfold decrement_exposure_row.
  split; [intros e He; now rewrite He|].
  split; [intros Hn; now rewrite Hn|reflexivity].
Qed.

(** X14.  A transfer that goes through was asked by the parent of the
    receiver, for a positive amount the sender's available balance covers,
    and does this: exposures and all other wallets stay as they are, the
    sender's balance falls and the receiver's rises by the amount, so that
    the two balances together are what they were, the sender's exposure is
    still within the balance, and the ledger gains a TRANSFER_OUT and a
    TRANSFER_IN entry that carry the two new balances.  The one case in
    which money is not conserved is a user who is their own parent: sender
    and receiver are then the same wallet, and its balance rises by the
    amount. *)
Theorem transfer_moves_balance_from_parent_to_child
    (users : gmap string WalletController.User) (user : option WalletController.ReqUser)
    (toUserId : string) (amount : Q) (db db' : DB) (r : WalletController.TransferResult) :
  WalletController.transferCoins users user toUserId amount db
    = (WalletController.Sent r, db') ->
  exists u ws wr,
    user = Some u
    /\ WalletController.is_child_of users (WalletController.ru_id u) toUserId = true
    /\ 0 < amount
    /\ wallets db !! WalletController.ru_id u = Some ws
    /\ wallets db !! toUserId = Some wr
    /\ amount <= balance ws - exposure ws
    /\ exposure ws <= balance ws - amount
    /\ (forall v, exposure_of db' v == exposure_of db v)
    /\ (forall v, v <> WalletController.ru_id u -> v <> toUserId ->
          wallets db' !! v = wallets db !! v)
    /\ balance_of db' toUserId == balance wr + amount
    /\ (WalletController.ru_id u <> toUserId ->
          balance_of db' (WalletController.ru_id u) == balance ws - amount
          /\ balance_of db' (WalletController.ru_id u) + balance_of db' toUserId
             == balance_of db (WalletController.ru_id u) + balance_of db toUserId)
    /\ ledger db'
       = ledger db
         ++ [mkLedger (WalletController.ru_id u) (- amount) TRANSFER_OUT (balance ws - amount);
             mkLedger toUserId amount TRANSFER_IN (balance wr + amount)]
    /\ WalletController.fromBalance r = balance ws - amount
    /\ WalletController.toBalance r = balance wr + amount.
Proof.
  unfold WalletController.transferCoins. intros H.
  destruct user as [u|]; [|discriminate].
  destruct (WalletController.no_text toUserId || WalletController.no_amount amount)%bool;
    [discriminate|].
  destruct (Dec.lte amount 0) eqn:Ea; [discriminate|]. apply Dec.lte_false in Ea.
  destruct (users !! WalletController.ru_id u); [|discriminate].
  destruct (WalletController.is_child_of users (WalletController.ru_id u) toUserId) eqn:Ec;
    [|discriminate].
  cbn [negb] in H.
  destruct (users !! toUserId); [|discriminate].
  destruct (wallets db !! WalletController.ru_id u) as [ws|] eqn:Es; [|discriminate].
  destruct (Dec.lt (balance ws - exposure ws) amount) eqn:El; [discriminate|].
  apply Dec.lt_false in El.
  destruct (wallets db !! toUserId) as [wr|] eqn:Er; [|discriminate].
  inversion H; subst r db'. clear H.
  exists u, ws, wr.
  repeat (split; [first [reflexivity|assumption|lra]|]).
  unfold exposure_of, balance_of.
  cbn [wallets ledger set_wallets set_ledger WalletController.fromBalance
       WalletController.toBalance].
  rewrite Es.
  destruct (decide (WalletController.ru_id u = toUserId)) as [Eq|Hne].
  - rewrite Eq in *. rewrite lookup_insert_eq, insert_insert_eq.
    assert (ws = wr) by congruence. subst wr.
    split.
    { intros v. destruct (decide (v = toUserId)) as [->|Hv].
      - rewrite lookup_insert_eq, Er. reflexivity.
      - rewrite lookup_insert_ne by congruence. reflexivity. }
    split; [intros v Hv _; now rewrite lookup_insert_ne by congruence|].
    split; [rewrite lookup_insert_eq; reflexivity|].
    split; [intros Hc; now destruct Hc|].
    rewrite <- app_assoc. repeat split.
  - rewrite lookup_insert_ne, Er by exact Hne.
    split.
    { intros v. destruct (decide (v = toUserId)) as [->|Hv].
      - rewrite lookup_insert_eq, Er. reflexivity.
      - rewrite lookup_insert_ne by congruence.
        destruct (decide (v = WalletController.ru_id u)) as [->|Hv'].
        + rewrite lookup_insert_eq, Es. reflexivity.
        + rewrite lookup_insert_ne by congruence. reflexivity. }
    split; [intros v Hv Hv'; now rewrite !lookup_insert_ne by congruence|].
    split; [rewrite lookup_insert_eq; reflexivity|].
    split.
    { intros _. rewrite lookup_insert_eq.
      rewrite (lookup_insert_ne _ toUserId (WalletController.ru_id u)) by congruence.
      rewrite lookup_insert_eq. cbn. split; lra. }
    rewrite <- app_assoc. repeat split.
Qed.

(** X15.  A credit by an administrator adds the amount to the balance and
    nothing else: the exposure and all other wallets stay, and the ledger
    gains one CREDIT entry of the amount that carries the new balance.  It
    goes through exactly when an administrator asks it, for a user who has
    a wallet, with a positive amount. *)
Theorem add_balance_credits_the_amount
    (user : option WalletController.ReqUser) (userId : string) (amount : Q) (db : DB) :
  (forall r db',
      WalletController.addBalance user userId amount db = (WalletController.Sent r, db') ->
      exists u w,
        user = Some u
        /\ WalletController.is_admin (WalletController.ru_role u) = true
        /\ 0 < amount
        /\ wallets db !! userId = Some w
        /\ wallets db' = <[userId := mkWallet (balance w + amount) (exposure w)]> (wallets db)
        /\ ledger db' = ledger db ++ [mkLedger userId amount CREDIT (balance w + amount)]
        /\ WalletController.br_newBalance r = balance w + amount
        /\ orders db' = orders db /\ trades db' = trades db
        /\ marketExposures db' = marketExposures db)
  /\ (forall u w,
        user = Some u ->
        WalletController.is_admin (WalletController.ru_role u) = true ->
        userId <> "" -> 0 < amount ->
        wallets db !! userId = Some w ->
        exists r db',
          WalletController.addBalance user userId amount db = (WalletController.Sent r, db')).
Proof.
  split.
  - unfold WalletController.addBalance. intros r db' H.
    destruct user as [u|]; [|discriminate].
    destruct (WalletController.is_admin (WalletController.ru_role u)) eqn:Ead;
      [|discriminate].
    cbn [negb] in H.
    destruct (WalletController.no_text userId || WalletController.no_amount amount)%bool;
      [discriminate|].
    destruct (Dec.lte amount 0) eqn:Ea; [discriminate|]. apply Dec.lte_false in Ea.
    destruct (wallets db !! userId) as [w|] eqn:Ew; [|discriminate].
    inversion H; subst r db'. clear H.
    exists u, w. repeat split; assumption.
  - intros u w -> Hadmin Hu Ha Hw. unfold WalletController.addBalance.
    rewrite Hadmin, (no_text_false _ Hu), (no_amount_false _ Ha), (lte_zero_false _ Ha), Hw.
    cbn [negb orb]. eauto.
Qed.

(** X16.  The wallet endpoints change nothing when they refuse, and the
    exposure and credit endpoints refuse everybody but administrators: a
    request without a user gets 401, a request of an AGENT or a USER gets
    403, whatever it asks. *)
Theorem refused_wallet_requests_change_nothing
    (users : gmap string WalletController.User) (user : option WalletController.ReqUser)
    (userId marketId : string) (amount : Q) (db : DB) :
  (forall e db',
      WalletController.lockExposure user userId marketId amount db
        = (WalletController.Refused e, db')
      \/ WalletController.releaseExposure user userId marketId amount db
         = (WalletController.Refused e, db')
      \/ WalletController.addBalance user userId amount db
         = (WalletController.Refused e, db')
      \/ WalletController.transferCoins users user userId amount db
         = (WalletController.Refused e, db') ->
      db' = db)
  /\ ((user = None \/
       exists u, user = Some u
                 /\ WalletController.is_admin (WalletController.ru_role u) = false) ->
      exists e,
        WalletController.statusCode e
        = match user with Some _ => 403%nat | None => 401%nat end
        /\ WalletController.lockExposure user userId marketId amount db
           = (WalletController.Refused e, db)
        /\ WalletController.releaseExposure user userId marketId amount db
           = (WalletController.Refused e, db)
        /\ WalletController.addBalance user userId amount db
           = (WalletController.Refused e, db)).
Proof.
  split.
  - intros e db' [H|[H|[H|H]]];
      unfold WalletController.lockExposure, WalletController.releaseExposure,
        WalletController.addBalance, WalletController.transferCoins in H;
      repeat match type of H with
             | (match ?x with _ => _ end) = _ => destruct x
             | (if ?x then _ else _) = _ => destruct x
             end;
      now inversion H.
  - intros [->|(u & -> & Hrole)].
    + exists WalletController.AuthenticationRequired. repeat split.
    + exists WalletController.InsufficientPermissions.
      unfold WalletController.lockExposure, WalletController.releaseExposure,
        WalletController.addBalance.
      rewrite Hrole. repeat split.
Qed.

(** ** The ledger carries the balance *)

(** The latest ledger entry of a user. *)
Definition last_entry (u : string) (l : list Ledger) : option Ledger :=
  find (fun e => String.eqb (l_userId e) u) (rev l).

(** Every user with ledger entries has a wallet, and the latest entry
    carries the balance of the wallet. *)
Definition anchored (db : DB) : Prop :=
  forall u e, last_entry u (ledger db) = Some e ->
    exists w, wallets db !! u = Some w /\ l_balance e == balance w.

Lemma last_entry_snoc u l e :
  last_entry u (l ++ [e])
  = if String.eqb (l_userId e) u then Some e else last_entry u l.
Proof. unfold last_entry. now rewrite rev_unit. Qed.

Lemma anchored_frame db db' :
  wallets db' = wallets db -> ledger db' = ledger db -> anchored db -> anchored db'.
Proof. intros Hw Hl H u e. rewrite Hw, Hl. apply H. Qed.

Lemma anchored_keep_balance u w w' db db' :
  wallets db !! u = Some w -> balance w' == balance w ->
  wallets db' = <[u := w']> (wallets db) -> ledger db' = ledger db ->
  anchored db -> anchored db'.
Proof.
  intros Hw Hb Hws Hl H v e He. rewrite Hl in He. rewrite Hws.
  destruct (H v e He) as (x & Hx & Hbal).
  destruct (decide (v = u)) as [->|Hne].
  - rewrite lookup_insert_eq. exists w'. split; [reflexivity|].
    rewrite Hw in Hx. inversion Hx; subst x. now rewrite Hb.
  - rewrite lookup_insert_ne by congruence. eauto.
Qed.

Lemma anchored_entry e w' db db' :
  wallets db' !! l_userId e = Some w' -> l_balance e == balance w' ->
  (forall v, v <> l_userId e -> wallets db' !! v = wallets db !! v) ->
  ledger db' = ledger db ++ [e] ->
  anchored db -> anchored db'.
Proof.
  intros Hw Hb Hothers Hl H v x Hx. rewrite Hl, last_entry_snoc in Hx.
  destruct (String.eqb (l_userId e) v) eqn:E.
  - apply String.eqb_eq in E. subst v. inversion Hx; subst x. eauto.
  - apply String.eqb_neq in E. rewrite Hothers by congruence. now apply H.
Qed.

(** The computation keeps [P], whether it returns or throws. *)
Definition preserves (P : DB -> Prop) {A} (m : Tx A) : Prop :=
  forall db, P db -> P (snd (m db)).

Lemma preserves_ret P {A} (a : A) : preserves P (ret a).
Proof. now intros db. Qed.

Lemma preserves_throw P {A} e : preserves P (@throw A e).
Proof. now intros db. Qed.

Lemma preserves_get P {A} (f : DB -> A) : preserves P (get f).
Proof. now intros db. Qed.

Lemma preserves_bind P {A B} (m : Tx A) (k : A -> Tx B) :
  preserves P m -> (forall a, preserves P (k a)) -> preserves P (bind m k).
Proof.
  intros Hm Hk db HP. unfold bind. specialize (Hm db HP).
  destruct (m db) as [[a|e] db1]; cbn in *; [now apply Hk|exact Hm].
Qed.

Lemma preserves_forEach P {A} (l : list A) body :
  (forall x, preserves P (body x)) -> preserves P (forEach l body).
Proof.
  intros H. induction l as [|x l IH]; cbn [forEach].
  - apply preserves_ret.
  - apply preserves_bind; [apply H|intros _; exact IH].
Qed.

Lemma preserves_transaction P {A} (m : Tx A) :
  preserves P m -> preserves P (transaction m).
Proof.
  intros H db HP. unfold transaction. specialize (H db HP).
  destruct (m db) as [[a|e] db1]; cbn in *; assumption.
Qed.

Lemma preserves_modify f :
  (forall db, wallets (f db) = wallets db /\ ledger (f db) = ledger db) ->
  preserves anchored (modify f).
Proof.
  intros H db HP. cbn. destruct (H db) as [Hw Hl]. now apply anchored_frame with db.
Qed.

(** A wallet update that keeps the balance. *)
Lemma preserves_wallet_update u f :
  (forall w, balance (f w) == balance w) -> preserves anchored (wallet_update u f).
Proof.
  intros Hf db HP. rewrite wallet_update_run.
  destruct (wallets db !! u) as [w|] eqn:Ew; cbn [snd]; [|exact HP].
  now apply anchored_keep_balance with u w (f w) db.
Qed.

(** A wallet update followed by the ledger entry that carries the balance
    of the updated wallet, and whatever comes next. *)
Lemma preserves_wallet_entry_then u f (e : Wallet -> Ledger) {A} (rest : Tx A) :
  (forall w, l_userId (e w) = u) -> (forall w, l_balance (e w) == balance w) ->
  preserves anchored rest ->
  preserves anchored (wallet <- wallet_update u f ;; ledger_create (e wallet) ;;; rest).
Proof.
  intros Hu Hb Hrest db HP. unfold bind at 1. rewrite wallet_update_run.
  destruct (wallets db !! u) as [w|] eqn:Ew; cbn [snd]; [|exact HP].
  unfold bind, ledger_create, modify.
  apply Hrest.
  apply anchored_entry with (e := e (f w)) (w' := f w) (db := db).
  - rewrite Hu. cbn. apply lookup_insert_eq.
  - apply Hb.
  - intros v Hv. rewrite Hu in Hv. cbn. now rewrite lookup_insert_ne by congruence.
  - reflexivity.
  - exact HP.
Qed.

Lemma preserves_wallet_entry u f (e : Wallet -> Ledger) :
  (forall w, l_userId (e w) = u) -> (forall w, l_balance (e w) == balance w) ->
  preserves anchored (wallet <- wallet_update u f ;; ledger_create (e wallet)).
Proof.
  intros Hu Hb db HP.
  pose proof (preserves_wallet_entry_then u f e (ret tt) Hu Hb (preserves_ret _ tt) db HP) as H.
  unfold bind in *. rewrite wallet_update_run in *.
  destruct (wallets db !! u) as [w|]; cbn in *; exact H.
Qed.

(** The wallet read again, and the entry that carries its balance. *)
Lemma preserves_read_entry u (e : Wallet -> Ledger) :
  (forall w, l_userId (e w) = u) -> (forall w, l_balance (e w) == balance w) ->
  preserves anchored (wallet <- wallet_findUniqueOrThrow u ;; ledger_create (e wallet)).
Proof.
  intros Hu Hb db HP.
  unfold wallet_findUniqueOrThrow, wallet_findUnique, bind, get, ledger_create, modify.
  destruct (wallets db !! u) as [w|] eqn:Ew; cbn; [|exact HP].
  apply anchored_entry with (e := e w) (w' := w) (db := db);
    rewrite ?Hu; cbn; auto.
Qed.

Ltac preserves_frame :=
  repeat first
    [ apply preserves_ret | apply preserves_throw | apply preserves_get
    | apply preserves_modify; intros; split; reflexivity
    | apply preserves_forEach; intros
    | apply preserves_bind; [|intros]
    | match goal with |- preserves _ (match ?x with _ => _ end) => destruct x end
    | match goal with |- preserves _ (if ?x then _ else _) => destruct x end ].

Lemma preserves_order_update id f : preserves anchored (order_update id f).
Proof. unfold order_update, order_findUniqueOrThrow, order_findFirst. preserves_frame. Qed.

Lemma preserves_trade_update id f : preserves anchored (trade_update id f).
Proof. unfold trade_update. preserves_frame. Qed.

Lemma preserves_runner_update id f : preserves anchored (runner_update id f).
Proof. unfold runner_update, runner_findFirst. preserves_frame. Qed.

Lemma preserves_market_update id f : preserves anchored (market_update id f).
Proof. unfold market_update, market_findUnique. preserves_frame. Qed.

Lemma preserves_settleUnsettledTrade now trade :
  preserves anchored (settleUnsettledTrade now trade).
Proof.
  unfold settleUnsettledTrade, settleTrade, refundTrade, creditWallet, releaseExposure,
    marketExposure_updateMany.
  destruct (r_isWinner (tj_selection trade)) as [[|]|];
    repeat first
      [ apply preserves_trade_update
      | apply preserves_wallet_entry; intros; reflexivity
      | apply preserves_wallet_update; intros; reflexivity
      | apply preserves_modify; intros; split; reflexivity
      | apply preserves_bind; [|intros] ].
Qed.

Lemma preserves_cancelOpenOrders m : preserves anchored (cancelOpenOrders m).
Proof.
  unfold cancelOpenOrders, order_findMany.
  apply preserves_bind; [apply preserves_get|intros os].
  apply preserves_forEach. intros o. unfold cancelOpenOrder, marketExposure_updateMany.
  apply preserves_bind; [apply preserves_order_update|intros _].
  apply preserves_bind; [apply preserves_wallet_update; intros; reflexivity|intros _].
  apply preserves_bind; [apply preserves_modify; intros; split; reflexivity|intros _].
  apply (preserves_read_entry (o_userId o)
           (fun wallet => mkLedger (o_userId o) (order_exposureToRelease o)
                            EXPOSURE_RELEASE (balance wallet)));
    intros; reflexivity.
Qed.

Lemma preserves_settleMatch now matchId winnerName :
  preserves anchored (settleMatch now matchId winnerName).
Proof.
  unfold settleMatch. apply preserves_transaction.
  apply preserves_bind; [unfold match_update; preserves_frame|intros _].
  apply preserves_bind; [apply preserves_get|intros ms].
  apply preserves_forEach. intros im. unfold settleMarket.
  apply preserves_bind; [apply preserves_market_update|intros _].
  apply preserves_bind; [apply preserves_get|intros rs].
  apply preserves_bind;
    [apply preserves_forEach; intros; apply preserves_runner_update|intros _].
  apply preserves_bind; [apply preserves_get|intros ts].
  apply preserves_bind;
    [apply preserves_forEach; intros; apply preserves_settleUnsettledTrade|intros _].
  apply preserves_cancelOpenOrders.
Qed.

Lemma preserves_forceCloseTrade now trade :
  preserves anchored (forceCloseTrade now trade).
Proof.
  unfold forceCloseTrade.
  apply preserves_bind; [|intros _; apply preserves_trade_update].
  destruct (r_isWinner (tj_selection trade)) as [[|]|].
  - apply (preserves_wallet_entry_then (o_userId (tj_backOrder trade)) _
             (fun w => mkLedger _ _ ORDER_SETTLE (balance w))); try (intros; reflexivity).
    apply (preserves_wallet_entry (o_userId (tj_layOrder trade)) _
             (fun w => mkLedger _ _ ORDER_SETTLE (balance w))); intros; reflexivity.
  - apply (preserves_wallet_entry_then (o_userId (tj_layOrder trade)) _
             (fun w => mkLedger _ _ ORDER_SETTLE (balance w))); try (intros; reflexivity).
    apply (preserves_wallet_entry (o_userId (tj_backOrder trade)) _
             (fun w => mkLedger _ _ ORDER_SETTLE (balance w))); intros; reflexivity.
  - apply preserves_forEach. intros ua.
    apply (preserves_wallet_entry (fst ua) _
             (fun w => mkLedger _ _ ORDER_SETTLE (balance w))); intros; reflexivity.
Qed.

Lemma preserves_forceCloseOrder m o : preserves anchored (forceCloseOrder m o).
Proof.
  unfold forceCloseOrder.
  apply preserves_bind; [apply preserves_order_update|intros _].
  intros db HP. unfold bind at 1. rewrite wallet_update_run.
  destruct (wallets db !! o_userId o) as [w|] eqn:Ew; cbn [snd]; [|exact HP].
  unfold bind, marketExposure_updateMany, ledger_create, modify. cbn [snd].
  eapply anchored_entry with (db := db); [| | |reflexivity|exact HP]; cbn.
  - apply lookup_insert_eq.
  - reflexivity.
  - intros v Hv. now rewrite lookup_insert_ne by congruence.
Qed.

Lemma preserves_forceCloseMarket now m winners :
  preserves anchored (forceCloseMarket now m winners).
Proof.
  unfold forceCloseMarket. apply preserves_transaction. unfold forceCloseMarketTx.
  apply preserves_bind; [apply preserves_get|intros [mk|]; [|apply preserves_throw]].
  destruct (bool_decide (m_status mk = SETTLED)); [apply preserves_throw|].
  apply preserves_bind; [apply preserves_get|intros rs].
  apply preserves_bind; [apply preserves_market_update|intros _].
  apply preserves_bind;
    [apply preserves_forEach; intros; apply preserves_runner_update|intros _].
  apply preserves_bind; [apply preserves_get|intros os].
  apply preserves_bind;
    [apply preserves_forEach; intros; apply preserves_forceCloseOrder|intros _].
  apply preserves_bind; [apply preserves_get|intros ts].
  apply preserves_bind;
    [apply preserves_forEach; intros; apply preserves_forceCloseTrade|intros _].
  apply preserves_bind; [apply preserves_market_update|intros _].
  apply preserves_ret.
Qed.

Lemma preserves_placeOrder now u m sel side price stake :
  preserves anchored (placeOrder now u m sel side price stake).
Proof.
  intros db HP.
  destruct (placeOrder_cases now u m sel side price stake db)
    as [(e & ->)|(res & db' & -> & _ & _ & Hacc)]; [exact HP|].
  cbn [snd]. destruct Hacc as [mk w mres ts db2 res _ _ _ Hw _ _ _ _ Hframe _ _ _ _ _ _].
  destruct Hframe as (Hw2 & Hl2 & _).
  apply anchored_frame with db2; [reflexivity|reflexivity|].
  apply anchored_entry
    with (e := mkLedger u (- liability_of side price stake) EXPOSURE_LOCK (balance w))
         (w' := set_exposure (exposure w + liability_of side price stake) w) (db := db).
  - rewrite Hw2. cbn. apply lookup_insert_eq.
  - reflexivity.
  - intros v Hv. rewrite Hw2. cbn in *. now rewrite lookup_insert_ne by congruence.
  - rewrite Hl2. reflexivity.
  - exact HP.
Qed.

Lemma preserves_cancelOrder u orderId : preserves anchored (cancelOrder u orderId).
Proof.
  intros db HP.
  destruct (cancelOrder_cases u orderId db)
    as [(e & ->)|(order & w & _ & _ & Hw & ->)]; [exact HP|].
  cbn [snd]. unfold cancelled.
  apply anchored_entry
    with (e := mkLedger u (order_exposureToRelease order) EXPOSURE_RELEASE (balance w))
         (w' := decrement_exposure (order_exposureToRelease order) w) (db := db).
  - cbn. apply lookup_insert_eq.
  - reflexivity.
  - intros v Hv. cbn in *. now rewrite lookup_insert_ne by congruence.
  - reflexivity.
  - exact HP.
Qed.

Lemma anchored_transfer users user toUserId amount db :
  anchored db ->
  anchored (snd (WalletController.transferCoins users user toUserId amount db)).
Proof.
  intros HP. unfold WalletController.transferCoins.
  destruct user as [u|]; [|exact HP].
  destruct (WalletController.no_text toUserId || WalletController.no_amount amount)%bool;
    [exact HP|].
  destruct (Dec.lte amount 0); [exact HP|].
  destruct (users !! WalletController.ru_id u); [|exact HP].
  destruct (negb (WalletController.is_child_of users (WalletController.ru_id u) toUserId));
    [exact HP|].
  destruct (users !! toUserId); [|exact HP].
  destruct (wallets db !! WalletController.ru_id u) as [ws|] eqn:Es; [|exact HP].
  destruct (Dec.lt (balance ws - exposure ws) amount); [exact HP|].
  destruct (wallets db !! toUserId) as [wr|] eqn:Er; [|exact HP].
  cbn [snd].
  set (from := WalletController.ru_id u) in *.
  set (db1 := set_ledger
                (fun l => l ++ [mkLedger from (- amount) TRANSFER_OUT (balance ws - amount)])
                (set_wallets
                   (fun ws0 => <[from := WalletController.set_balance (balance ws - amount) ws]> ws0)
                   db)).
  assert (H1 : anchored db1).
  { apply anchored_entry
      with (e := mkLedger from (- amount) TRANSFER_OUT (balance ws - amount))
           (w' := WalletController.set_balance (balance ws - amount) ws) (db := db).
    - cbn. apply lookup_insert_eq.
    - reflexivity.
    - intros v Hv. cbn in *. now rewrite lookup_insert_ne by congruence.
    - reflexivity.
    - exact HP. }
  assert (Hto : exists wt, wallets db1 !! toUserId = Some wt).
  { cbn. destruct (decide (toUserId = from)) as [->|Hne].
    - rewrite lookup_insert_eq. eauto.
    - rewrite lookup_insert_ne by congruence. eauto. }
  destruct Hto as [wt Hwt].
  apply anchored_entry
    with (e := mkLedger toUserId amount TRANSFER_IN (balance wr + amount))
         (w' := WalletController.set_balance (balance wr + amount) wt) (db := db1).
  - cbn [wallets set_wallets set_ledger l_userId]. rewrite Es.
    unfold db1 in Hwt. cbn [wallets set_wallets set_ledger] in Hwt.
    rewrite Hwt. apply lookup_insert_eq.
  - reflexivity.
  - intros v Hv. unfold db1 in *.
    cbn [wallets set_wallets set_ledger l_userId] in *. rewrite Es, Hwt.
    now rewrite lookup_insert_ne by congruence.
  - reflexivity.
  - exact H1.
Qed.

(** X17.  The latest ledger entry of every user carries the balance of the
    user's wallet, and every operation keeps it so: placing and cancelling
    an order, settling a match, force-closing a market, locking and
    releasing exposure, crediting a balance and transferring coins all
    leave a state in which each user with ledger entries has a wallet whose
    balance is the one written in the latest of them, whether the operation
    succeeds or is refused. *)
Theorem latest_ledger_entry_carries_the_balance (db : DB) :
  anchored db ->
  (forall now u m sel side price stake,
      anchored (snd (placeOrder now u m sel side price stake db)))
  /\ (forall u orderId, anchored (snd (cancelOrder u orderId db)))
  /\ (forall now matchId winnerName, anchored (snd (settleMatch now matchId winnerName db)))
  /\ (forall now m winners, anchored (snd (forceCloseMarket now m winners db)))
  /\ (forall user userId marketId amount,
        anchored (snd (WalletController.lockExposure user userId marketId amount db))
        /\ anchored (snd (WalletController.releaseExposure user userId marketId amount db))
        /\ anchored (snd (WalletController.addBalance user userId amount db)))
  /\ (forall users user toUserId amount,
        anchored (snd (WalletController.transferCoins users user toUserId amount db))).
Proof.
  intros HP.
  split; [intros; now apply preserves_placeOrder|].
  split; [intros; now apply preserves_cancelOrder|].
  split; [intros; now apply preserves_settleMatch|].
  split; [intros; now apply preserves_forceCloseMarket|].
  split; [|intros; now apply anchored_transfer].
  intros user userId marketId amount.
  unfold WalletController.lockExposure, WalletController.releaseExposure,
    WalletController.addBalance.
  destruct user as [u|]; [|now repeat split].
  destruct (negb (WalletController.is_admin (WalletController.ru_role u)));
    [now repeat split|].
  destruct (Dec.lte amount 0); [destruct (_ || _)%bool, (_ || _)%bool; now repeat split|].
  destruct (wallets db !! userId) as [w|] eqn:Ew;
    [|destruct (_ || _)%bool, (_ || _)%bool; now repeat split].
  split; [|split].
  - destruct (_ || _)%bool; [exact HP|].
    destruct (Dec.lt (balance w - exposure w) amount); [exact HP|]. cbn [snd].
    apply anchored_entry
      with (e := mkLedger userId (- amount) EXPOSURE_LOCK (balance w))
           (w' := WalletController.increment_exposure amount w) (db := db);
      [cbn; apply lookup_insert_eq|reflexivity| |reflexivity|exact HP].
    intros v Hv. cbn in *. now rewrite lookup_insert_ne by congruence.
  - destruct (_ || _)%bool; [exact HP|]. cbn [snd].
    apply anchored_entry
      with (e := mkLedger userId amount EXPOSURE_RELEASE (balance w))
           (w' := decrement_exposure amount w) (db := db);
      [cbn; apply lookup_insert_eq|reflexivity| |reflexivity|exact HP].
    intros v Hv. cbn in *. now rewrite lookup_insert_ne by congruence.
  - destruct (_ || _)%bool; [exact HP|]. cbn [snd].
    apply anchored_entry
      with (e := mkLedger userId amount CREDIT (balance w + amount))
           (w' := WalletController.set_balance (balance w + amount) w) (db := db);
      [cbn; apply lookup_insert_eq|reflexivity| |reflexivity|exact HP].
    intros v Hv. cbn in *. now rewrite lookup_insert_ne by congruence.
Qed.

(** ** Settlement debits no balance *)

Definition trade_amounts_ok (t : Trade) : Prop := 0 <= t_stake t /\ 1 <= t_price t.

Lemma settle_credit_nonneg tj w v :
  trade_amounts_ok (tj_trade tj) -> 0 <= settle_credit tj w v.
Proof.
  intros [Hs Hp]. unfold settle_credit, amount_for.
  assert (0 <= (t_price (tj_trade tj) - 1) * t_stake (tj_trade tj))
    by (apply Qmult_le_0_compat; lra).
  destruct w as [[|]|]; repeat destruct (decide _); lra.
Qed.

Lemma unsettled_trades_ok sels db :
  Forall trade_amounts_ok (trades db) ->
  Forall (fun tj => trade_amounts_ok (tj_trade tj)) (unsettled_trades sels db).
Proof.
  intros H. unfold unsettled_trades. apply Forall_omap.
  intros t tj Hin Hj. rewrite (join_trade_trade _ _ _ Hj).
  apply filter_In in Hin. destruct Hin as [Hin _].
  now apply (proj1 (List.Forall_forall _ _) H).
Qed.

Lemma marked_trades_ok now (c : Trade -> bool) ts :
  Forall trade_amounts_ok ts ->
  Forall trade_amounts_ok (map (fun t => if c t then mark_settled now t else t) ts).
Proof.
  intros H. apply List.Forall_forall. intros t' Hin.
  apply in_map_iff in Hin. destruct Hin as (t & <- & Hin).
  pose proof (proj1 (List.Forall_forall _ _) H t Hin) as Hok.
  destruct (c t); exact Hok.
Qed.

Lemma forceCloseTrades_moved now ts :
  forall db db',
    forEach ts (forceCloseTrade now) db = (Ok tt, db') ->
    wallets_moved db db'
      (fun v => sum_over (fun tj => settle_credit tj (r_isWinner (tj_selection tj)) v) ts)
      (fun v => sum_over (fun tj => settle_release tj (r_isWinner (tj_selection tj)) v) ts).
Proof.
  induction ts as [|tj ts IH]; intros db db' H.
  - inversion H. now apply wallets_moved_refl.
  - cbn [forEach] in H. apply bind_inv in H. destruct H as ([] & d1 & H1 & H).
    pose proof (forceCloseTrade_spec tj now db) as Hspec. rewrite H1 in Hspec.
    destruct Hspec as (Hm1 & _ & _).
    eapply wallets_moved_trans; [exact Hm1|exact (IH _ _ H)| |]; intros v; cbn; lra.
Qed.

Lemma credits_nonneg ts v :
  Forall (fun tj => trade_amounts_ok (tj_trade tj)) ts ->
  0 <= sum_over (fun tj => settle_credit tj (r_isWinner (tj_selection tj)) v) ts.
Proof.
  intros H. apply sum_over_nonneg.
  eapply List.Forall_impl; [|exact H]. intros tj Hok. now apply settle_credit_nonneg.
Qed.

Lemma settleMarket_no_debit now winnerName m db db' :
  Forall trade_amounts_ok (trades db) ->
  settleMarket now winnerName m db = (Ok tt, db') ->
  (forall v, balance_of db v <= balance_of db' v)
  /\ Forall trade_amounts_ok (trades db').
Proof.
  intros Hok H. unfold settleMarket in H.
  apply bind_inv in H. destruct H as (mk1 & d1 & H1 & H).
  rewrite market_update_run in H1.
  destruct (markets db !! m) as [mk|]; [|discriminate].
  inversion H1; subst mk1 d1. clear H1.
  apply bind_inv in H. destruct H as (rs & d0 & H0 & H).
  inversion H0; subst rs d0. clear H0.
  apply bind_inv in H. destruct H as ([] & d2 & H2 & H).
  pose proof (mark_runners_keys
                (fun sel => Some (team_wins winnerName (r_name sel))) _ _ _ H2)
    as ((Hw2 & _ & Ht2) & _ & _).
  cbn [wallets trades set_markets] in Hw2, Ht2.
  apply bind_inv in H. destruct H as (ts & d2' & H3 & H).
  inversion H3; subst ts d2'. clear H3.
  apply bind_inv in H. destruct H as ([] & d3 & H3 & H).
  apply settleTrades_inv in H3. destruct H3 as (Hm3 & _ & Ht3).
  match type of Ht3 with
  | context [map _ ?ts] =>
      assert (Hts : Forall (fun tj => trade_amounts_ok (tj_trade tj)) ts)
        by (apply unsettled_trades_ok; now rewrite Ht2)
  end.
  apply cancelOpenOrders_inv in H. destruct H as (Hm4 & Ht4 & _ & _).
  split.
  - intros v. destruct (Hm3 v) as (_ & Hb3 & _). destruct (Hm4 v) as (_ & Hb4 & _).
    pose proof (credits_nonneg _ v Hts) as Hc.
    unfold balance_of in *. rewrite Hw2 in Hb3. lra.
  - rewrite Ht4, Ht3, Ht2. now apply marked_trades_ok.
Qed.

Lemma settle_markets_no_debit now winnerName (l : list (string * Market)) :
  forall db db',
    Forall trade_amounts_ok (trades db) ->
    forEach l (fun im => settleMarket now winnerName (fst im)) db = (Ok tt, db') ->
    forall v, balance_of db v <= balance_of db' v.
Proof.
  induction l as [|im l IH]; intros db db' Hok H v.
  - inversion H. lra.
  - cbn [forEach] in H. apply bind_inv in H. destruct H as ([] & d1 & H1 & H).
    destruct (settleMarket_no_debit _ _ _ _ _ Hok H1) as [Hb1 Hok1].
    specialize (IH _ _ Hok1 H v). specialize (Hb1 v). lra.
Qed.

(** X18.  Settlement debits no balance.  In a state whose trades have a
    stake that is not negative and a price of at least 1, a successful
    [settleMatch] and a successful force-close leave every balance at least
    as high as it was: winners are credited, and what a loser loses is
    released from the exposure, never taken from the balance. *)
Theorem settlement_debits_no_balance (db : DB) :
  Forall trade_amounts_ok (trades db) ->
  (forall now matchId winnerName db',
      settleMatch now matchId winnerName db = (Ok tt, db') ->
      forall v, balance_of db v <= balance_of db' v)
  /\ (forall now m winners r db',
        forceCloseMarket now m winners db = (Ok r, db') ->
        forall v, balance_of db v <= balance_of db' v).
Proof.
  intros Hok. split.
  - intros now matchId winnerName db' H. unfold settleMatch, transaction in H.
    match type of H with
    | (let (_, _) := ?body db in _) = _ => destruct (body db) as [[[]|e] d] eqn:E
    end; [|discriminate].
    inversion H; subst d. clear H.
    apply bind_inv in E. destruct E as ([] & d1 & H1 & H).
    unfold match_update in H1. apply bind_inv in H1. destruct H1 as (mo & d0 & H0 & H1).
    inversion H0; subst mo d0. clear H0.
    destruct (matches db !! matchId); [|discriminate].
    inversion H1; subst d1. clear H1.
    apply bind_inv in H. destruct H as (l & d0 & H0 & H).
    inversion H0; subst l d0. clear H0.
    exact (settle_markets_no_debit _ _ _
             (set_matches (fun ms => <[matchId := COMPLETED]> ms) db) _ Hok H).
  - intros now m winners r db' H. unfold forceCloseMarket, transaction in H.
    destruct (forceCloseMarketTx now m winners db) as [[r'|e] d] eqn:E; [|discriminate].
    inversion H; subst r' d. clear H.
    unfold forceCloseMarketTx in E.
    apply bind_inv in E. destruct E as (mo & d0 & H0 & H).
    inversion H0; subst mo d0. clear H0.
    destruct (markets db !! m) as [mk|] eqn:Em; [|discriminate].
    destruct (bool_decide (m_status mk = SETTLED)); [discriminate|].
    apply bind_inv in H. destruct H as (rs & d0 & H0 & H).
    inversion H0; subst rs d0. clear H0.
    apply bind_inv in H. destruct H as (mk1 & d1 & H1 & H).
    rewrite market_update_run, Em in H1. inversion H1; subst mk1 d1. clear H1.
    apply bind_inv in H. destruct H as ([] & d2 & H2 & H).
    apply (mark_runners_keys
             (fun sel => if Nat.ltb 0 (length winners)
                         then Some (mem_string (r_id sel) winners) else None)) in H2.
    destruct H2 as ((Hw2 & _ & Ht2) & _ & _).
    cbn [wallets trades set_markets] in Hw2, Ht2.
    apply bind_inv in H. destruct H as (os & d2' & H3 & H).
    inversion H3; subst os d2'. clear H3.
    apply bind_inv in H. destruct H as ([] & d3 & H3 & H).
    apply forceCloseOrders_inv in H3. destruct H3 as (Hm3 & Ht3 & _ & _).
    apply bind_inv in H. destruct H as (ts & d3' & H4 & H).
    inversion H4; subst ts d3'. clear H4.
    apply bind_inv in H. destruct H as ([] & d4 & H4 & H).
    match type of H4 with
    | forEach ?ts _ _ = _ =>
        assert (Hts : Forall (fun tj => trade_amounts_ok (tj_trade tj)) ts)
          by (apply unsettled_trades_ok; now rewrite Ht3, Ht2)
    end.
    apply forceCloseTrades_moved in H4.
    apply bind_inv in H. destruct H as (mk5 & d5 & H5 & H).
    rewrite market_update_run in H5.
    destruct (markets d4 !! m) as [mk4|]; [|discriminate].
    inversion H5; subst mk5 d5. clear H5.
    inversion H; subst r db'. clear H.
    intros v. destruct (Hm3 v) as (_ & Hb3 & _). destruct (H4 v) as (_ & Hb4 & _).
    pose proof (credits_nonneg _ v Hts) as Hc.
    unfold balance_of in *. cbn [wallets set_markets]. rewrite Hw2 in Hb3. lra.
Qed.

(** ** Force-close with winners *)







(** ** Placement and the exposure records *)








(** * Instances of the further properties *)

Lemma engine_accounts_for_the_stake_witness :
  exists res ts db',
    matchBackOrder 7 "S" 2.5 40 bob_resting = (Ok res, db')
    /\ trades db' = trades bob_resting ++ ts
    /\ mr_matchedStake res + mr_remainingStake res == 40.
Proof.
  destruct (engine_accounts_for_the_stake BACK 7 "S" 2.5 40 bob_resting)
    as (res & ts & db' & Hrun & Htr & _ & Hsum & _).
  - lra.
  - intros o Ho. vm_compute in Ho. destruct Ho as [<-|[]]. vm_compute. discriminate.
  - exists res, ts, db'. auto.
Defined.

Lemma place_and_cancel_keep_orders_well_formed_witness :
  Forall order_ok (orders (snd (placeOrder 2 "alice" "mk" "S" BACK 2.5 40 bob_resting)))
  /\ Forall order_ok (orders (snd (cancelOrder "bob" 1 bob_resting))).
Proof.
  assert (Hnd : List.NoDup (map o_id (orders bob_resting))).
  { vm_compute. repeat constructor. intros []. }
  assert (Hok : Forall order_ok (orders bob_resting)).
  { apply List.Forall_forall. intros o Ho. vm_compute in Ho. destruct Ho as [<-|[]].
    unfold order_ok. cbn. repeat split; try lra; vm_compute; try discriminate; reflexivity. }
  destruct (place_and_cancel_keep_orders_well_formed
              2 "alice" "mk" "S" BACK 2.5 40 1 bob_resting Hnd Hok)
    as [[_ Hp] _].
  destruct (place_and_cancel_keep_orders_well_formed
              2 "bob" "mk" "S" BACK 2.5 40 1 bob_resting Hnd Hok)
    as [_ [_ Hc]].
  split; assumption.
Defined.



Lemma cancel_rejections_change_nothing_witness :
  cancelOrder "bob" 9 bob_resting = (Throw (ApiError 404 OrderNotFound), bob_resting)
  /\ cancelOrder "gina" 1 gina_hank
     = (Throw (ApiError 400 (CannotCancel MATCHED)), gina_hank).
Proof.
  split.
  - apply (proj1 (cancel_rejections_change_nothing "bob" 9 bob_resting)).
    vm_compute. reflexivity.
  - destruct (cancel_rejections_change_nothing "gina" 1 gina_hank) as (_ & H & _).
    apply (H (mkOrder 1 "gina" "mk" "S" BACK 2 100 (100 - 0) 0 MATCHED 100 1)).
    + vm_compute. reflexivity.
    + now left.
Defined.


Lemma force_close_leaves_nothing_pending_witness :
  fst (forceCloseMarket 3 "mk" ["S"] gina_hank) = Ok (0%nat, 1%nat)
  /\ refunded_trades "mk" (snd (forceCloseMarket 3 "mk" ["S"] gina_hank)) = []
  /\ forceCloseMarket 4 "mk" [] (snd (forceCloseMarket 3 "mk" ["S"] gina_hank))
     = (Throw (ApiError 400 MarketAlreadySettled),
        snd (forceCloseMarket 3 "mk" ["S"] gina_hank)).
Proof.
  assert (Hrun : forceCloseMarket 3 "mk" ["S"] gina_hank
                 = (Ok (0%nat, 1%nat), snd (forceCloseMarket 3 "mk" ["S"] gina_hank)))
    by (vm_compute; reflexivity).
  destruct (force_close_leaves_nothing_pending 3 "mk" ["S"] gina_hank _ _ Hrun)
    as (_ & _ & _ & _ & Hnone & _ & Hagain).
  split; [now rewrite Hrun|]. split; [exact Hnone|apply Hagain].
Defined.


Lemma engine_matches_what_the_book_shows_witness :
  exists ob res db',
    getOrderBook "mk" "S" bob_resting = (Ok ob, bob_resting)
    /\ run_engine BACK 7 "S" 2.5 40 bob_resting = (Ok res, db')
    /\ mr_remainingStake res == 0.
Proof.
  destruct (engine_matches_what_the_book_shows BACK 7 "mk" "S" 2.5 40 bob_resting)
    as (ob & res & db' & Hbook & Hrun & _ & _ & Hfull).
  - lra.
  - intros o Ho. vm_compute in Ho. destruct Ho as [<-|[]]. vm_compute. discriminate.
  - intros o Ho _. vm_compute in Ho. destruct Ho as [<-|[]]. reflexivity.
  - exists ob, res, db'. split; [exact Hbook|]. split; [exact Hrun|].
    apply Hfull. inversion Hbook. vm_compute. discriminate.
Defined.

Definition an_admin : option WalletController.ReqUser :=
  Some (WalletController.mkReqUser "root" WalletController.ADMIN).

(** Alice is the parent of Bob. *)
Definition family : gmap string WalletController.User :=
  <["alice" := WalletController.mkUser None]>
    (<["bob" := WalletController.mkUser (Some "alice")]> ∅).

Lemma an_admin_request userId marketId amount :
  userId <> "" -> marketId <> "" -> 0 < amount ->
  admin_request an_admin userId marketId amount.
Proof. intros Hu Hm Ha. split; [eexists; split; reflexivity|auto]. Qed.


Lemma release_endpoint_is_not_bounded_by_the_exposure_witness :
  exists r db',
    WalletController.releaseExposure an_admin "bob" "mk" 250 exchange0
      = (WalletController.Sent r, db')
    /\ exposure_of db' "bob" < 0
    /\ marketExposures db' = marketExposures exchange0.
Proof.
  destruct (release_endpoint_is_not_bounded_by_the_exposure an_admin "bob" "mk" 250
              exchange0 (mkWallet 1000 0))
    as (r & db' & Hrun & _ & Hneg & _ & Hnone & _).
  - apply an_admin_request; [discriminate|discriminate|lra].
  - vm_compute. reflexivity.
  - exists r, db'. split; [exact Hrun|].
    split; [apply Hneg; cbn; lra|apply Hnone; vm_compute; reflexivity].
Defined.

Lemma transfer_moves_balance_from_parent_to_child_witness :
  let out := WalletController.transferCoins family
               (Some (WalletController.mkReqUser "alice" WalletController.AGENT))
               "bob" 300 exchange0 in
  balance_of (snd out) "alice" + balance_of (snd out) "bob"
  == balance_of exchange0 "alice" + balance_of exchange0 "bob"
  /\ balance_of (snd out) "bob" == 1000 + 300.
Proof.
  cbv zeta.
  destruct (transfer_moves_balance_from_parent_to_child family
              (Some (WalletController.mkReqUser "alice" WalletController.AGENT))
              "bob" 300 exchange0
              (snd (WalletController.transferCoins family
                      (Some (WalletController.mkReqUser "alice" WalletController.AGENT))
                      "bob" 300 exchange0))
              (WalletController.mkTransferResult (1000 - 300) (1000 + 300)))
    as (u & ws & wr & Hu & _ & _ & _ & Hwr & _ & _ & _ & _ & Hto & Hsum & _).
  - vm_compute. reflexivity.
  - inversion Hu; subst u. cbn [WalletController.ru_id] in Hsum.
    split; [apply Hsum; discriminate|].
    rewrite Hto. assert (wr = mkWallet 1000 0) by (vm_compute in Hwr; congruence).
    subst wr. reflexivity.
Defined.

Lemma add_balance_credits_the_amount_witness :
  exists r db',
    WalletController.addBalance an_admin "bob" 500 exchange0 = (WalletController.Sent r, db')
    /\ wallets db' = <["bob" := mkWallet (1000 + 500) 0]> (wallets exchange0).
Proof.
  destruct (add_balance_credits_the_amount an_admin "bob" 500 exchange0) as [Hinv Hrun].
  destruct (Hrun (WalletController.mkReqUser "root" WalletController.ADMIN)
              (mkWallet 1000 0))
    as (r & db' & Hsent); [reflexivity|reflexivity|discriminate|lra|vm_compute; reflexivity|].
  exists r, db'. split; [exact Hsent|].
  destruct (Hinv r db' Hsent) as (u & w & _ & _ & _ & Hw & Hws & _).
  assert (w = mkWallet 1000 0) by (vm_compute in Hw; congruence). subst w. exact Hws.
Defined.

Lemma refused_wallet_requests_change_nothing_witness :
  exists e,
    WalletController.statusCode e = 403%nat
    /\ WalletController.addBalance
         (Some (WalletController.mkReqUser "bob" WalletController.USER))
         "bob" 1000000 exchange0
       = (WalletController.Refused e, exchange0).
Proof.
  destruct (refused_wallet_requests_change_nothing family
              (Some (WalletController.mkReqUser "bob" WalletController.USER))
              "bob" "mk" 1000000 exchange0) as [_ H].
  destruct H as (e & Hcode & _ & _ & Hadd).
  - right. eexists. split; reflexivity.
  - exists e. split; [exact Hcode|exact Hadd].
Defined.

Lemma exchange0_anchored : anchored exchange0.
Proof. intros u e H. discriminate. Qed.

Lemma latest_ledger_entry_carries_the_balance_witness : anchored gina_hank.
Proof.
  unfold gina_hank.
  apply (latest_ledger_entry_carries_the_balance
           (snd (placeOrder 1 "gina" "mk" "S" BACK 2 100 exchange0))).
  apply (latest_ledger_entry_carries_the_balance exchange0).
  exact exchange0_anchored.
Defined.

Lemma settlement_debits_no_balance_witness :
  balance_of gina_hank "hank"
  <= balance_of (snd (settleMatch 3 "match1" (Some "Home") gina_hank)) "hank".
Proof.
  assert (Hok : Forall trade_amounts_ok (trades gina_hank)).
  { apply List.Forall_forall. intros t Ht. vm_compute in Ht. destruct Ht as [<-|[]].
    split; vm_compute; discriminate. }
  destruct (settlement_debits_no_balance gina_hank Hok) as [Hsettle _].
  apply (Hsettle 3%nat "match1" (Some "Home")).
  vm_compute. reflexivity.
Defined.


